(** * directory_scan: a shallow embedding of the scanning pipeline

    The development follows the C++ sources:
    - [bounded_file_queue.h]: the bounded queue of pending paths;
    - [dirscan.cpp]: [sanitizeLine], [truncateAndHighlightMatch],
      [searchInFile], [searchInDirectory] (producer and workers) and
      [wildcardToRegex];
    - [dirscan.h]: [matchesWildcard].

    A [std::string] is a list of bytes ([list ascii]).  Sizes and indices of
    in-memory containers are [nat]; the [size_t] counters that the program
    increments are [N] with the wrap-around at [2^64] written out. *)

From Stdlib Require Import Ascii String.
From Stdlib Require Import List Sorted Permutation Bool Arith NArith Lia.
Import ListNotations.

Local Open Scope list_scope.

(** ** Byte strings *)

Definition bytes := list ascii.

(** A string literal of the source. *)
Definition lit (s : string) : bytes := list_ascii_of_string s.

Definition byte_of (n : nat) : ascii := ascii_of_nat n.

Definition LF : ascii := byte_of 10.
Definition TAB : ascii := byte_of 9.
Definition ESC : ascii := byte_of 27.
Definition BEL : ascii := byte_of 7.

Fixpoint bytes_eqb (a b : bytes) : bool :=
  match a, b with
  | [], [] => true
  | x :: a', y :: b' => Ascii.eqb x y && bytes_eqb a' b'
  | _, _ => false
  end.

(** [s.substr(pos, n)] for [pos <= s.size()]. *)
Definition substr (s : bytes) (pos n : nat) : bytes := firstn n (skipn pos s).

(** [s.insert(pos, t)] for [pos <= s.size()]. *)
Definition insert (s : bytes) (pos : nat) (t : bytes) : bytes :=
  firstn pos s ++ t ++ skipn pos s.

Fixpoint starts_with (p s : bytes) : bool :=
  match p, s with
  | [], _ => true
  | _ :: _, [] => false
  | a :: p', b :: s' => Ascii.eqb a b && starts_with p' s'
  end.

(** [s.find(q)] scanning from index [i]; [None] is [std::string::npos]. *)
Fixpoint find_from (i : nat) (s q : bytes) : option nat :=
  if starts_with q s then Some i
  else match s with
       | [] => None
       | _ :: s' => find_from (S i) s' q
       end.

Definition find (s q : bytes) : option nat := find_from 0 s q.

(** [q] occurs somewhere in [s]. *)
Definition contains (s q : bytes) : bool :=
  match find s q with Some _ => true | None => false end.

(** ** Number formatting of the output streams *)

Definition digit_char (d : N) : ascii :=
  if (d <? 10)%N then ascii_of_N (48 + d) else ascii_of_N (87 + d).

(** Digits of [n] in [base], most significant first; [fuel] bounds the
    number of digits. *)
Fixpoint digits_fuel (base : N) (fuel : nat) (n : N) (acc : bytes) : bytes :=
  match fuel with
  | O => acc
  | S f =>
      let acc' := digit_char (n mod base) :: acc in
      if (n / base =? 0)%N then acc' else digits_fuel base f (n / base) acc'
  end.

Definition digits (base : N) (n : N) : bytes :=
  digits_fuel base (S (N.size_nat n)) n [].

(** Decimal rendering of a [size_t], as [operator<<] prints it. *)
Definition dec (n : N) : bytes := digits 10 n.

(** *** [std::ostringstream]

    The formatting state that [sanitizeLine] drives: the buffer, the
    [std::hex] flag, the field width (reset by every formatted insertion)
    and the fill character. *)
Record ostringstream := mkOss {
  oss_buf : bytes;
  oss_hex : bool;
  oss_width : nat;
  oss_fill : ascii
}.

Definition oss_new : ostringstream :=
  {| oss_buf := []; oss_hex := false; oss_width := 0; oss_fill := " "%char |}.

Definition set_hex (o : ostringstream) : ostringstream :=
  {| oss_buf := oss_buf o; oss_hex := true;
     oss_width := oss_width o; oss_fill := oss_fill o |}.

Definition setw (n : nat) (o : ostringstream) : ostringstream :=
  {| oss_buf := oss_buf o; oss_hex := oss_hex o;
     oss_width := n; oss_fill := oss_fill o |}.

Definition setfill (c : ascii) (o : ostringstream) : ostringstream :=
  {| oss_buf := oss_buf o; oss_hex := oss_hex o;
     oss_width := oss_width o; oss_fill := c |}.

(** A formatted insertion: right-adjusted in the field, width reset to 0. *)
Definition put_field (s : bytes) (o : ostringstream) : ostringstream :=
  {| oss_buf := oss_buf o ++ repeat (oss_fill o) (oss_width o - length s) ++ s;
     oss_hex := oss_hex o; oss_width := 0; oss_fill := oss_fill o |}.

Definition put_char (c : ascii) : ostringstream -> ostringstream :=
  put_field [c].

Definition put_str (s : bytes) : ostringstream -> ostringstream :=
  put_field s.

(** Insertion of a non-negative [int]. *)
Definition put_int (n : N) (o : ostringstream) : ostringstream :=
  put_field (digits (if oss_hex o then 16 else 10) n) o.

(** ** [sanitizeLine] (dirscan.cpp) *)

(** The test [(c >= 32 && c < 127) || c == '\t'] on an [unsigned char]. *)
Definition keeps_byte (c : ascii) : bool :=
  let n := N_of_ascii c in
  ((32 <=? n)%N && (n <? 127)%N) || Ascii.eqb c TAB.

Definition sanitize_step (o : ostringstream) (c : ascii) : ostringstream :=
  if keeps_byte c then put_char c o
  else put_int (N_of_ascii c) (setfill "0"%char (setw 2 (put_str (lit "\x") o))).

Definition sanitizeLine (line : bytes) : bytes :=
  oss_buf (fold_left sanitize_step line (set_hex oss_new)).

(** The escaping as the specification words it: a kept byte stands for
    itself, any other byte becomes backslash, [x] and two hex digits. *)
Definition escape_spec (c : ascii) : bytes :=
  if keeps_byte c then [c]
  else let n := N_of_ascii c in
       ["\"%char; "x"%char; digit_char (n / 16); digit_char (n mod 16)].

(** ** [truncateAndHighlightMatch] (dirscan.cpp) *)

Definition COLOR_RED : bytes := ESC :: lit "[31m".
Definition COLOR_RESET : bytes := ESC :: lit "[0m".

Definition truncateAndHighlightMatch
    (line query : bytes) (maxContext : nat) : bytes :=
  match find line query with
  | None =>
      if maxContext <? length line
      then substr line 0 maxContext ++ lit "...(truncated)"
      else line
  | Some pos =>
      let contextRadius := maxContext / 2 in
      let start := if contextRadius <? pos then pos - contextRadius else 0 in
      let end0 := pos + length query + contextRadius in
      let end_ := if length line <? end0 then length line else end0 in
      let snippet := substr line start (end_ - start) in
      let truncatedLeft := 0 <? start in
      let truncatedRight := end_ <? length line in
      let snippetMatchPos := pos - start in
      let snippet := insert snippet (snippetMatchPos + length query) COLOR_RESET in
      let snippet := insert snippet snippetMatchPos COLOR_RED in
      let snippet := if truncatedLeft then lit "... " ++ snippet else snippet in
      let snippet := if truncatedRight then snippet ++ lit " ..." else snippet in
      snippet
  end.

(** The snippet stored for a matched line ([searchInFile], the two
    statements after [if (found)]). *)
Definition reported_snippet (line query : bytes) : bytes :=
  sanitizeLine (truncateAndHighlightMatch line query 180).

(** ** [BoundedFileQueue] (bounded_file_queue.h)

    Every member function runs under the queue's mutex, so each call is one
    atomic step.  A call whose wait predicate is false does not return: the
    caller stays blocked and the queue is unchanged, which the model renders
    as [None].  The notifications only make blocked callers test their
    predicate again and carry no state. *)

Definition path := bytes.

Record BoundedFileQueue := mkQueue {
  queue_ : list path;
  maxSize_ : nat;
  finished_ : bool
}.

Definition new_queue (maxSize : nat) : BoundedFileQueue :=
  {| queue_ := []; maxSize_ := maxSize; finished_ := false |}.

Definition empty (q : BoundedFileQueue) : bool :=
  match queue_ q with [] => true | _ :: _ => false end.

(** [push]: [None] while blocked; when finished the item is dropped. *)
Definition push (p : path) (q : BoundedFileQueue) : option BoundedFileQueue :=
  if (length (queue_ q) <? maxSize_ q) || finished_ q then
    if finished_ q then Some q
    else Some {| queue_ := queue_ q ++ [p];
                 maxSize_ := maxSize_ q; finished_ := finished_ q |}
  else None.

(** The outcome of [pop]: still waiting, [false], or [true] with the path
    written through the reference argument. *)
Inductive pop_result :=
| PopBlocked
| PopFalse
| PopTrue (p : path) (q' : BoundedFileQueue).

Definition pop (q : BoundedFileQueue) : pop_result :=
  if negb (empty q) || finished_ q then
    match queue_ q with
    | [] => PopFalse
    | p :: rest =>
        PopTrue p {| queue_ := rest;
                     maxSize_ := maxSize_ q; finished_ := finished_ q |}
    end
  else PopBlocked.

Definition setFinished (q : BoundedFileQueue) : BoundedFileQueue :=
  {| queue_ := queue_ q; maxSize_ := maxSize_ q; finished_ := true |}.

Definition isFinished (q : BoundedFileQueue) : bool := finished_ q.
Definition isEmpty (q : BoundedFileQueue) : bool := empty q.

(** Calls issued against the queue, in the order in which they take the
    mutex. *)
Inductive queue_op :=
| OpPush (p : path)
| OpPop
| OpSetFinished.

(** The queue after one call; a blocked call leaves it as it was. *)
Definition exec_op (q : BoundedFileQueue) (op : queue_op) : BoundedFileQueue :=
  match op with
  | OpPush p => match push p q with Some q' => q' | None => q end
  | OpPop => match pop q with PopTrue _ q' => q' | _ => q end
  | OpSetFinished => setFinished q
  end.

Definition run_ops (ops : list queue_op) (q : BoundedFileQueue)
  : BoundedFileQueue :=
  fold_left exec_op ops q.

(** ** Shared state of a scan (dirscan.cpp globals) *)

Definition SIZE_MAX_plus_1 : N := 2 ^ 64.

(** [++n] on a [size_t]. *)
Definition size_incr (n : N) : N := ((n + 1) mod SIZE_MAX_plus_1)%N.

Record StatusData := mkStatus {
  filesScanned : N;
  currentFile : bytes;
  fileHits : N;
  totalHits : N;
  lastError : bytes
}.

Definition status_init : StatusData :=
  {| filesScanned := 0; currentFile := []; fileHits := 0; totalHits := 0;
     lastError := lit "none" |}.

Definition set_lastError (e : bytes) (s : StatusData) : StatusData :=
  {| filesScanned := filesScanned s; currentFile := currentFile s;
     fileHits := fileHits s; totalHits := totalHits s; lastError := e |}.

Definition count_hit (s : StatusData) : StatusData :=
  {| filesScanned := filesScanned s; currentFile := currentFile s;
     fileHits := size_incr (fileHits s); totalHits := size_incr (totalHits s);
     lastError := lastError s |}.

Definition count_file (s : StatusData) : StatusData :=
  {| filesScanned := size_incr (filesScanned s); currentFile := currentFile s;
     fileHits := fileHits s; totalHits := totalHits s;
     lastError := lastError s |}.

Definition claim_file (p : path) (s : StatusData) : StatusData :=
  {| filesScanned := filesScanned s; currentFile := p;
     fileHits := 0; totalHits := totalHits s; lastError := lastError s |}.

(** The globals, with [opened], the log of the files for which the
    [std::ifstream] constructor succeeded (most recent last). *)
Record World := mkWorld {
  g_status : StatusData;
  g_resultsFile : bytes;
  g_filesProcessed : N;
  opened : list path
}.

Definition world_init : World :=
  {| g_status := status_init; g_resultsFile := [];
     g_filesProcessed := 0; opened := [] |}.

Definition with_status (f : StatusData -> StatusData) (w : World) : World :=
  {| g_status := f (g_status w); g_resultsFile := g_resultsFile w;
     g_filesProcessed := g_filesProcessed w; opened := opened w |}.

Definition log_open (p : path) (w : World) : World :=
  {| g_status := g_status w; g_resultsFile := g_resultsFile w;
     g_filesProcessed := g_filesProcessed w; opened := opened w ++ [p] |}.

(** ** Reading a file line by line

    The lines that the loop [while (std::getline(ifs, line))] yields on a
    stream holding [content]: [cur] is the line being extracted, [None]
    before its first character.  A call that reaches the end of the stream
    without extracting anything fails and ends the loop. *)
Fixpoint read_lines (cur : option bytes) (content : bytes) : list bytes :=
  match content with
  | [] => match cur with None => [] | Some l => [l] end
  | c :: rest =>
      if Ascii.eqb c LF
      then match cur with None => [] | Some l => l end :: read_lines None rest
      else read_lines
             (Some (match cur with None => [] | Some l => l end ++ [c])) rest
  end.

Definition getlines (content : bytes) : list bytes := read_lines None content.

(** ** [searchInFile] (dirscan.cpp) *)

Record MatchInfo := mkMatch {
  lineNumber : N;
  text : bytes
}.

(** One line of a result block. *)
Definition format_match (m : MatchInfo) : bytes :=
  lit "    Line " ++ dec (lineNumber m) ++ lit ": " ++ text m ++ [LF].

(** The block written for a file with matches. *)
Definition format_block (filePath : path) (matches : list MatchInfo) : bytes :=
  lit "Matches in file: " ++ filePath
    ++ lit " (" ++ dec (N.of_nat (length matches)) ++ lit " hits)" ++ [LF]
    ++ flat_map format_match matches
    ++ [LF].

(** ** [wildcardToRegex] (dirscan.cpp) *)

(** The characters of the third [case] group of the [switch]. *)
Definition regex_special (c : ascii) : bool :=
  existsb (Ascii.eqb c) (lit ".\+^$(){}[]|/").

(** What one wildcard character appends to [regexStr]. *)
Definition wildcard_char (c : ascii) : bytes :=
  if Ascii.eqb c "*"%char then lit ".*"
  else if Ascii.eqb c "?"%char then lit "."
  else if regex_special c then ["\"%char; c]
  else [c].

Definition wildcardToRegex (wildcard : bytes) : bytes :=
  fold_left (fun regexStr c => regexStr ++ wildcard_char c) wildcard (lit "^")
    ++ lit "$".

(** ** Directory traversal *)

(** A call that returns a value or throws a [std::exception] with the
    message [what]. *)
Inductive outcome (A : Type) :=
| Returned (a : A)
| Thrown (what : bytes).
Arguments Returned {A} a.
Arguments Thrown {A} what.

(** What the producer asks of a [directory_entry]. *)
Record directory_entry := mkEntry {
  entry_path : path;
  is_regular_file : outcome bool
}.

(** A run of [recursive_directory_iterator]: the entries it yields, until
    it reaches the end or its constructor or increment throws. *)
Inductive walk :=
| WalkEnd
| WalkThrow (what : bytes)
| WalkNext (e : directory_entry) (rest : walk).

(** [p.filename()]: the component after the last separator. *)
Fixpoint filename_from (cur : bytes) (p : path) : bytes :=
  match p with
  | [] => cur
  | c :: rest =>
      if Ascii.eqb c "/"%char then filename_from [] rest
      else filename_from (cur ++ [c]) rest
  end.

Definition filename (p : path) : bytes := filename_from [] p.

(** What the producer thread does to the shared objects, in program
    order. *)
Inductive producer_action :=
| DoPush (p : path)
| DoSetLastError (e : bytes)
| DoSetFinished.

(** The threads of a scan; the monitor only reads and is left out. *)
Inductive thread :=
| Producer
| Worker (i : nat).

Section Scan.

(** The regular-expression library and the file system are capabilities
    of the environment.  [regex_compile icase s] is the constructor
    [std::regex(s)] (with [std::regex::icase] when [icase]); [None] is a
    thrown [std::regex_error].  [fs p] is the content read through an
    [std::ifstream] on [p], [None] when it cannot be opened. *)
Variable regex : Type.
Variable regex_compile : bool -> bytes -> option regex.
Variable regex_search : regex -> bytes -> bool.
Variable regex_match : regex -> bytes -> bool.
Variable fs : path -> option bytes.

(** How a line is tested: by [line.find(query)] or by [regex_search]. *)
Inductive matcher :=
| Substring
| Pattern (r : regex).

Definition line_found (m : matcher) (query line : bytes) : bool :=
  match m with
  | Pattern r => regex_search r line
  | Substring => contains line query
  end.

(** The state carried around the reading loop. *)
Record scan_state := mkScan {
  next_line : N;
  matches : list MatchInfo;
  scan_status : StatusData
}.

(** The body of the reading loop. *)
Definition scan_line (m : matcher) (query : bytes)
    (s : scan_state) (line : bytes) : scan_state :=
  if line_found m query line then
    {| next_line := size_incr (next_line s);
       matches := matches s
                  ++ [{| lineNumber := next_line s;
                         text := reported_snippet line query |}];
       scan_status := count_hit (scan_status s) |}
  else
    {| next_line := size_incr (next_line s);
       matches := matches s;
       scan_status := scan_status s |}.

Definition scan_lines (m : matcher) (query : bytes) (lines : list bytes)
    (st : StatusData) : scan_state :=
  fold_left (scan_line m query) lines
    {| next_line := 1; matches := []; scan_status := st |}.

(** The matcher prepared before the loop; [None] when the constructor of
    [std::regex] throws. *)
Definition prepare_matcher (query : bytes) (use_regex : bool)
  : option matcher :=
  if use_regex then
    match regex_compile false query with
    | Some r => Some (Pattern r)
    | None => None
    end
  else Some Substring.

Definition searchInFile (filePath : path) (query : bytes) (use_regex : bool)
    (w : World) : World :=
  match fs filePath with
  | None =>
      with_status (set_lastError (lit "Could not open: " ++ filePath)) w
  | Some content =>
      let w := log_open filePath w in
      match prepare_matcher query use_regex with
      | None =>
          with_status (set_lastError (lit "Invalid regex: " ++ query)) w
      | Some m =>
          let s := scan_lines m query (getlines content) (g_status w) in
          {| g_status := count_file (scan_status s);
             g_resultsFile :=
               match matches s with
               | [] => g_resultsFile w
               | _ :: _ => g_resultsFile w ++ format_block filePath (matches s)
               end;
             g_filesProcessed := size_incr (g_filesProcessed w);
             opened := opened w |}
      end
  end.

(** *** The producer thread of [searchInDirectory] *)

Definition matchesWildcard (filename : bytes) (wildcardRegex : regex) : bool :=
  regex_match wildcardRegex filename.

(** The inner [try] block, run on one entry. *)
Definition entry_body (wildcardRegex : option regex) (entry : directory_entry)
  : outcome (list producer_action) :=
  match is_regular_file entry with
  | Thrown what => Thrown what
  | Returned false => Returned []
  | Returned true =>
      let filePath := entry_path entry in
      let normalName := filename filePath in
      match wildcardRegex with
      | Some r =>
          if negb (matchesWildcard normalName r) then Returned []
          else Returned [DoPush filePath]
      | None => Returned [DoPush filePath]
      end
  end.

(** The inner [try] with its handler. *)
Definition entry_step (wildcardRegex : option regex) (entry : directory_entry)
  : list producer_action :=
  match entry_body wildcardRegex entry with
  | Returned acts => acts
  | Thrown what =>
      [DoSetLastError (lit "Error reading an entry: " ++ entry_path entry
                         ++ lit "/n" ++ what)]
  end.

(** The outer [try] block: the actions done, and the exception that left
    the loop, if any. *)
Fixpoint walk_body (wildcardRegex : option regex) (w : walk)
  : list producer_action * option bytes :=
  match w with
  | WalkEnd => ([], None)
  | WalkThrow what => ([], Some what)
  | WalkNext entry rest =>
      let (acts, ex) := walk_body wildcardRegex rest in
      (entry_step wildcardRegex entry ++ acts, ex)
  end.

Definition producer (wildcardRegex : option regex) (directory : path)
    (w : walk) : list producer_action :=
  let (acts, ex) := walk_body wildcardRegex w in
  acts
    ++ match ex with
       | Some what =>
           [DoSetLastError (lit "Error scanning directory: " ++ directory
                              ++ lit "/n" ++ what)]
       | None => []
       end
    ++ [DoSetFinished].

(** *** The threads of [searchInDirectory]

    Each step is one critical section of one thread.  A worker's handling
    of a popped path (the status update and [searchInFile]) is taken as
    one step: its effect on the results file is a single write under
    [g_resultsMutex]. *)
Record system := mkSystem {
  fileQueue : BoundedFileQueue;
  producer_todo : list producer_action;
  workers : list bool;
  world : World
}.

Fixpoint stop_worker (i : nat) (ws : list bool) : list bool :=
  match ws, i with
  | [], _ => []
  | _ :: ws', O => false :: ws'
  | b :: ws', S i' => b :: stop_worker i' ws'
  end.

Definition producer_step (s : system) : system :=
  match producer_todo s with
  | [] => s
  | DoPush p :: rest =>
      match push p (fileQueue s) with
      | None => s
      | Some q' =>
          {| fileQueue := q'; producer_todo := rest;
             workers := workers s; world := world s |}
      end
  | DoSetLastError e :: rest =>
      {| fileQueue := fileQueue s; producer_todo := rest;
         workers := workers s;
         world := with_status (set_lastError e) (world s) |}
  | DoSetFinished :: rest =>
      {| fileQueue := setFinished (fileQueue s); producer_todo := rest;
         workers := workers s; world := world s |}
  end.

Definition worker_step (query : bytes) (use_regex : bool) (i : nat)
    (s : system) : system :=
  if nth i (workers s) false then
    match pop (fileQueue s) with
    | PopBlocked => s
    | PopFalse =>
        {| fileQueue := fileQueue s; producer_todo := producer_todo s;
           workers := stop_worker i (workers s); world := world s |}
    | PopTrue filePath q' =>
        {| fileQueue := q'; producer_todo := producer_todo s;
           workers := workers s;
           world := searchInFile filePath query use_regex
                      (with_status (claim_file filePath) (world s)) |}
    end
  else s.

Definition step (query : bytes) (use_regex : bool) (s : system) (t : thread)
  : system :=
  match t with
  | Producer => producer_step s
  | Worker i => worker_step query use_regex i s
  end.

Definition run (query : bytes) (use_regex : bool) (schedule : list thread)
    (s : system) : system :=
  fold_left (step query use_regex) schedule s.

(** Every thread has returned, so the joins succeed. *)
Definition all_joined (s : system) : bool :=
  match producer_todo s with
  | [] => forallb negb (workers s)
  | _ :: _ => false
  end.

Definition MAX_QUEUE_SIZE : nat := 100 * 100.

(** [g_resultsFile.open] with [std::ios::trunc]. *)
Definition truncate_results (w : World) : World :=
  {| g_status := g_status w; g_resultsFile := [];
     g_filesProcessed := g_filesProcessed w; opened := opened w |}.

(** The optional [wildcardRegex]; the outer [None] is the exception
    caught around its construction. *)
Definition compile_filter (filePattern : option bytes)
  : option (option regex) :=
  match filePattern with
  | Some pat =>
      match regex_compile true (wildcardToRegex pat) with
      | Some r => Some (Some r)
      | None => None
      end
  | None => Some None
  end.

(** The threads as [searchInDirectory] creates them.
    [hardware_concurrency] is the value of
    [std::thread::hardware_concurrency()] and [tree] is what the directory
    iterator will yield. *)
Definition spawn (wildcardRegex : option regex) (directory : path)
    (hardware_concurrency : nat) (tree : walk) (w : World) : system :=
  {| fileQueue := new_queue MAX_QUEUE_SIZE;
     producer_todo := producer wildcardRegex directory tree;
     workers := repeat true (Nat.max 1 hardware_concurrency);
     world := w |}.

(** [searchInDirectory] observed after its threads have taken the steps
    of [schedule]: the globals at that point.  [results_ok] tells whether
    [search_results.txt] can be opened.  The function returns once
    [all_joined] holds. *)
Definition scan (query : bytes) (directory : path)
    (use_regex : bool) (filePattern : option bytes)
    (results_ok : bool) (hardware_concurrency : nat) (tree : walk)
    (schedule : list thread) (w : World) : option system :=
  if negb results_ok then None
  else
    match compile_filter filePattern with
    | None => None
    | Some wildcardRegex =>
        Some (run query use_regex schedule
                (spawn wildcardRegex directory hardware_concurrency tree
                   (truncate_results w)))
    end.

Definition searchInDirectory (query : bytes) (directory : path)
    (use_regex : bool) (filePattern : option bytes)
    (results_ok : bool) (hardware_concurrency : nat) (tree : walk)
    (schedule : list thread) (w : World) : World :=
  if negb results_ok then w
  else
    match scan query directory use_regex filePattern results_ok
            hardware_concurrency tree schedule w with
    | None => truncate_results w
    | Some s => world s
    end.

End Scan.

Arguments Substring {regex}.
Arguments Pattern {regex} r.
Arguments line_found {regex}.
Arguments scan_line {regex}.
Arguments scan_lines {regex}.
Arguments prepare_matcher {regex}.
Arguments searchInFile {regex}.
Arguments matchesWildcard {regex}.
Arguments entry_body {regex}.
Arguments entry_step {regex}.
Arguments walk_body {regex}.
Arguments producer {regex}.
Arguments worker_step {regex}.
Arguments step {regex}.
Arguments run {regex}.
Arguments spawn {regex}.
Arguments scan {regex}.
Arguments searchInDirectory {regex}.
Arguments compile_filter {regex}.

(** ** The regular expressions of the scan

    [std::regex] with its default ECMAScript grammar, on the patterns built
    from ordinary characters, [.], an escaped punctuation character, the
    closure [*] of one character and the assertions [^] and [$].  Every
    output of [wildcardToRegex] is such a pattern.  [compile] gives [None]
    where the constructor throws [std::regex_error], as it does for a [*]
    with nothing to repeat or a dangling backslash; the remaining operators
    of the grammar (groups, classes, alternation, counted repetition, [+],
    [?], character-class escapes) are not covered and are refused too. *)
Module Ecma.

Inductive atom :=
| AnyChar
| Char (c : ascii).

Inductive node :=
| Bol
| Eol
| One (a : atom)
| Many (a : atom).

Record regex := mkRegex {
  icase : bool;
  nodes : list node
}.

Inductive token :=
| TBol
| TEol
| TAtom (a : atom)
| TStar.

(** Punctuation that a backslash makes literal. *)
Definition escapable (c : ascii) : bool :=
  existsb (Ascii.eqb c) (lit "^$\.*+?()[]{}|/").

(** Operators outside the modelled patterns. *)
Definition uncovered (c : ascii) : bool :=
  existsb (Ascii.eqb c) (lit "+?()[]{}|").

Definition token_of (c : ascii) : token :=
  if Ascii.eqb c "^"%char then TBol
  else if Ascii.eqb c "$"%char then TEol
  else if Ascii.eqb c "."%char then TAtom AnyChar
  else if Ascii.eqb c "*"%char then TStar
  else TAtom (Char c).

Fixpoint tokens (s : bytes) : option (list token) :=
  match s with
  | [] => Some []
  | c :: rest =>
      if Ascii.eqb c "\"%char then
        match rest with
        | [] => None
        | e :: rest' =>
            if escapable e
            then option_map (cons (TAtom (Char e))) (tokens rest')
            else None
        end
      else if uncovered c then None
      else option_map (cons (token_of c)) (tokens rest)
  end.

Fixpoint build (ts : list token) : option (list node) :=
  match ts with
  | [] => Some []
  | TBol :: r => option_map (cons Bol) (build r)
  | TEol :: r => option_map (cons Eol) (build r)
  | TAtom a :: r =>
      match r with
      | TStar :: r' => option_map (cons (Many a)) (build r')
      | _ => option_map (cons (One a)) (build r)
      end
  | TStar :: _ => None
  end.

Definition compile (ic : bool) (s : bytes) : option regex :=
  match tokens s with
  | Some ts =>
      match build ts with
      | Some ns => Some {| icase := ic; nodes := ns |}
      | None => None
      end
  | None => None
  end.

(** [std::tolower] in the C locale. *)
Definition lower (c : ascii) : ascii :=
  let n := N_of_ascii c in
  if ((65 <=? n) && (n <=? 90))%N then ascii_of_N (n + 32) else c.

Definition line_terminator (c : ascii) : bool :=
  Ascii.eqb c LF || Ascii.eqb c (byte_of 13).

Definition atom_ok (ic : bool) (a : atom) (c : ascii) : bool :=
  match a with
  | AnyChar => negb (line_terminator c)
  | Char x => if ic then Ascii.eqb (lower x) (lower c) else Ascii.eqb x c
  end.

Definition is_nil (s : bytes) : bool :=
  match s with [] => true | _ :: _ => false end.

(** Zero or more characters accepted by [ok], then [k]. *)
Fixpoint many (ok : ascii -> bool) (k : bool -> bytes -> bool)
    (bol : bool) (s : bytes) : bool :=
  k bol s
  || match s with
     | c :: s' => ok c && many ok k false s'
     | [] => false
     end.

(** Does [r] match at the head of [s]?  [bol] tells whether [s] starts
    the input; with [full] the match must reach the end of [s]. *)
Fixpoint match_here (full ic : bool) (r : list node)
  : bool -> bytes -> bool :=
  match r with
  | [] => fun _ s => if full then is_nil s else true
  | Bol :: r' => fun bol s => bol && match_here full ic r' bol s
  | Eol :: r' => fun bol s => is_nil s && match_here full ic r' bol s
  | One a :: r' =>
      fun _ s =>
        match s with
        | c :: s' => atom_ok ic a c && match_here full ic r' false s'
        | [] => false
        end
  | Many a :: r' => many (atom_ok ic a) (match_here full ic r')
  end.

(** [std::regex_match]: the whole of [s]. *)
Definition regex_match (r : regex) (s : bytes) : bool :=
  match_here true (icase r) (nodes r) true s.

Fixpoint search_from (r : regex) (bol : bool) (s : bytes) : bool :=
  match_here false (icase r) (nodes r) bol s
  || match s with
     | _ :: s' => search_from r false s'
     | [] => false
     end.

(** [std::regex_search]: some part of [s]. *)
Definition regex_search (r : regex) (s : bytes) : bool :=
  search_from r true s.

End Ecma.

(** ** Wildcards as the specification words them

    [*] stands for zero or more characters, [?] for exactly one, any other
    character for itself; letters compare without case, as the filter is
    compiled with [std::regex::icase]. *)
Inductive glob_matches : bytes -> bytes -> Prop :=
| glob_end : glob_matches [] []
| glob_star w skipped rest :
    glob_matches w rest -> glob_matches ("*"%char :: w) (skipped ++ rest)
| glob_question w c rest :
    glob_matches w rest -> glob_matches ("?"%char :: w) (c :: rest)
| glob_literal w c x rest :
    c <> "*"%char -> c <> "?"%char -> Ecma.lower c = Ecma.lower x ->
    glob_matches w rest -> glob_matches (c :: w) (x :: rest).

(** ** Predicates used by the proofs *)

(** A stream between two insertions of [sanitizeLine]: in hex mode, with
    no pending field width. *)
Definition oss_ready (o : ostringstream) : Prop :=
  oss_hex o = true /\ oss_width o = 0.

(** The invariant of the queue: no more than [maxSize_] paths queued. *)
Definition within_capacity (q : BoundedFileQueue) : Prop :=
  length (queue_ q) <= maxSize_ q.

(** An empty, finished queue; it stays so whatever is called on it. *)
Definition drained (q : BoundedFileQueue) : Prop :=
  queue_ q = [] /\ finished_ q = true.

(** The lines of a file with their numbers, counted from [k]. *)
Fixpoint number_from (k : N) (lines : list bytes) : list (N * bytes) :=
  match lines with
  | [] => []
  | l :: ls => (k, l) :: number_from (k + 1) ls
  end.

(** The match record of a numbered line. *)
Definition match_of (query : bytes) (kl : N * bytes) : MatchInfo :=
  {| lineNumber := fst kl; text := reported_snippet (snd kl) query |}.

(** The numbered lines of a file that the matcher accepts. *)
Definition hit_lines {regex : Type} (regex_search : regex -> bytes -> bool)
    (m : matcher regex) (query : bytes) (lines : list bytes)
  : list (N * bytes) :=
  filter (fun kl => line_found regex_search m query (snd kl))
    (number_from 1 lines).

(** [s] ends with [p]. *)
Definition ends_with (p s : bytes) : bool := starts_with (rev p) (rev s).

(** The action is the call of [setFinished]. *)
Definition is_setFinished (a : producer_action) : bool :=
  match a with DoSetFinished => true | _ => false end.

(** The paths pushed by a list of producer actions. *)
Fixpoint pushed (acts : list producer_action) : list path :=
  match acts with
  | [] => []
  | DoPush p :: rest => p :: pushed rest
  | _ :: rest => pushed rest
  end.

(** The actions of the producer before its last one. *)
Definition producer_body {regex : Type} (regex_match : regex -> bytes -> bool)
    (wr : option regex) (directory : path) (w : walk)
  : list producer_action :=
  fst (walk_body regex_match wr w)
    ++ match snd (walk_body regex_match wr w) with
       | Some what =>
           [DoSetLastError (lit "Error scanning directory: " ++ directory
                              ++ lit "/n" ++ what)]
       | None => []
       end.

(** The paths a scan holds at some point: those opened so far, those
    queued and those the producer is still to push. *)
Definition in_flight (s : system) : list path :=
  opened (world s) ++ queue_ (fileQueue s) ++ pushed (producer_todo s).

(** What a scan with a pattern that does not compile leaves untouched. *)
Definition untouched (w0 w : World) : Prop :=
  g_resultsFile w = g_resultsFile w0
  /\ filesScanned (g_status w) = filesScanned (g_status w0)
  /\ totalHits (g_status w) = totalHits (g_status w0).

(** The tokens and the node that [wildcardToRegex] makes of one wildcard
    character. *)
Definition glob_tokens (c : ascii) : list Ecma.token :=
  if Ascii.eqb c "*"%char then [Ecma.TAtom Ecma.AnyChar; Ecma.TStar]
  else if Ascii.eqb c "?"%char then [Ecma.TAtom Ecma.AnyChar]
  else [Ecma.TAtom (Ecma.Char c)].

Definition glob_node (c : ascii) : Ecma.node :=
  if Ascii.eqb c "*"%char then Ecma.Many Ecma.AnyChar
  else if Ascii.eqb c "?"%char then Ecma.One Ecma.AnyChar
  else Ecma.One (Ecma.Char c).

(** The token list does not start with a closure. *)
Definition no_leading_star (ts : list Ecma.token) : Prop :=
  match ts with Ecma.TStar :: _ => False | _ => True end.

Definition not_line_terminator (c : ascii) : bool :=
  negb (Ecma.line_terminator c).

(** ** The directory of the test program (tests/test_dirscan.cpp) *)

Definition testDir : path := lit "/tmp/test_files".
Definition file1 : path := lit "/tmp/test_files/file1.txt".
Definition file2 : path := lit "/tmp/test_files/file2.txt".

Definition test_fs (p : path) : option bytes :=
  if bytes_eqb p file1 then
    Some (lit "This is a test." ++ [LF] ++ lit "We have a needle here."
            ++ [LF] ++ lit "End of file." ++ [LF])
  else if bytes_eqb p file2 then
    Some (lit "Some other text." ++ [LF] ++ lit "Nothing interesting."
            ++ [LF])
  else None.

Definition test_tree : walk :=
  WalkNext {| entry_path := file1; is_regular_file := Returned true |}
    (WalkNext {| entry_path := file2; is_regular_file := Returned true |}
       WalkEnd).

(** A directory with the regular files [a.txt] and [a.log]. *)
Definition txt_log_tree : walk :=
  WalkNext {| entry_path := lit "d/a.txt"; is_regular_file := Returned true |}
    (WalkNext {| entry_path := lit "d/a.log";
                 is_regular_file := Returned true |}
       WalkEnd).

(** ** Traces of queue calls *)

(** What a call adds at the tail of the queue. *)
Definition inserted_by (q : BoundedFileQueue) (op : queue_op) : list path :=
  match op with
  | OpPush _ => skipn (length (queue_ q)) (queue_ (exec_op q op))
  | _ => []
  end.

(** What a call returns through the reference argument of [pop]. *)
Definition popped_by (q : BoundedFileQueue) (op : queue_op) : list path :=
  match op with
  | OpPop => match pop q with PopTrue p _ => [p] | _ => [] end
  | _ => []
  end.

(** The paths a sequence of calls adds to the queue, in order. *)
Fixpoint inserted (ops : list queue_op) (q : BoundedFileQueue) : list path :=
  match ops with
  | [] => []
  | op :: rest => inserted_by q op ++ inserted rest (exec_op q op)
  end.

(** The paths a sequence of calls takes out of the queue, in order. *)
Fixpoint popped (ops : list queue_op) (q : BoundedFileQueue) : list path :=
  match ops with
  | [] => []
  | op :: rest => popped_by q op ++ popped rest (exec_op q op)
  end.

(** The paths a sequence of calls asks to push. *)
Fixpoint requested (ops : list queue_op) : list path :=
  match ops with
  | [] => []
  | OpPush p :: rest => p :: requested rest
  | _ :: rest => requested rest
  end.

Definition is_OpSetFinished (op : queue_op) : bool :=
  match op with OpSetFinished => true | _ => false end.

(** ** Lines put back together *)

(** The lines of a file, each followed by a line feed. *)
Definition join_lines (lines : list bytes) : bytes :=
  flat_map (fun l => l ++ [LF]) lines.

(** The line being extracted; empty before its first character. *)
Definition pending (cur : option bytes) : bytes :=
  match cur with Some l => l | None => [] end.

(** Reading [content] ends inside a line that no line feed closes. *)
Fixpoint ends_open (cur : option bytes) (content : bytes) : bool :=
  match content with
  | [] => match cur with Some _ => true | None => false end
  | c :: rest =>
      if Ascii.eqb c LF then ends_open None rest
      else ends_open (Some (pending cur ++ [c])) rest
  end.

(** ** [main] (main.cpp) *)

(** The loop over [argv[3]], [argv[4]], ... *)
Fixpoint parse_options (args : list bytes) (use_regex : bool)
    (extensionFilter : option bytes) : bool * option bytes :=
  match args with
  | [] => (use_regex, extensionFilter)
  | arg :: rest =>
      if bytes_eqb arg (lit "--regex") then
        parse_options rest true extensionFilter
      else if bytes_eqb arg (lit "--ext") then
        match rest with
        | value :: rest' => parse_options rest' use_regex (Some value)
        | [] => (use_regex, extensionFilter)
        end
      else parse_options rest use_regex extensionFilter
  end.

(** How [main] ends: with the usage message, with the message that the
    path is no directory (both return 1), or after the call of
    [searchInDirectory] with these arguments (return 0). *)
Inductive main_result :=
| ExitUsage
| ExitNotDirectory
| CallsSearch (query : bytes) (directory : path) (use_regex : bool)
    (filePattern : option bytes).

(** [is_directory p] tells whether [p] exists and is a directory. *)
Definition main (argv : list bytes) (is_directory : path -> bool)
  : main_result :=
  match argv with
  | _ :: query :: directory :: options =>
      if negb (is_directory directory) then ExitNotDirectory
      else
        let (use_regex, extensionFilter) := parse_options options false None in
        CallsSearch query directory use_regex extensionFilter
  | _ => ExitUsage
  end.

Definition is_regex_flag (arg : bytes) : bool := bytes_eqb arg (lit "--regex").
Definition is_ext_flag (arg : bytes) : bool := bytes_eqb arg (lit "--ext").

(** The character is one of the two wildcards. *)
Definition is_wildcard (c : ascii) : bool :=
  Ascii.eqb c "*"%char || Ascii.eqb c "?"%char.

(** ** Entries of a traversal *)

(** The entries that a traversal yields before it ends or throws. *)
Fixpoint walk_entries (w : walk) : list directory_entry :=
  match w with
  | WalkNext e rest => e :: walk_entries rest
  | _ => []
  end.

(** The exception that ends a traversal, if any. *)
Fixpoint walk_failure (w : walk) : option bytes :=
  match w with
  | WalkEnd => None
  | WalkThrow what => Some what
  | WalkNext _ rest => walk_failure rest
  end.

(** The entry is a regular file whose name the filter, if any, accepts. *)
Definition passes {regex : Type} (regex_match : regex -> bytes -> bool)
    (wr : option regex) (e : directory_entry) : bool :=
  match is_regular_file e with
  | Returned true =>
      match wr with
      | Some r => regex_match r (filename (entry_path e))
      | None => true
      end
  | _ => false
  end.

(** The message left in [lastError] for an entry whose inspection throws. *)
Definition entry_errors (e : directory_entry) : list bytes :=
  match is_regular_file e with
  | Thrown what =>
      [lit "Error reading an entry: " ++ entry_path e ++ lit "/n" ++ what]
  | Returned _ => []
  end.

(** The messages a list of producer actions writes to [lastError]. *)
Fixpoint reported (acts : list producer_action) : list bytes :=
  match acts with
  | [] => []
  | DoSetLastError e :: rest => e :: reported rest
  | _ :: rest => reported rest
  end.

(** ** Runs of the threads *)

(** The path that a step takes out of the queue, if it is a worker's
    successful [pop]. *)
Definition pop_of (s : system) (t : thread) : list path :=
  match t with
  | Worker i =>
      if nth i (workers s) false then
        match pop (fileQueue s) with
        | PopTrue p _ => [p]
        | _ => []
        end
      else []
  | Producer => []
  end.

(** The paths that the workers pop along a schedule, in order. *)
Fixpoint pops {regex : Type} (regex_compile : bool -> bytes -> option regex)
    (regex_search : regex -> bytes -> bool) (fs : path -> option bytes)
    (query : bytes) (use_regex : bool) (schedule : list thread) (s : system)
  : list path :=
  match schedule with
  | [] => []
  | t :: ts =>
      pop_of s t
        ++ pops regex_compile regex_search fs query use_regex ts
             (step regex_compile regex_search fs query use_regex s t)
  end.

(** The producer has not called [setFinished] and will, as its last
    action; or it has, and has returned. *)
Definition producer_inv (s : system) : Prop :=
  (finished_ (fileQueue s) = false
   /\ exists body,
        producer_todo s = body ++ [DoSetFinished]
        /\ filter is_setFinished body = [])
  \/ (finished_ (fileQueue s) = true /\ producer_todo s = []).

(** What holds of the threads of a scan at every moment. *)
Definition scan_inv (s : system) : Prop :=
  0 < maxSize_ (fileQueue s)
  /\ workers s <> []
  /\ producer_inv s
  /\ (forallb (fun b => b) (workers s) = true \/ drained (fileQueue s)).

(** The file is opened and a matcher is prepared, so it is read. *)
Definition is_read {regex : Type}
    (regex_compile : bool -> bytes -> option regex)
    (fs : path -> option bytes) (query : bytes) (use_regex : bool)
    (p : path) : bool :=
  match fs p, prepare_matcher regex_compile query use_regex with
  | Some _, Some _ => true
  | _, _ => false
  end.

(** What the search of a file adds to the results. *)
Definition file_block {regex : Type}
    (regex_compile : bool -> bytes -> option regex)
    (regex_search : regex -> bytes -> bool) (fs : path -> option bytes)
    (query : bytes) (use_regex : bool) (p : path) : bytes :=
  g_resultsFile
    (searchInFile regex_compile regex_search fs p query use_regex world_init).

(** ** Wildcards as the filter reads them

    As [glob_matches], but [*] and [?] stand for characters other than
    line feed and carriage return, which the [.] of the regex never
    matches. *)
Inductive wildcard_matches : bytes -> bytes -> Prop :=
| wildcard_end : wildcard_matches [] []
| wildcard_star w skipped rest :
    forallb not_line_terminator skipped = true ->
    wildcard_matches w rest ->
    wildcard_matches ("*"%char :: w) (skipped ++ rest)
| wildcard_question w c rest :
    not_line_terminator c = true ->
    wildcard_matches w rest ->
    wildcard_matches ("?"%char :: w) (c :: rest)
| wildcard_literal w c x rest :
    c <> "*"%char -> c <> "?"%char -> Ecma.lower c = Ecma.lower x ->
    wildcard_matches w rest -> wildcard_matches (c :: w) (x :: rest).

(** A file whose name holds a line feed. *)
Definition line_feed_name : bytes := lit "a" ++ [LF] ++ lit "b.txt".

Definition line_feed_tree : walk :=
  WalkNext {| entry_path := lit "d/" ++ line_feed_name;
              is_regular_file := Returned true |}
    WalkEnd.

(** ** The threads with their waits and critical sections

    A second, finer account of the threads of [searchInDirectory].  Each
    step is one critical section: a call on the queue, or one locked
    update of the globals by a worker.  A thread whose wait predicate is
    false waits on its condition variable until [notify_one] or
    [notify_all] reaches it, or until it wakes up unprompted, and then
    tests the predicate again. *)

(** The updates of the globals that a worker makes for one path: the
    locked blocks of the worker loop and of [searchInFile], the atomic
    increment of [g_filesProcessed], and the opening of the file. *)
Inductive worker_action :=
| ASetCurrent (p : path)
| AOpen (p : path)
| ASetError (e : bytes)
| AHit
| AProcessed
| AScanned
| AWrite (block : bytes).

Definition apply_action (a : worker_action) (w : World) : World :=
  match a with
  | ASetCurrent p => with_status (claim_file p) w
  | AOpen p => log_open p w
  | ASetError e => with_status (set_lastError e) w
  | AHit => with_status count_hit w
  | AProcessed =>
      {| g_status := g_status w; g_resultsFile := g_resultsFile w;
         g_filesProcessed := size_incr (g_filesProcessed w);
         opened := opened w |}
  | AScanned => with_status count_file w
  | AWrite block =>
      {| g_status := g_status w; g_resultsFile := g_resultsFile w ++ block;
         g_filesProcessed := g_filesProcessed w; opened := opened w |}
  end.

(** The updates that the worker loop and [searchInFile] make for
    [filePath], in program order.  The lines found depend on the content
    of the file only, not on the status that [scan_lines] threads through
    the loop. *)
Definition file_actions {regex : Type}
    (regex_compile : bool -> bytes -> option regex)
    (regex_search : regex -> bytes -> bool) (fs : path -> option bytes)
    (query : bytes) (use_regex : bool) (filePath : path)
  : list worker_action :=
  ASetCurrent filePath
    :: match fs filePath with
       | None => [ASetError (lit "Could not open: " ++ filePath)]
       | Some content =>
           AOpen filePath
             :: match prepare_matcher regex_compile query use_regex with
                | None => [ASetError (lit "Invalid regex: " ++ query)]
                | Some m =>
                    let found :=
                      matches (scan_lines regex_search m query
                                 (getlines content) status_init) in
                    repeat AHit (length found)
                      ++ [AProcessed; AScanned]
                      ++ match found with
                         | [] => []
                         | _ :: _ => [AWrite (format_block filePath found)]
                         end
                end
       end.

(** Where a worker is: in [pop] (waiting on [condConsumer] or about to
    test the predicate), busy with a path and the updates still to make, or
    out of its loop. *)
Inductive worker_state :=
| Popping (waiting : bool)
| Searching (filePath : path) (todo : list worker_action)
| Exited.

Record threads := mkThreads {
  t_queue : BoundedFileQueue;
  t_producer : list producer_action;
  t_producer_waiting : bool;
  t_workers : list worker_state;
  t_world : World
}.

(** What happens next: a thread takes its next critical section ([wakes]
    names the waiter a [notify_one] picks), or a waiting thread wakes up
    unprompted. *)
Inductive event :=
| Acts (t : thread) (wakes : nat)
| WakesSpuriously (t : thread).

Fixpoint set_worker (i : nat) (x : worker_state) (ws : list worker_state)
  : list worker_state :=
  match ws, i with
  | [], _ => []
  | _ :: ws', O => x :: ws'
  | w :: ws', S i' => w :: set_worker i' x ws'
  end.

Definition wake (w : worker_state) : worker_state :=
  match w with Popping true => Popping false | _ => w end.

Fixpoint wake_first (ws : list worker_state) : list worker_state :=
  match ws with
  | [] => []
  | Popping true :: ws' => Popping false :: ws'
  | w :: ws' => w :: wake_first ws'
  end.

(** [condConsumer_.notify_one()]: one waiting worker, if there is any,
    stops waiting; [k] is the one picked if it waits. *)
Definition notify_one_consumer (k : nat) (ws : list worker_state)
  : list worker_state :=
  match nth k ws Exited with
  | Popping true => set_worker k (Popping false) ws
  | _ => wake_first ws
  end.

(** [condConsumer_.notify_all()]. *)
Definition notify_all_consumers (ws : list worker_state)
  : list worker_state :=
  map wake ws.

Section Threads.

(** The updates a worker makes for a path. *)
Variable actions_of : path -> list worker_action.

(** The producer's next call. *)
Definition producer_acts (k : nat) (s : threads) : threads :=
  if t_producer_waiting s then s
  else
    match t_producer s with
    | [] => s
    | DoPush p :: rest =>
        match push p (t_queue s) with
        | None =>
            {| t_queue := t_queue s; t_producer := t_producer s;
               t_producer_waiting := true; t_workers := t_workers s;
               t_world := t_world s |}
        | Some q' =>
            {| t_queue := q'; t_producer := rest;
               t_producer_waiting := false;
               t_workers := if finished_ (t_queue s) then t_workers s
                            else notify_one_consumer k (t_workers s);
               t_world := t_world s |}
        end
    | DoSetLastError e :: rest =>
        {| t_queue := t_queue s; t_producer := rest;
           t_producer_waiting := false; t_workers := t_workers s;
           t_world := with_status (set_lastError e) (t_world s) |}
    | DoSetFinished :: rest =>
        {| t_queue := setFinished (t_queue s); t_producer := rest;
           t_producer_waiting := false;
           t_workers := notify_all_consumers (t_workers s);
           t_world := t_world s |}
    end.

(** The next critical section of worker [i]. *)
Definition worker_acts (i : nat) (s : threads) : threads :=
  match nth i (t_workers s) Exited with
  | Popping true => s
  | Popping false =>
      match pop (t_queue s) with
      | PopBlocked =>
          {| t_queue := t_queue s; t_producer := t_producer s;
             t_producer_waiting := t_producer_waiting s;
             t_workers := set_worker i (Popping true) (t_workers s);
             t_world := t_world s |}
      | PopFalse =>
          {| t_queue := t_queue s; t_producer := t_producer s;
             t_producer_waiting := t_producer_waiting s;
             t_workers := set_worker i Exited (t_workers s);
             t_world := t_world s |}
      | PopTrue filePath q' =>
          {| t_queue := q'; t_producer := t_producer s;
             t_producer_waiting := false;
             t_workers := set_worker i
                            (Searching filePath (actions_of filePath))
                            (t_workers s);
             t_world := t_world s |}
      end
  | Searching filePath [] =>
      {| t_queue := t_queue s; t_producer := t_producer s;
         t_producer_waiting := t_producer_waiting s;
         t_workers := set_worker i (Popping false) (t_workers s);
         t_world := t_world s |}
  | Searching filePath (a :: rest) =>
      {| t_queue := t_queue s; t_producer := t_producer s;
         t_producer_waiting := t_producer_waiting s;
         t_workers := set_worker i
                        (match rest with
                         | [] => Popping false
                         | _ :: _ => Searching filePath rest
                         end)
                        (t_workers s);
         t_world := apply_action a (t_world s) |}
  | Exited => s
  end.

Definition happens (s : threads) (ev : event) : threads :=
  match ev with
  | Acts Producer k => producer_acts k s
  | Acts (Worker i) _ => worker_acts i s
  | WakesSpuriously Producer =>
      {| t_queue := t_queue s; t_producer := t_producer s;
         t_producer_waiting := false; t_workers := t_workers s;
         t_world := t_world s |}
  | WakesSpuriously (Worker i) =>
      {| t_queue := t_queue s; t_producer := t_producer s;
         t_producer_waiting := t_producer_waiting s;
         t_workers := set_worker i (wake (nth i (t_workers s) Exited))
                        (t_workers s);
         t_world := t_world s |}
  end.

Definition unfold_events (events : list event) (s : threads) : threads :=
  fold_left happens events s.

(** The path whose search a step completes. *)
Definition completed_by (s : threads) (ev : event) : list path :=
  match ev with
  | Acts (Worker i) _ =>
      match nth i (t_workers s) Exited with
      | Searching filePath [] => [filePath]
      | Searching filePath [_] => [filePath]
      | _ => []
      end
  | _ => []
  end.

(** The paths whose search the events complete, in that order. *)
Fixpoint completed (events : list event) (s : threads) : list path :=
  match events with
  | [] => []
  | ev :: rest => completed_by s ev ++ completed rest (happens s ev)
  end.

End Threads.

(** The threads as [searchInDirectory] creates them. *)
Definition start_threads (todo : list producer_action) (numThreads : nat)
    (w : World) : threads :=
  {| t_queue := new_queue MAX_QUEUE_SIZE; t_producer := todo;
     t_producer_waiting := false;
     t_workers := repeat (Popping false) numThreads; t_world := w |}.

Definition is_exited (w : worker_state) : bool :=
  match w with Exited => true | _ => false end.

(** The producer and every worker have returned. *)
Definition threads_joined (s : threads) : bool :=
  match t_producer s with
  | [] => forallb is_exited (t_workers s)
  | _ :: _ => false
  end.

(** The worker is neither waiting nor out of its loop. *)
Definition worker_awake (w : worker_state) : bool :=
  match w with
  | Popping false => true
  | Searching _ _ => true
  | _ => false
  end.

Definition worker_waits (w : worker_state) : bool :=
  match w with Popping true => true | _ => false end.

(** The thread has work to do and does not wait. *)
Definition thread_awake (s : threads) (t : thread) : bool :=
  match t with
  | Producer =>
      negb (t_producer_waiting s)
      && match t_producer s with [] => false | _ :: _ => true end
  | Worker i => worker_awake (nth i (t_workers s) Exited)
  end.

Definition is_act (ev : event) : bool :=
  match ev with Acts _ _ => true | WakesSpuriously _ => false end.

(** The path a worker holds. *)
Definition held (w : worker_state) : list path :=
  match w with Searching p _ => [p] | _ => [] end.

Definition holding (ws : list worker_state) : list path :=
  flat_map held ws.

Definition is_write (a : worker_action) : bool :=
  match a with AWrite _ => true | _ => false end.

Definition is_scanned (a : worker_action) : bool :=
  match a with AScanned => true | _ => false end.

(** What a list of updates appends to the results file. *)
Definition writes (acts : list worker_action) : bytes :=
  flat_map (fun a => match a with AWrite b => b | _ => [] end) acts.

(** Only the last update of the list writes to the results file. *)
Fixpoint writes_last (acts : list worker_action) : bool :=
  match acts with
  | [] => true
  | a :: rest =>
      match rest with
      | [] => true
      | _ :: _ => negb (is_write a) && writes_last rest
      end
  end.

Definition sum_over {A : Type} (f : A -> nat) (l : list A) : nat :=
  fold_right (fun x n => f x + n) 0 l.

(** What holds of the threads at every moment: the queue has room for a
    path; there is a worker; the producer has not called [setFinished] and
    will as its last action, or has and has returned; a waiting producer
    found the queue full and unfinished; a worker has left only a drained
    queue; after [setFinished] no worker waits; and while a path is queued
    some worker is awake. *)
Definition threads_inv (s : threads) : Prop :=
  0 < maxSize_ (t_queue s)
  /\ t_workers s <> []
  /\ ((finished_ (t_queue s) = false
       /\ exists body,
            t_producer s = body ++ [DoSetFinished]
            /\ filter is_setFinished body = [])
      \/ (finished_ (t_queue s) = true /\ t_producer s = []))
  /\ (t_producer_waiting s = true ->
      finished_ (t_queue s) = false
      /\ maxSize_ (t_queue s) <= length (queue_ (t_queue s)))
  /\ (In Exited (t_workers s) -> drained (t_queue s))
  /\ (finished_ (t_queue s) = true ->
      existsb worker_waits (t_workers s) = false)
  /\ (queue_ (t_queue s) <> [] ->
      existsb worker_awake (t_workers s) = true).

(** The critical sections still to come. *)
Definition action_cost (actions_of : path -> list worker_action)
    (a : producer_action) : nat :=
  match a with
  | DoPush p => 3 + length (actions_of p)
  | _ => 1
  end.

Definition worker_cost (w : worker_state) : nat :=
  match w with
  | Popping _ => 1
  | Searching _ acts => 2 + length acts
  | Exited => 0
  end.

Definition steps_left (actions_of : path -> list worker_action)
    (s : threads) : nat :=
  sum_over (action_cost actions_of) (t_producer s)
    + sum_over (fun p => 2 + length (actions_of p)) (queue_ (t_queue s))
    + sum_over worker_cost (t_workers s).

(** The threads that do not wait. *)
Definition awake_count (s : threads) : nat :=
  (if t_producer_waiting s then 0 else 1)
    + sum_over (fun w => if worker_waits w then 0 else 1) (t_workers s).

(** A measure that every step of a thread that does not wait decreases. *)
Definition rank (actions_of : path -> list worker_action) (s : threads)
  : nat :=
  steps_left actions_of s * (2 + length (t_workers s)) + awake_count s.

(** The paths whose search has not ended: held by a worker, queued, or
    still to be pushed. *)
Definition unfinished (s : threads) : list path :=
  holding (t_workers s) ++ queue_ (t_queue s) ++ pushed (t_producer s).

(** The increments of [filesScanned] in a list of updates. *)
Definition scans (acts : list worker_action) : nat :=
  length (filter is_scanned acts).

Definition scans_held (w : worker_state) : nat :=
  match w with Searching _ acts => scans acts | _ => 0 end.

(** The increments of [filesScanned] still to come. *)
Definition scans_left (actions_of : path -> list worker_action)
    (s : threads) : nat :=
  sum_over scans_held (t_workers s)
    + sum_over (fun p => scans (actions_of p)) (queue_ (t_queue s))
    + sum_over (fun p => scans (actions_of p)) (pushed (t_producer s)).

(** A worker busy with a path has not yet written its block, and will as
    its last update. *)
Definition searching_ok (actions_of : path -> list worker_action)
    (s : threads) : Prop :=
  forall p acts,
    In (Searching p acts) (t_workers s) ->
    writes_last acts = true /\ writes acts = writes (actions_of p).

(** [searchInDirectory] observed after its threads have gone through
    [events], each event one critical section or one wake-up.
    [results_ok] tells whether [search_results.txt] can be opened. *)
Definition scan_threads {regex : Type}
    (regex_compile : bool -> bytes -> option regex)
    (regex_search : regex -> bytes -> bool)
    (regex_match : regex -> bytes -> bool) (fs : path -> option bytes)
    (query : bytes) (directory : path) (use_regex : bool)
    (filePattern : option bytes) (results_ok : bool)
    (hardware_concurrency : nat) (tree : walk) (events : list event)
    (w : World) : option threads :=
  if negb results_ok then None
  else
    match compile_filter regex_compile filePattern with
    | None => None
    | Some wildcardRegex =>
        Some (unfold_events
                (file_actions regex_compile regex_search fs query use_regex)
                events
                (start_threads
                   (producer regex_match wildcardRegex directory tree)
                   (Nat.max 1 hardware_concurrency) (truncate_results w)))
    end.

(** Two workers take turns, one critical section each. *)
Definition take_turns (n : nat) : list event :=
  concat (repeat [Acts (Worker 1) 0; Acts (Worker 0) 0] n).

(** * Properties *)

(** ** Escaping *)

Lemma escape_spec_hex (c : ascii) :
  keeps_byte c = false ->
  lit "\x" ++ repeat "0"%char (2 - length (digits 16 (N_of_ascii c)))
    ++ digits 16 (N_of_ascii c) = escape_spec c.
Proof.
  destruct c as [[] [] [] [] [] [] [] []]; vm_compute;
    first [ reflexivity | discriminate ].
Qed.

Lemma escape_spec_kept (c : ascii) :
  forallb keeps_byte (escape_spec c) = true.
Proof.
  destruct c as [[] [] [] [] [] [] [] []]; vm_compute; reflexivity.
Qed.

Lemma sanitize_step_spec (o : ostringstream) (c : ascii) :
  oss_ready o ->
  oss_ready (sanitize_step o c)
  /\ oss_buf (sanitize_step o c) = oss_buf o ++ escape_spec c.
Proof.
  intros [Hhex Hw]. unfold sanitize_step, escape_spec.
  destruct (keeps_byte c) eqn:Hk.
  - unfold put_char, put_field, oss_ready; simpl. rewrite Hw. auto.
  - pose proof (escape_spec_hex c Hk) as Hesc.
    unfold escape_spec in Hesc; rewrite Hk in Hesc.
    unfold put_int, put_str, put_field, setfill, setw, oss_ready; simpl.
    rewrite Hhex, Hw; simpl. split; [auto|].
    rewrite <- Hesc, <- app_assoc. reflexivity.
Qed.

Lemma sanitize_fold (line : bytes) (o : ostringstream) :
  oss_ready o ->
  oss_buf (fold_left sanitize_step line o)
  = oss_buf o ++ flat_map escape_spec line.
Proof.
  revert o. induction line as [|c line IH]; intros o Ho; simpl.
  - now rewrite app_nil_r.
  - destruct (sanitize_step_spec o c Ho) as [Ho' Hbuf].
    rewrite (IH _ Ho'), Hbuf, <- app_assoc. reflexivity.
Qed.

Lemma sanitizeLine_flat_map (line : bytes) :
  sanitizeLine line = flat_map escape_spec line.
Proof.
  unfold sanitizeLine. rewrite sanitize_fold; [reflexivity|].
  split; reflexivity.
Qed.

Lemma sanitizeLine_app (a b : bytes) :
  sanitizeLine (a ++ b) = sanitizeLine a ++ sanitizeLine b.
Proof.
  rewrite !sanitizeLine_flat_map. apply flat_map_app.
Qed.

Lemma sanitizeLine_kept (line : bytes) :
  forallb keeps_byte (sanitizeLine line) = true.
Proof.
  rewrite sanitizeLine_flat_map.
  induction line as [|c line IH]; simpl; [reflexivity|].
  rewrite forallb_app, escape_spec_kept, IH. reflexivity.
Qed.

Lemma kept_has_no (b : ascii) (s : bytes) :
  keeps_byte b = false -> forallb keeps_byte s = true ->
  existsb (Ascii.eqb b) s = false.
Proof.
  intros Hb. induction s as [|c s IH]; simpl; [reflexivity|].
  intros H. apply andb_true_iff in H as [Hc Hs].
  rewrite (IH Hs), orb_false_r.
  destruct (Ascii.eqb b c) eqn:E; [|reflexivity].
  apply Ascii.eqb_eq in E. congruence.
Qed.


(** ** The bounded queue *)

Lemma push_cases (p : path) (q : BoundedFileQueue) :
  (push p q = None
   /\ maxSize_ q <= length (queue_ q) /\ finished_ q = false)
  \/ (push p q = Some q /\ finished_ q = true)
  \/ (push p q = Some {| queue_ := queue_ q ++ [p];
                         maxSize_ := maxSize_ q;
                         finished_ := finished_ q |}
      /\ length (queue_ q) < maxSize_ q /\ finished_ q = false).
Proof.
  unfold push.
  destruct (finished_ q) eqn:Hf.
  - right; left. rewrite orb_true_r. auto.
  - rewrite orb_false_r.
    destruct (length (queue_ q) <? maxSize_ q) eqn:Hlt.
    + right; right. apply Nat.ltb_lt in Hlt. auto.
    + left. apply Nat.ltb_ge in Hlt. auto.
Qed.

Lemma exec_op_maxSize (q : BoundedFileQueue) (op : queue_op) :
  maxSize_ (exec_op q op) = maxSize_ q.
Proof.
  destruct op as [p| |]; simpl; [| |reflexivity].
  - destruct (push_cases p q) as [[-> _]|[[-> _]|[-> _]]]; reflexivity.
  - unfold pop. destruct (negb (empty q) || finished_ q); [|reflexivity].
    destruct (queue_ q); reflexivity.
Qed.

Lemma exec_op_within (q : BoundedFileQueue) (op : queue_op) :
  within_capacity q -> within_capacity (exec_op q op).
Proof.
  unfold within_capacity. intros H.
  destruct op as [p| |]; simpl; [| |exact H].
  - destruct (push_cases p q) as [[-> _]|[[-> _]|[-> [Hlt _]]]];
      simpl; try exact H.
    rewrite length_app; simpl. lia.
  - unfold pop. destruct (negb (empty q) || finished_ q); [|exact H].
    destruct (queue_ q) as [|x rest] eqn:Hq; simpl.
    + rewrite Hq; simpl. lia.
    + simpl in H. lia.
Qed.

Lemma run_ops_within (ops : list queue_op) (q : BoundedFileQueue) :
  within_capacity q -> within_capacity (run_ops ops q).
Proof.
  revert q. induction ops as [|op ops IH]; intros q H; simpl; [exact H|].
  apply IH, exec_op_within, H.
Qed.

Lemma run_ops_maxSize (ops : list queue_op) (q : BoundedFileQueue) :
  maxSize_ (run_ops ops q) = maxSize_ q.
Proof.
  revert q. induction ops as [|op ops IH]; intros q; simpl; [reflexivity|].
  unfold run_ops in IH. rewrite IH. apply exec_op_maxSize.
Qed.

Lemma pop_drained (q : BoundedFileQueue) : drained q -> pop q = PopFalse.
Proof.
  intros [Hq Hf]. unfold pop, empty. rewrite Hq, Hf. reflexivity.
Qed.

Lemma exec_op_drained (q : BoundedFileQueue) (op : queue_op) :
  drained q -> drained (exec_op q op).
Proof.
  intros H. pose proof H as [Hq Hf].
  destruct op as [p| |]; simpl.
  - unfold push. rewrite Hf, orb_true_r. exact H.
  - rewrite (pop_drained q H). exact H.
  - split; [exact Hq | reflexivity].
Qed.

Lemma run_ops_drained (ops : list queue_op) (q : BoundedFileQueue) :
  drained q -> drained (run_ops ops q).
Proof.
  revert q. induction ops as [|op ops IH]; intros q H; simpl; [exact H|].
  apply IH, exec_op_drained, H.
Qed.

Lemma run_pushes (xs : list path) (q : BoundedFileQueue) :
  finished_ q = false ->
  length (queue_ q) + length xs <= maxSize_ q ->
  run_ops (map OpPush xs) q
  = {| queue_ := queue_ q ++ xs; maxSize_ := maxSize_ q;
       finished_ := false |}.
Proof.
  revert q. induction xs as [|x xs IH]; intros q Hf Hlen; simpl.
  - rewrite app_nil_r. destruct q; simpl in *. now subst.
  - simpl in Hlen.
    destruct (push_cases x q) as [[_ [Hge _]]|[[_ Ht]|[-> _]]];
      [lia | congruence |].
    unfold run_ops in IH. rewrite IH; simpl.
    + rewrite <- app_assoc. reflexivity.
    + exact Hf.
    + rewrite length_app; simpl. lia.
Qed.

(** C3: whatever calls of [push], [pop] and [setFinished] are made on a
    queue of capacity [C], in whatever order, it holds between 0 and [C]
    paths.  A [push] on a queue that holds [maxSize_] paths inserts
    nothing (it waits, or drops the path once finished), and a [pop] on an
    empty queue removes nothing (it waits or returns false). *)
Theorem queue_length_within_capacity
    (C : nat) (ops : list queue_op) (q : BoundedFileQueue) (p : path) :
  (0 <= length (queue_ (run_ops ops (new_queue C))) <= C)
  /\ (length (queue_ q) = maxSize_ q ->
      (push p q = None \/ push p q = Some q)
      /\ queue_ (exec_op q (OpPush p)) = queue_ q)
  /\ (queue_ q = [] ->
      (pop q = PopBlocked \/ pop q = PopFalse)
      /\ queue_ (exec_op q OpPop) = []).
Proof.
  split; [|split].
  - pose proof (run_ops_within ops (new_queue C)) as H.
    unfold within_capacity in H. rewrite run_ops_maxSize in H.
    simpl in H. lia.
  - intros Hfull. simpl.
    destruct (push_cases p q) as [[-> _]|[[-> _]|[_ [Hlt _]]]];
      [auto | auto | lia].
  - intros Hempty. simpl. unfold pop, empty. rewrite Hempty.
    destruct (finished_ q); simpl; auto.
Qed.

Lemma queue_length_within_capacity_witness :
  let q := {| queue_ := [lit "a"]; maxSize_ := 1; finished_ := false |} in
  let e := {| queue_ := []; maxSize_ := 1; finished_ := true |} in
  length (queue_ (run_ops [OpPush (lit "a"); OpPush (lit "b"); OpPop;
                           OpSetFinished; OpPush (lit "c"); OpPop]
                    (new_queue 1))) <= 1
  /\ length (queue_ q) = maxSize_ q
  /\ queue_ (exec_op q (OpPush (lit "b"))) = queue_ q
  /\ queue_ e = []
  /\ queue_ (exec_op e OpPop) = [].
Proof.
  intros q e.
  destruct (queue_length_within_capacity 1
              [OpPush (lit "a"); OpPush (lit "b"); OpPop;
               OpSetFinished; OpPush (lit "c"); OpPop] q (lit "b"))
    as [[_ Hle] [Hpush _]].
  destruct (queue_length_within_capacity 0 [] e []) as [_ [_ Hpop]].
  split; [exact Hle|].
  split; [reflexivity|].
  split; [exact (proj2 (Hpush eq_refl))|].
  split; [reflexivity|].
  exact (proj2 (Hpop eq_refl)).
Defined.

(** C4: [pop] waits while the queue is empty and not finished; on a
    non-empty queue it removes and returns the oldest path, paths leaving
    in the order in which [push] queued them; on an empty, finished queue
    it returns false, and so does every [pop] after any further calls. *)
Theorem pop_blocks_returns_head_or_ends
    (q : BoundedFileQueue) (p : path) (rest : list path)
    (xs : list path) (C : nat) (later : list queue_op) :
  (queue_ q = [] -> finished_ q = false -> pop q = PopBlocked)
  /\ (queue_ q = p :: rest ->
      pop q = PopTrue p {| queue_ := rest; maxSize_ := maxSize_ q;
                           finished_ := finished_ q |})
  /\ (length xs <= C -> queue_ (run_ops (map OpPush xs) (new_queue C)) = xs)
  /\ (queue_ q = [] -> finished_ q = true ->
      pop q = PopFalse
      /\ exec_op q OpPop = q
      /\ pop (run_ops later q) = PopFalse).
Proof.
  split; [|split; [|split]].
  - intros Hq Hf. unfold pop, empty. rewrite Hq, Hf. reflexivity.
  - intros Hq. unfold pop, empty. rewrite Hq. reflexivity.
  - intros Hlen. rewrite run_pushes; simpl; auto.
  - intros Hq Hf. assert (Hd : drained q) by (split; assumption).
    split; [apply pop_drained, Hd|].
    split.
    + simpl. rewrite (pop_drained q Hd). reflexivity.
    + apply pop_drained, run_ops_drained, Hd.
Qed.

Lemma pop_blocks_returns_head_or_ends_witness :
  let waiting := new_queue 2 in
  let loaded := {| queue_ := [lit "a"; lit "b"]; maxSize_ := 2;
                   finished_ := false |} in
  let done := setFinished (new_queue 2) in
  pop waiting = PopBlocked
  /\ pop loaded = PopTrue (lit "a") {| queue_ := [lit "b"]; maxSize_ := 2;
                                       finished_ := false |}
  /\ queue_ (run_ops (map OpPush [lit "a"; lit "b"]) (new_queue 2))
     = [lit "a"; lit "b"]
  /\ pop done = PopFalse
  /\ pop (run_ops [OpPop; OpPush (lit "c"); OpSetFinished] done) = PopFalse.
Proof.
  intros waiting loaded done.
  destruct (pop_blocks_returns_head_or_ends waiting [] []
              [lit "a"; lit "b"] 2 []) as [Hwait [_ [Hfifo _]]].
  destruct (pop_blocks_returns_head_or_ends loaded (lit "a") [lit "b"]
              [] 0 []) as [_ [Hhead _]].
  destruct (pop_blocks_returns_head_or_ends done [] [] [] 0
              [OpPop; OpPush (lit "c"); OpSetFinished]) as [_ [_ [_ Hend]]].
  split; [exact (Hwait eq_refl eq_refl)|].
  split; [exact (Hhead eq_refl)|].
  split; [apply Hfifo; simpl; lia|].
  destruct (Hend eq_refl eq_refl) as [H1 [_ H3]].
  split; [exact H1 | exact H3].
Defined.

(** ** Snippets *)

Lemma firstn_length_app {A : Type} (a b : list A) :
  firstn (length a) (a ++ b) = a.
Proof.
  induction a as [|x a IH]; simpl; [now destruct b|]. now rewrite IH.
Qed.

Lemma skipn_length_app {A : Type} (a b : list A) :
  skipn (length a) (a ++ b) = b.
Proof.
  induction a as [|x a IH]; simpl; [reflexivity | exact IH].
Qed.

Lemma starts_with_split (q s : bytes) :
  starts_with q s = true -> s = q ++ skipn (length q) s.
Proof.
  revert s. induction q as [|a q IH]; intros s H; simpl; [reflexivity|].
  destruct s as [|b s]; simpl in H; [discriminate|].
  apply andb_true_iff in H as [Hab Hq].
  apply Ascii.eqb_eq in Hab. subst b. simpl. f_equal. apply IH, Hq.
Qed.

Lemma find_from_split (i : nat) (s q : bytes) (n : nat) :
  find_from i s q = Some n ->
  exists pre, s = pre ++ q ++ skipn (length pre + length q) s
              /\ n = i + length pre.
Proof.
  revert i. induction s as [|c s IH]; intros i; simpl.
  - destruct (starts_with q []) eqn:Hs; [|discriminate].
    intros [= <-]. exists []. split; [|simpl; lia].
    simpl. apply (starts_with_split q [] Hs).
  - destruct (starts_with q (c :: s)) eqn:Hs.
    + intros [= <-]. exists []. split; [|simpl; lia].
      simpl. apply (starts_with_split q (c :: s) Hs).
    + intros H. destruct (IH _ H) as [pre [Hsplit ->]].
      exists (c :: pre). split; [|simpl; lia].
      simpl. f_equal. exact Hsplit.
Qed.

(** Where [find] reports a position, the line reads prefix, query,
    suffix there. *)
Lemma find_split (line query : bytes) (pos : nat) :
  find line query = Some pos ->
  exists pre suf, line = pre ++ query ++ suf /\ length pre = pos.
Proof.
  intros H. destruct (find_from_split 0 line query pos H) as [pre [Hs ->]].
  exists pre, (skipn (length pre + length query) line). split; [exact Hs|].
  reflexivity.
Qed.

(** The formatter on a line cut as: dropped head [A], left margin [L],
    match, right margin [R], dropped tail [B]. *)
Lemma highlight_window (A L q R B : bytes) :
  find (A ++ L ++ q ++ R ++ B) q = Some (length A + length L) ->
  length L = 90 -> length R = 90 -> A <> [] -> B <> [] ->
  truncateAndHighlightMatch (A ++ L ++ q ++ R ++ B) q 180
  = lit "... " ++ L ++ COLOR_RED ++ q ++ COLOR_RESET ++ R ++ lit " ...".
Proof.
  intros Hfind HL HR HA HB.
  assert (0 < length A) by (destruct A; [congruence | simpl; lia]).
  assert (0 < length B) by (destruct B; [congruence | simpl; lia]).
  unfold truncateAndHighlightMatch. rewrite Hfind.
  change (180 / 2) with 90. cbv zeta.
  assert (Hlen : length (A ++ L ++ q ++ R ++ B)
                 = length A + (90 + (length q + (90 + length B)))).
  { rewrite !length_app. lia. }
  rewrite Hlen, HL.
  replace (90 <? length A + 90) with true by (symmetry; apply Nat.ltb_lt; lia).
  replace (length A + (90 + (length q + (90 + length B)))
           <? length A + 90 + length q + 90) with false
    by (symmetry; apply Nat.ltb_ge; lia).
  replace (length A + 90 - 90) with (length A) by lia.
  replace (0 <? length A) with true by (symmetry; apply Nat.ltb_lt; lia).
  replace (length A + 90 + length q + 90
           <? length A + (90 + (length q + (90 + length B)))) with true
    by (symmetry; apply Nat.ltb_lt; lia).
  replace (length A + 90 + length q + 90 - length A)
    with (length (L ++ q ++ R)) by (rewrite !length_app; lia).
  replace (length A + 90 - length A) with (length L) by lia.
  unfold substr. rewrite skipn_length_app.
  replace (L ++ q ++ R ++ B) with ((L ++ q ++ R) ++ B)
    by (rewrite <- !app_assoc; reflexivity).
  rewrite firstn_length_app.
  unfold insert at 2.
  replace (length L + length q) with (length (L ++ q))
    by (rewrite length_app; reflexivity).
  replace (L ++ q ++ R) with ((L ++ q) ++ R)
    by (rewrite <- app_assoc; reflexivity).
  rewrite firstn_length_app, skipn_length_app.
  unfold insert. rewrite <- !app_assoc.
  rewrite firstn_length_app, skipn_length_app.
  rewrite <- !app_assoc. reflexivity.
Qed.

Lemma sanitize_lit_red : sanitizeLine COLOR_RED = lit "\x1b[31m".
Proof. reflexivity. Qed.

Lemma sanitize_lit_reset : sanitizeLine COLOR_RESET = lit "\x1b[0m".
Proof. reflexivity. Qed.

(** C7 (as amended): in substring mode, on a line in which more than 90
    characters come before the first occurrence of the query and more than
    90 after it, the stored snippet is the marker ["... "], the 90
    characters before the match, the start marker, the match, the end
    marker, the 90 characters after it and the marker [" ..."]; the
    text, the margins and the escape byte of the two colour codes are
    escaped by [sanitizeLine]. *)
Theorem snippet_window_around_match (line query : bytes) (pos : nat) :
  find line query = Some pos ->
  90 < pos ->
  pos + length query + 90 < length line ->
  let left := substr line (pos - 90) 90 in
  let right := substr line (pos + length query) 90 in
  substr line pos (length query) = query
  /\ length left = 90
  /\ length right = 90
  /\ truncateAndHighlightMatch line query 180
     = lit "... " ++ left ++ COLOR_RED ++ query ++ COLOR_RESET ++ right
         ++ lit " ..."
  /\ reported_snippet line query
     = lit "... " ++ sanitizeLine left ++ lit "\x1b[31m"
         ++ sanitizeLine query ++ lit "\x1b[0m" ++ sanitizeLine right
         ++ lit " ...".
Proof.
  intros Hfind Hpos Hend left right.
  destruct (find_split line query pos Hfind) as [pre [suf [Hline Hpre]]].
  assert (Hsuf : 90 < length suf).
  { rewrite Hline, !length_app in Hend. lia. }
  pose (A := firstn (pos - 90) pre). pose (L := skipn (pos - 90) pre).
  pose (R := firstn 90 suf). pose (B := skipn 90 suf).
  assert (HA : length A = pos - 90) by (unfold A; rewrite length_firstn; lia).
  assert (HL : length L = 90) by (unfold L; rewrite length_skipn; lia).
  assert (HR : length R = 90) by (unfold R; rewrite length_firstn; lia).
  assert (HB : 0 < length B) by (unfold B; rewrite length_skipn; lia).
  assert (Hcut : line = A ++ L ++ query ++ R ++ B).
  { rewrite Hline. unfold A, L, R, B.
    rewrite <- (firstn_skipn (pos - 90) pre) at 1.
    rewrite <- (firstn_skipn 90 suf) at 1.
    rewrite <- !app_assoc. reflexivity. }
  assert (Hleft : left = L).
  { unfold left, substr. rewrite Hcut, <- HA, skipn_length_app.
    rewrite <- HL. apply firstn_length_app. }
  assert (Hright : right = R).
  { unfold right, substr.
    replace (pos + length query) with (length (A ++ L ++ query))
      by (rewrite !length_app; lia).
    rewrite Hcut.
    replace (A ++ L ++ query ++ R ++ B) with ((A ++ L ++ query) ++ R ++ B)
      by (rewrite <- !app_assoc; reflexivity).
    rewrite skipn_length_app, <- HR. apply firstn_length_app. }
  assert (Hwin : truncateAndHighlightMatch line query 180
                 = lit "... " ++ L ++ COLOR_RED ++ query ++ COLOR_RESET
                     ++ R ++ lit " ...").
  { rewrite Hcut. apply highlight_window; auto.
    - rewrite <- Hcut, Hfind. f_equal. lia.
    - intros E. rewrite E in HA. simpl in HA. lia.
    - intros E. rewrite E in HB. simpl in HB. lia. }
  split.
  { unfold substr. rewrite Hline, <- Hpre, skipn_length_app.
    apply firstn_length_app. }
  split; [rewrite Hleft; exact HL|].
  split; [rewrite Hright; exact HR|].
  split; [rewrite Hleft, Hright; exact Hwin|].
  unfold reported_snippet. rewrite Hwin, Hleft, Hright.
  rewrite !sanitizeLine_app, sanitize_lit_red, sanitize_lit_reset.
  reflexivity.
Qed.

Lemma snippet_window_around_match_witness :
  let line := repeat "a"%char 100 ++ lit "needle" ++ repeat "b"%char 100 in
  find line (lit "needle") = Some 100
  /\ reported_snippet line (lit "needle")
     = lit "... " ++ repeat "a"%char 90 ++ lit "\x1b[31mneedle\x1b[0m"
         ++ repeat "b"%char 90 ++ lit " ...".
Proof.
  intros line.
  assert (Hf : find line (lit "needle") = Some 100) by (vm_compute; reflexivity).
  split; [exact Hf|].
  destruct (snippet_window_around_match line (lit "needle") 100 Hf)
    as [_ [_ [_ [_ H]]]].
  - lia.
  - vm_compute. lia.
  - rewrite H. vm_compute. reflexivity.
Defined.

(** C7 as stated fails on a line of 181 characters whose middle character
    is the match: nothing is cut and no truncation marker is added. *)
Lemma centred_match_in_181_chars_not_truncated :
  let line := repeat "a"%char 90 ++ lit "X" ++ repeat "a"%char 90 in
  let query := lit "X" in
  length line = 181
  /\ find line query = Some 90
  /\ reported_snippet line query
     = repeat "a"%char 90 ++ lit "\x1b[31mX\x1b[0m" ++ repeat "a"%char 90
  /\ starts_with (lit "... ") (reported_snippet line query) = false
  /\ ends_with (lit " ...") (reported_snippet line query) = false.
Proof.
  vm_compute. repeat split; reflexivity.
Qed.

(** ** The per-file search *)

Lemma size_incr_small (n : N) :
  (n + 1 < SIZE_MAX_plus_1)%N -> size_incr n = (n + 1)%N.
Proof.
  intros H. unfold size_incr. apply N.mod_small, H.
Qed.

Lemma read_lines_length (cur : option bytes) (content : bytes) :
  length (read_lines cur content)
  <= length content + match cur with Some _ => 1 | None => 0 end.
Proof.
  revert cur. induction content as [|c rest IH]; intros cur; simpl.
  - destruct cur; simpl; lia.
  - destruct (Ascii.eqb c LF); simpl.
    + specialize (IH None). simpl in IH. destruct cur; lia.
    + specialize (IH (Some (match cur with
                            | Some l => l
                            | None => []
                            end ++ [c]))).
      simpl in IH. destruct cur; lia.
Qed.

Lemma getlines_length (content : bytes) :
  length (getlines content) <= length content.
Proof.
  unfold getlines. pose proof (read_lines_length None content) as H.
  simpl in H. lia.
Qed.

Lemma number_from_sorted (P : N * bytes -> bool) (lines : list bytes) (k : N) :
  Forall (fun kl => (k <= fst kl)%N) (filter P (number_from k lines))
  /\ StronglySorted N.lt (map fst (filter P (number_from k lines))).
Proof.
  revert k. induction lines as [|l ls IH]; intros k; simpl.
  - split; constructor.
  - destruct (IH (k + 1)%N) as [Hge Hsorted].
    assert (Hge' : Forall (fun kl => (k < fst kl)%N)
                     (filter P (number_from (k + 1) ls))).
    { eapply Forall_impl; [|exact Hge]. simpl. intros; lia. }
    destruct (P (k, l)); simpl.
    + split.
      * constructor; [simpl; lia|].
        eapply Forall_impl; [|exact Hge']. simpl. intros; lia.
      * constructor; [exact Hsorted|].
        apply Forall_map. exact Hge'.
    + split; [|exact Hsorted].
      eapply Forall_impl; [|exact Hge']. simpl. intros; lia.
Qed.

Section ScanFacts.

Variable regex : Type.
Variable regex_compile : bool -> bytes -> option regex.
Variable regex_search : regex -> bytes -> bool.
Variable regex_match : regex -> bytes -> bool.
Variable fs : path -> option bytes.

Lemma scan_fold (m : matcher regex) (query : bytes) (lines : list bytes)
    (s : scan_state) :
  (next_line s + N.of_nat (length lines) <= SIZE_MAX_plus_1)%N ->
  matches (fold_left (scan_line regex_search m query) lines s)
  = matches s
      ++ map (match_of query)
           (filter (fun kl => line_found regex_search m query (snd kl))
              (number_from (next_line s) lines)).
Proof.
  revert s. induction lines as [|l ls IH]; intros s Hfit.
  - simpl. now rewrite app_nil_r.
  - cbn [fold_left number_from filter].
    destruct ls as [|l' ls'].
    + cbn [fold_left number_from filter map app].
      unfold scan_line. cbn [snd].
      destruct (line_found regex_search m query l);
        cbn [matches map]; [reflexivity | now rewrite app_nil_r].
    + assert (Hnext : size_incr (next_line s) = (next_line s + 1)%N).
      { apply size_incr_small. cbn [length] in Hfit. lia. }
      set (s' := scan_line regex_search m query s l).
      assert (Hn : next_line s' = (next_line s + 1)%N).
      { unfold s', scan_line.
        destruct (line_found regex_search m query l); exact Hnext. }
      rewrite IH; [|rewrite Hn; cbn [length] in Hfit |- *; lia].
      rewrite Hn. unfold s', scan_line. cbn [snd].
      destruct (line_found regex_search m query l); cbn [matches map];
        [rewrite <- app_assoc|]; reflexivity.
Qed.

Lemma scan_lines_matches (m : matcher regex) (query : bytes)
    (content : bytes) (st : StatusData) :
  (N.of_nat (length content) < SIZE_MAX_plus_1)%N ->
  matches (scan_lines regex_search m query (getlines content) st)
  = map (match_of query) (hit_lines regex_search m query (getlines content)).
Proof.
  intros Hsize. unfold scan_lines, hit_lines.
  rewrite scan_fold; [reflexivity|].
  cbn [next_line]. pose proof (getlines_length content). lia.
Qed.

(** C10: in regex mode the formatter still looks for the query text.  On
    a line that the regex accepts and that does not contain the query, it
    inserts no marker: the stored snippet is the escaped line, or, past
    180 characters, its escaped first 180 characters followed by
    ["...(truncated)"]. *)
Theorem regex_hit_without_query_text
    (r : regex) (query line : bytes) (s : scan_state) :
  regex_search r line = true ->
  find line query = None ->
  truncateAndHighlightMatch line query 180
  = (if 180 <? length line
     then firstn 180 line ++ lit "...(truncated)" else line)
  /\ reported_snippet line query
     = (if 180 <? length line
        then sanitizeLine (firstn 180 line) ++ lit "...(truncated)"
        else sanitizeLine line)
  /\ matches (scan_line regex_search (Pattern r) query s line)
     = matches s ++ [{| lineNumber := next_line s;
                        text := reported_snippet line query |}].
Proof.
  intros Hre Hfind.
  assert (Hfmt : truncateAndHighlightMatch line query 180
                 = (if 180 <? length line
                    then firstn 180 line ++ lit "...(truncated)" else line)).
  { unfold truncateAndHighlightMatch. rewrite Hfind. reflexivity. }
  split; [exact Hfmt|]. split.
  - unfold reported_snippet. rewrite Hfmt.
    destruct (180 <? length line); [|reflexivity].
    rewrite sanitizeLine_app. reflexivity.
  - unfold scan_line, line_found. rewrite Hre. reflexivity.
Qed.

End ScanFacts.

Lemma regex_hit_without_query_text_witness :
  let query := lit "a.c" in
  let line := lit "abc" ++ repeat "z"%char 200 in
  let s := {| next_line := 1; matches := []; scan_status := status_init |} in
  Ecma.compile false query
  = Some {| Ecma.icase := false;
            Ecma.nodes := [Ecma.One (Ecma.Char "a"); Ecma.One Ecma.AnyChar;
                           Ecma.One (Ecma.Char "c")] |}
  /\ find line query = None
  /\ matches (scan_line Ecma.regex_search
                (Pattern {| Ecma.icase := false;
                            Ecma.nodes := [Ecma.One (Ecma.Char "a");
                                           Ecma.One Ecma.AnyChar;
                                           Ecma.One (Ecma.Char "c")] |})
                query s line)
     = [{| lineNumber := 1;
           text := lit "abc" ++ repeat "z"%char 177 ++ lit "...(truncated)" |}].
Proof.
  intros query line s.
  split; [reflexivity|]. split; [reflexivity|].
  destruct (regex_hit_without_query_text Ecma.regex Ecma.regex_search
              {| Ecma.icase := false;
                 Ecma.nodes := [Ecma.One (Ecma.Char "a");
                                Ecma.One Ecma.AnyChar;
                                Ecma.One (Ecma.Char "c")] |}
              query line s) as [_ [Hsnip Hrec]].
  - vm_compute. reflexivity.
  - vm_compute. reflexivity.
  - rewrite Hrec, Hsnip. vm_compute. reflexivity.
Defined.

Lemma flat_map_map {A B C : Type} (g : A -> B) (f : B -> list C)
    (l : list A) :
  flat_map f (map g l) = flat_map (fun x => f (g x)) l.
Proof.
  induction l as [|x l IH]; simpl; [reflexivity | now rewrite IH].
Qed.

Section SearchFacts.

Variable regex : Type.
Variable regex_compile : bool -> bytes -> option regex.
Variable regex_search : regex -> bytes -> bool.
Variable regex_match : regex -> bytes -> bool.
Variable fs : path -> option bytes.

Lemma scan_fold_filesScanned (m : matcher regex) (query : bytes)
    (lines : list bytes) (s : scan_state) :
  filesScanned (scan_status (fold_left (scan_line regex_search m query) lines s))
  = filesScanned (scan_status s).
Proof.
  revert s. induction lines as [|l ls IH]; intros s; simpl; [reflexivity|].
  rewrite IH. unfold scan_line.
  destruct (line_found regex_search m query l); reflexivity.
Qed.

(** C9: a file that opens and has matched lines adds one block to the
    results: the header with the path and the number of matched lines, one
    line per matched line with its number and snippet, and an empty line.
    The numbers in a block increase strictly, and no snippet holds a line
    feed, so each match takes one line.  A file without a matched line
    adds nothing. *)
Theorem one_block_per_file_with_hits
    (filePath query content : bytes) (use_regex : bool)
    (m : matcher regex) (w : World) :
  fs filePath = Some content ->
  prepare_matcher regex_compile query use_regex = Some m ->
  (N.of_nat (length content) < SIZE_MAX_plus_1)%N ->
  let hits := hit_lines regex_search m query (getlines content) in
  g_resultsFile
    (searchInFile regex_compile regex_search fs filePath query use_regex w)
  = g_resultsFile w
      ++ match hits with
         | [] => []
         | _ :: _ =>
             lit "Matches in file: " ++ filePath ++ lit " ("
               ++ dec (N.of_nat (length hits)) ++ lit " hits)" ++ [LF]
               ++ flat_map
                    (fun kl => lit "    Line " ++ dec (fst kl) ++ lit ": "
                                 ++ reported_snippet (snd kl) query ++ [LF])
                    hits
               ++ [LF]
         end
  /\ StronglySorted N.lt (map fst hits)
  /\ Forall (fun kl => existsb (Ascii.eqb LF)
                         (reported_snippet (snd kl) query) = false) hits.
Proof.
  intros Hfs Hm Hsize hits. split.
  - unfold searchInFile. rewrite Hfs, Hm. cbn [g_resultsFile].
    rewrite scan_lines_matches by exact Hsize. fold hits.
    destruct hits as [|h hs] eqn:Hh.
    + cbn [map log_open g_resultsFile]. now rewrite app_nil_r.
    + cbn [map]. change (match_of query h :: map (match_of query) hs)
        with (map (match_of query) (h :: hs)).
      cbn [log_open g_resultsFile]. unfold format_block.
      rewrite length_map, flat_map_map. reflexivity.
  - split; [apply number_from_sorted|].
    apply Forall_forall. intros kl _. unfold reported_snippet.
    apply kept_has_no; [reflexivity | apply sanitizeLine_kept].
Qed.

(** C2 (as amended): a file that cannot be opened leaves its message in
    [lastError] and nothing else: no match is counted, nothing is written
    and [filesScanned] keeps its value.  The counter moves only for a file
    that was opened and read to its end. *)
Theorem unopened_file_recorded_not_counted
    (filePath query : bytes) (use_regex : bool) (w : World)
    (readable content : bytes) (m : matcher regex) :
  fs filePath = None ->
  let w' := searchInFile regex_compile regex_search fs
              filePath query use_regex w in
  lastError (g_status w') = lit "Could not open: " ++ filePath
  /\ g_resultsFile w' = g_resultsFile w
  /\ totalHits (g_status w') = totalHits (g_status w)
  /\ fileHits (g_status w') = fileHits (g_status w)
  /\ filesScanned (g_status w') = filesScanned (g_status w)
  /\ g_filesProcessed w' = g_filesProcessed w
  /\ opened w' = opened w
  /\ (fs readable = Some content ->
      prepare_matcher regex_compile query use_regex = Some m ->
      filesScanned
        (g_status (searchInFile regex_compile regex_search fs
                     readable query use_regex w))
      = size_incr (filesScanned (g_status w))).
Proof.
  intros Hfs w'. unfold w', searchInFile. rewrite Hfs.
  repeat (split; [reflexivity|]).
  intros Hr Hm. rewrite Hr, Hm. cbn [g_status count_file filesScanned].
  unfold scan_lines. rewrite scan_fold_filesScanned. reflexivity.
Qed.

Lemma bad_regex_search (query filePath : bytes) (w : World) :
  regex_compile false query = None ->
  searchInFile regex_compile regex_search fs filePath query true w
  = match fs filePath with
    | Some _ =>
        with_status (set_lastError (lit "Invalid regex: " ++ query))
          (log_open filePath w)
    | None =>
        with_status (set_lastError (lit "Could not open: " ++ filePath)) w
    end.
Proof.
  intros Hbad. unfold searchInFile, prepare_matcher. rewrite Hbad.
  destruct (fs filePath); reflexivity.
Qed.

Lemma bad_regex_step (query : bytes) (w0 : World) (s : system) (t : thread) :
  regex_compile false query = None ->
  untouched w0 (world s) ->
  untouched w0 (world (step regex_compile regex_search fs query true s t)).
Proof.
  intros Hbad Hs. destruct t as [|i]; simpl.
  - unfold producer_step.
    destruct (producer_todo s) as [|[p|e|] rest]; try exact Hs.
    destruct (push p (fileQueue s)); exact Hs.
  - unfold worker_step.
    destruct (nth i (workers s) false); [|exact Hs].
    destruct (pop (fileQueue s)) as [| |p q']; try exact Hs.
    cbn [world]. rewrite bad_regex_search by exact Hbad.
    destruct (fs p); exact Hs.
Qed.

Lemma bad_regex_run (query : bytes) (w0 : World) (schedule : list thread)
    (s : system) :
  regex_compile false query = None ->
  untouched w0 (world s) ->
  untouched w0 (world (run regex_compile regex_search fs query true schedule s)).
Proof.
  intros Hbad. revert s.
  induction schedule as [|t ts IH]; intros s Hs; simpl; [exact Hs|].
  apply IH, bad_regex_step; assumption.
Qed.

(** C1 (as amended): when the pattern does not compile in regex mode,
    nothing is written to the results and no file is counted, whatever the
    threads have done so far.  The scan is not stopped beforehand: the
    pattern is compiled in [searchInFile], after the file was opened, so a
    file that can be opened is opened, the message ["Invalid regex: "] with
    the query goes to [lastError], and the search returns. *)
Theorem bad_regex_writes_nothing
    (query directory : bytes) (filePattern : option bytes)
    (hardware_concurrency : nat) (tree : walk) (schedule : list thread)
    (w : World) (filePath content : bytes) :
  regex_compile false query = None ->
  (let w' := searchInDirectory regex_compile regex_search regex_match fs
               query directory true filePattern true hardware_concurrency
               tree schedule w in
   g_resultsFile w' = []
   /\ filesScanned (g_status w') = filesScanned (g_status w)
   /\ totalHits (g_status w') = totalHits (g_status w))
  /\ (fs filePath = Some content ->
      searchInFile regex_compile regex_search fs filePath query true w
      = with_status (set_lastError (lit "Invalid regex: " ++ query))
          (log_open filePath w)).
Proof.
  intros Hbad. split.
  - unfold searchInDirectory, scan. cbn [negb].
    destruct (compile_filter regex_compile filePattern) as [wr|].
    + apply (bad_regex_run query (truncate_results w)); [exact Hbad|].
      repeat split.
    + repeat split.
  - intros Hfs. rewrite bad_regex_search by exact Hbad. now rewrite Hfs.
Qed.

End SearchFacts.

Lemma one_block_per_file_with_hits_witness :
  prepare_matcher Ecma.compile (lit "needle") false = Some Substring
  /\ g_resultsFile
       (searchInFile Ecma.compile Ecma.regex_search test_fs
          file1 (lit "needle") false world_init)
     = lit "Matches in file: /tmp/test_files/file1.txt (1 hits)" ++ [LF]
         ++ lit "    Line 2: We have a \x1b[31mneedle\x1b[0m here." ++ [LF]
         ++ [LF]
  /\ g_resultsFile
       (searchInFile Ecma.compile Ecma.regex_search test_fs
          file2 (lit "needle") false world_init)
     = [].
Proof.
  split; [reflexivity|]. split.
  - destruct (one_block_per_file_with_hits Ecma.regex Ecma.compile
                Ecma.regex_search test_fs file1 (lit "needle")
                (lit "This is a test." ++ [LF] ++ lit "We have a needle here."
                   ++ [LF] ++ lit "End of file." ++ [LF])
                false Substring world_init) as [H _].
    + reflexivity.
    + reflexivity.
    + vm_compute. reflexivity.
    + rewrite H. vm_compute. reflexivity.
  - destruct (one_block_per_file_with_hits Ecma.regex Ecma.compile
                Ecma.regex_search test_fs file2 (lit "needle")
                (lit "Some other text." ++ [LF] ++ lit "Nothing interesting."
                   ++ [LF])
                false Substring world_init) as [H _].
    + reflexivity.
    + reflexivity.
    + vm_compute. reflexivity.
    + rewrite H. vm_compute. reflexivity.
Defined.

Lemma unopened_file_recorded_not_counted_witness :
  let missing := lit "/tmp/test_files/missing.txt" in
  let w' := searchInFile Ecma.compile Ecma.regex_search test_fs
              missing (lit "needle") false world_init in
  test_fs missing = None
  /\ lastError (g_status w')
     = lit "Could not open: /tmp/test_files/missing.txt"
  /\ filesScanned (g_status w') = 0%N
  /\ filesScanned
       (g_status (searchInFile Ecma.compile Ecma.regex_search test_fs
                    file2 (lit "needle") false world_init)) = 1%N.
Proof.
  intros missing w'.
  destruct (unopened_file_recorded_not_counted Ecma.regex Ecma.compile
              Ecma.regex_search test_fs missing (lit "needle") false
              world_init file2
              (lit "Some other text." ++ [LF] ++ lit "Nothing interesting."
                 ++ [LF])
              Substring eq_refl)
    as [Herr [_ [_ [_ [Hcount [_ [_ Hread]]]]]]].
  split; [reflexivity|].
  split; [exact Herr|].
  split; [exact Hcount|].
  exact (Hread eq_refl eq_refl).
Defined.

(** C2 as stated fails: after a file that cannot be opened [filesScanned]
    is still 0, where a file that opens makes it 1. *)
Lemma unopened_file_is_not_counted :
  let missing := lit "/tmp/test_files/missing.txt" in
  test_fs missing = None
  /\ filesScanned
       (g_status (searchInFile Ecma.compile Ecma.regex_search test_fs
                    missing (lit "needle") false world_init)) = 0%N
  /\ filesScanned
       (g_status (searchInFile Ecma.compile Ecma.regex_search test_fs
                    file2 (lit "needle") false world_init)) = 1%N.
Proof.
  vm_compute. repeat split; reflexivity.
Qed.

Lemma bad_regex_writes_nothing_witness :
  let schedule := [Producer; Producer; Producer; Worker 0; Worker 0;
                   Worker 0] in
  let w' := searchInDirectory Ecma.compile Ecma.regex_search Ecma.regex_match
              test_fs (lit "*") testDir true None true 1 test_tree schedule
              world_init in
  Ecma.compile false (lit "*") = None
  /\ g_resultsFile w' = []
  /\ filesScanned (g_status w') = 0%N
  /\ searchInFile Ecma.compile Ecma.regex_search test_fs file1 (lit "*")
       true world_init
     = with_status (set_lastError (lit "Invalid regex: *"))
         (log_open file1 world_init).
Proof.
  intros schedule w'.
  destruct (bad_regex_writes_nothing Ecma.regex Ecma.compile
              Ecma.regex_search Ecma.regex_match test_fs (lit "*") testDir
              None 1 test_tree schedule world_init file1
              (lit "This is a test." ++ [LF] ++ lit "We have a needle here."
                 ++ [LF] ++ lit "End of file." ++ [LF])
              eq_refl) as [[Hres [Hcount _]] Hfile].
  split; [reflexivity|].
  split; [exact Hres|].
  split; [exact Hcount|].
  exact (Hfile eq_refl).
Defined.

(** C1 as stated fails: with the pattern [*], which does not compile, the
    scan of the test directory runs to its end and opens both files. *)
Lemma bad_regex_still_opens_files :
  let schedule := [Producer; Producer; Producer; Worker 0; Worker 0;
                   Worker 0] in
  Ecma.compile false (lit "*") = None
  /\ option_map all_joined
       (scan Ecma.compile Ecma.regex_search Ecma.regex_match test_fs
          (lit "*") testDir true None true 1 test_tree schedule world_init)
     = Some true
  /\ opened
       (searchInDirectory Ecma.compile Ecma.regex_search Ecma.regex_match
          test_fs (lit "*") testDir true None true 1 test_tree schedule
          world_init)
     = [file1; file2]
  /\ lastError
       (g_status
          (searchInDirectory Ecma.compile Ecma.regex_search Ecma.regex_match
             test_fs (lit "*") testDir true None true 1 test_tree schedule
             world_init))
     = lit "Invalid regex: *".
Proof.
  vm_compute. repeat split; reflexivity.
Qed.

(** ** The producer *)

Section ProducerFacts.

Variable regex : Type.
Variable regex_match : regex -> bytes -> bool.

Lemma entry_step_no_finish (wr : option regex) (e : directory_entry) :
  filter is_setFinished (entry_step regex_match wr e) = [].
Proof.
  unfold entry_step, entry_body.
  destruct (is_regular_file e) as [[|]|what]; [|reflexivity|reflexivity].
  destruct wr as [r|]; [|reflexivity].
  destruct (negb (matchesWildcard regex_match (filename (entry_path e)) r));
    reflexivity.
Qed.

Lemma walk_body_no_finish (wr : option regex) (w : walk) :
  filter is_setFinished (fst (walk_body regex_match wr w)) = [].
Proof.
  induction w as [|what|e rest IH]; simpl; [reflexivity|reflexivity|].
  destruct (walk_body regex_match wr rest) as [acts ex]. simpl in *.
  rewrite filter_app, entry_step_no_finish, IH. reflexivity.
Qed.

Lemma producer_split (wr : option regex) (directory : path) (w : walk) :
  producer regex_match wr directory w
  = producer_body regex_match wr directory w ++ [DoSetFinished].
Proof.
  unfold producer, producer_body.
  destruct (walk_body regex_match wr w) as [acts ex]. simpl.
  now rewrite app_assoc.
Qed.

Lemma producer_body_no_finish (wr : option regex) (directory : path)
    (w : walk) :
  filter is_setFinished (producer_body regex_match wr directory w) = [].
Proof.
  unfold producer_body.
  rewrite filter_app, walk_body_no_finish.
  destruct (snd (walk_body regex_match wr w)); reflexivity.
Qed.

(** C5: whatever the directory iterator yields or throws (a clean end,
    entries whose inspection throws, an exception that ends the loop) the
    producer calls [setFinished] once, and the call is its last action. *)
Theorem producer_finishes_once_and_last
    (wr : option regex) (directory : path) (w : walk) :
  length (filter is_setFinished (producer regex_match wr directory w)) = 1
  /\ last (producer regex_match wr directory w) (DoPush []) = DoSetFinished
  /\ producer regex_match wr directory w
     = producer_body regex_match wr directory w ++ [DoSetFinished]
  /\ filter is_setFinished (producer_body regex_match wr directory w) = [].
Proof.
  rewrite producer_split.
  split; [|split; [|split]].
  - rewrite filter_app, producer_body_no_finish. reflexivity.
  - apply last_last.
  - reflexivity.
  - apply producer_body_no_finish.
Qed.

Lemma entry_step_pushed (r : regex) (e : directory_entry) (p : path) :
  In p (pushed (entry_step regex_match (Some r) e)) ->
  p = entry_path e
  /\ is_regular_file e = Returned true
  /\ regex_match r (filename p) = true.
Proof.
  unfold entry_step, entry_body.
  destruct (is_regular_file e) as [[|]|what]; simpl; try tauto.
  unfold matchesWildcard.
  destruct (regex_match r (filename (entry_path e))) eqn:Hm; simpl; [|tauto].
  intros [<-|[]]. auto.
Qed.

Lemma pushed_app (a b : list producer_action) :
  pushed (a ++ b) = pushed a ++ pushed b.
Proof.
  induction a as [|[p|e|] a IH]; simpl; rewrite ?IH; reflexivity.
Qed.

Lemma walk_body_pushed (r : regex) (w : walk) (p : path) :
  In p (pushed (fst (walk_body regex_match (Some r) w))) ->
  regex_match r (filename p) = true.
Proof.
  induction w as [|what|e rest IH]; simpl; [tauto|tauto|].
  destruct (walk_body regex_match (Some r) rest) as [acts ex]. simpl in *.
  rewrite pushed_app, in_app_iff. intros [H|H]; [|exact (IH H)].
  apply (entry_step_pushed r e p H).
Qed.

(** With a filter, the producer pushes only paths whose file name the
    filter matches. *)
Lemma producer_pushed (r : regex) (directory : path) (w : walk) (p : path) :
  In p (pushed (producer regex_match (Some r) directory w)) ->
  regex_match r (filename p) = true.
Proof.
  rewrite producer_split. unfold producer_body.
  rewrite !pushed_app, !in_app_iff. intros [[H|H]|H].
  - exact (walk_body_pushed r w p H).
  - destruct (snd (walk_body regex_match (Some r) w)); simpl in H; tauto.
  - simpl in H. tauto.
Qed.

End ProducerFacts.

(** ** The filename filter *)

Lemma fold_append {A B : Type} (f : A -> list B) (l : list A) (init : list B) :
  fold_left (fun acc c => acc ++ f c) l init = init ++ flat_map f l.
Proof.
  revert init. induction l as [|x l IH]; intros init; simpl.
  - now rewrite app_nil_r.
  - rewrite IH, <- app_assoc. reflexivity.
Qed.

Lemma wildcardToRegex_flat_map (wildcard : bytes) :
  wildcardToRegex wildcard
  = "^"%char :: flat_map wildcard_char wildcard ++ lit "$".
Proof.
  unfold wildcardToRegex. rewrite fold_append. reflexivity.
Qed.

Lemma tokens_wildcard_char (c : ascii) (rest : bytes) :
  Ecma.tokens (wildcard_char c ++ rest)
  = option_map (app (glob_tokens c)) (Ecma.tokens rest).
Proof.
  destruct c as [[] [] [] [] [] [] [] []]; cbn;
    destruct (Ecma.tokens rest); reflexivity.
Qed.

Lemma tokens_wildcard (w : bytes) :
  Ecma.tokens (flat_map wildcard_char w ++ lit "$")
  = Some (flat_map glob_tokens w ++ [Ecma.TEol]).
Proof.
  induction w as [|c w IH]; [reflexivity|].
  cbn [flat_map]. rewrite <- app_assoc, tokens_wildcard_char, IH.
  cbn [option_map]. rewrite app_assoc. reflexivity.
Qed.

Lemma glob_tokens_no_leading_star (c : ascii) (ts : list Ecma.token) :
  no_leading_star (glob_tokens c ++ ts).
Proof.
  unfold glob_tokens.
  destruct (Ascii.eqb c "*"); [exact I|].
  destruct (Ascii.eqb c "?"); exact I.
Qed.

Lemma build_glob_tokens (c : ascii) (ts : list Ecma.token) :
  no_leading_star ts ->
  Ecma.build (glob_tokens c ++ ts)
  = option_map (cons (glob_node c)) (Ecma.build ts).
Proof.
  intros Hts. unfold glob_tokens, glob_node.
  destruct (Ascii.eqb c "*"); [reflexivity|].
  destruct (Ascii.eqb c "?");
    (destruct ts as [|[| | |] ts]; [reflexivity .. | destruct Hts]).
Qed.

Lemma build_wildcard (w : bytes) :
  Ecma.build (flat_map glob_tokens w ++ [Ecma.TEol])
  = Some (map glob_node w ++ [Ecma.Eol]).
Proof.
  induction w as [|c w IH]; [reflexivity|].
  cbn [flat_map map]. rewrite <- app_assoc, build_glob_tokens.
  - rewrite IH. reflexivity.
  - destruct w as [|c' w']; [exact I|].
    cbn [flat_map]. rewrite <- app_assoc. apply glob_tokens_no_leading_star.
Qed.

(** The filter compiles, whatever the wildcard. *)
Lemma compile_wildcard (w : bytes) :
  Ecma.compile true (wildcardToRegex w)
  = Some {| Ecma.icase := true;
            Ecma.nodes := Ecma.Bol :: map glob_node w ++ [Ecma.Eol] |}.
Proof.
  unfold Ecma.compile. rewrite wildcardToRegex_flat_map.
  change (Ecma.tokens ("^"%char :: flat_map wildcard_char w ++ lit "$"))
    with (option_map (cons Ecma.TBol)
            (Ecma.tokens (flat_map wildcard_char w ++ lit "$"))).
  rewrite tokens_wildcard. cbn [option_map Ecma.build].
  rewrite build_wildcard. reflexivity.
Qed.

Lemma compile_wildcard_filter (w : bytes) :
  compile_filter Ecma.compile (Some w)
  = Some (Some {| Ecma.icase := true;
                  Ecma.nodes := Ecma.Bol :: map glob_node w ++ [Ecma.Eol] |}).
Proof.
  unfold compile_filter. rewrite compile_wildcard. reflexivity.
Qed.

Lemma many_spec (ok : ascii -> bool) (k : bool -> bytes -> bool)
    (bol : bool) (s : bytes) :
  Ecma.many ok k bol s = true
  <-> exists s1 s2,
        s = s1 ++ s2 /\ forallb ok s1 = true
        /\ k (match s1 with [] => bol | _ :: _ => false end) s2 = true.
Proof.
  revert bol. induction s as [|c s IH]; intros bol; simpl.
  - rewrite orb_false_r. split.
    + intros H. exists [], []. auto.
    + intros [s1 [s2 [Hs [_ Hk]]]].
      symmetry in Hs. apply app_eq_nil in Hs as [-> ->]. exact Hk.
  - rewrite orb_true_iff, andb_true_iff, IH. split.
    + intros [Hk|[Hc [s1 [s2 [-> [Hall Hk]]]]]].
      * exists [], (c :: s). auto.
      * exists (c :: s1), s2. simpl. rewrite Hc, Hall.
        repeat split. destruct s1; exact Hk.
    + intros [[|x s1] [s2 [Hs [Hall Hk]]]].
      * left. simpl in Hs. rewrite Hs. exact Hk.
      * right. simpl in Hs. injection Hs as <- ->.
        simpl in Hall. apply andb_true_iff in Hall as [Hx Hall].
        split; [exact Hx|]. exists s1, s2. repeat split; [exact Hall|].
        destruct s1; exact Hk.
Qed.

Lemma glob_nodes_match (w name : bytes) (bol : bool) :
  forallb not_line_terminator name = true ->
  Ecma.match_here true true (map glob_node w ++ [Ecma.Eol]) bol name = true
  <-> glob_matches w name.
Proof.
  revert name bol. induction w as [|c w IH]; intros name bol Hname.
  - simpl. destruct name; simpl; split; intros H;
      try constructor; try discriminate; inversion H.
  - cbn [map app]. unfold glob_node at 1.
    destruct (Ascii.eqb c "*") eqn:Hstar.
    { apply Ascii.eqb_eq in Hstar. subst c.
      cbn [Ecma.match_here]. rewrite many_spec. split.
      - intros [s1 [s2 [-> [_ Hk]]]].
        rewrite forallb_app in Hname.
        apply andb_true_iff in Hname as [_ H2].
        constructor. eapply IH; [exact H2 | exact Hk].
      - intros H. inversion H as [|w' skipped rest Hrest| |]; subst.
        + rewrite forallb_app in Hname.
          apply andb_true_iff in Hname as [H1 H2].
          exists skipped, rest. repeat split; [exact H1|].
          apply IH; assumption.
        + congruence. }
    destruct (Ascii.eqb c "?") eqn:Hq.
    { apply Ascii.eqb_eq in Hq. subst c. cbn [Ecma.match_here].
      destruct name as [|x name]; [split; [discriminate | intros H; inversion H]|].
      simpl in Hname. apply andb_true_iff in Hname as [Hx Hrest].
      cbn [Ecma.atom_ok]. fold (not_line_terminator x). rewrite Hx.
      cbn [andb]. rewrite (IH name false Hrest). split.
      - intros H. constructor. exact H.
      - intros H. inversion H; subst; [assumption | congruence]. }
    apply Ascii.eqb_neq in Hstar, Hq. cbn [Ecma.match_here].
    destruct name as [|x name];
      [split; [discriminate | intros H; inversion H; subst; congruence]|].
    simpl in Hname. apply andb_true_iff in Hname as [Hx Hrest].
    cbn [Ecma.atom_ok]. rewrite andb_true_iff, Ascii.eqb_eq.
    rewrite (IH name false Hrest). split.
    + intros [Hc H]. constructor; assumption.
    + intros H. inversion H; subst; try congruence. auto.
Qed.

(** ** Paths in flight *)

Section SystemFacts.

Variable regex : Type.
Variable regex_compile : bool -> bytes -> option regex.
Variable regex_search : regex -> bytes -> bool.
Variable regex_match : regex -> bytes -> bool.
Variable fs : path -> option bytes.

Lemma searchInFile_opened (filePath query : bytes) (use_regex : bool)
    (w : World) :
  incl (opened (searchInFile regex_compile regex_search fs
                  filePath query use_regex w))
       (opened w ++ [filePath]).
Proof.
  unfold searchInFile.
  destruct (fs filePath) as [content|]; [|apply incl_appl, incl_refl].
  destruct (prepare_matcher regex_compile query use_regex);
    apply incl_refl.
Qed.

Lemma step_in_flight (query : bytes) (use_regex : bool) (s : system)
    (t : thread) :
  incl (in_flight (step regex_compile regex_search fs query use_regex s t))
       (in_flight s).
Proof.
  unfold in_flight. destruct t as [|i]; simpl.
  - unfold producer_step.
    destruct (producer_todo s) as [|[p|e|] rest] eqn:Htodo.
    + rewrite Htodo. apply incl_refl.
    + destruct (push_cases p (fileQueue s)) as [[-> _]|[[-> _]|[-> _]]];
        simpl.
      * rewrite Htodo. apply incl_refl.
      * intros x Hx. rewrite !in_app_iff in Hx. rewrite !in_app_iff. simpl.
        destruct Hx as [H|[H|H]]; auto.
      * intros x Hx. rewrite !in_app_iff in Hx. rewrite !in_app_iff.
        simpl in *. destruct Hx as [H|[[H|[H|[]]]|H]]; auto.
    + simpl. apply incl_refl.
    + simpl. apply incl_refl.
  - unfold worker_step.
    destruct (nth i (workers s) false); [|apply incl_refl].
    unfold pop.
    destruct (negb (empty (fileQueue s)) || finished_ (fileQueue s));
      [|apply incl_refl].
    destruct (queue_ (fileQueue s)) as [|p rest] eqn:Hq; simpl.
    + rewrite Hq. apply incl_refl.
    + intros x Hx. rewrite !in_app_iff in Hx.
      destruct Hx as [Hx|Hx].
      * apply searchInFile_opened in Hx. simpl in Hx.
        rewrite in_app_iff in Hx. rewrite !in_app_iff. simpl in *.
        destruct Hx as [H|[H|[]]]; [left; exact H | right; left; exact H].
      * apply in_or_app. right. right. apply in_or_app. exact Hx.
Qed.

Lemma run_in_flight (query : bytes) (use_regex : bool)
    (schedule : list thread) (s : system) :
  incl (in_flight (run regex_compile regex_search fs query use_regex
                     schedule s))
       (in_flight s).
Proof.
  revert s. induction schedule as [|t ts IH]; intros s; simpl.
  - apply incl_refl.
  - eapply incl_tran; [apply IH | apply step_in_flight].
Qed.

End SystemFacts.

Lemma wildcard_nodes_match (w name : bytes) (bol : bool) :
  Ecma.match_here true true (map glob_node w ++ [Ecma.Eol]) bol name = true
  <-> wildcard_matches w name.
Proof.
  revert name bol. induction w as [|c w IH]; intros name bol.
  - simpl. destruct name; simpl; split; intros H;
      try constructor; try discriminate; inversion H.
  - cbn [map app]. unfold glob_node at 1.
    destruct (Ascii.eqb c "*") eqn:Hstar.
    { apply Ascii.eqb_eq in Hstar. subst c.
      cbn [Ecma.match_here]. rewrite many_spec. split.
      - intros [s1 [s2 [-> [Hall Hk]]]].
        constructor; [exact Hall|]. eapply IH. exact Hk.
      - intros H. inversion H as [|w' skipped rest Hall Hrest| |]; subst.
        + exists skipped, rest. repeat split; [exact Hall|].
          apply IH. exact Hrest.
        + congruence. }
    destruct (Ascii.eqb c "?") eqn:Hq.
    { apply Ascii.eqb_eq in Hq. subst c. cbn [Ecma.match_here].
      destruct name as [|x name];
        [split; [discriminate | intros H; inversion H]|].
      cbn [Ecma.atom_ok]. fold (not_line_terminator x).
      rewrite andb_true_iff, (IH name false). split.
      - intros [Hx H]. constructor; assumption.
      - intros H. inversion H; subst; [auto | congruence]. }
    apply Ascii.eqb_neq in Hstar, Hq. cbn [Ecma.match_here].
    destruct name as [|x name];
      [split; [discriminate | intros H; inversion H; subst; congruence]|].
    cbn [Ecma.atom_ok]. rewrite andb_true_iff, Ascii.eqb_eq.
    rewrite (IH name false). split.
    + intros [Hc H]. constructor; assumption.
    + intros H. inversion H; subst; try congruence. auto.
Qed.




(** * Further properties *)

(** ** The queue as a channel *)

Lemma exec_op_conserves (q : BoundedFileQueue) (op : queue_op) :
  popped_by q op ++ queue_ (exec_op q op) = queue_ q ++ inserted_by q op.
Proof.
  destruct op as [p| |]; simpl.
  - destruct (push_cases p q) as [[-> _]|[[-> _]|[-> _]]]; simpl.
    + now rewrite skipn_all, app_nil_r.
    + now rewrite skipn_all, app_nil_r.
    + now rewrite skipn_length_app.
  - unfold pop. destruct (negb (empty q) || finished_ q);
      [|now rewrite app_nil_r].
    destruct (queue_ q) as [|x rest] eqn:Hq; simpl.
    + now rewrite Hq.
    + now rewrite app_nil_r.
  - now rewrite app_nil_r.
Qed.

Lemma run_ops_conserves (ops : list queue_op) (q : BoundedFileQueue) :
  popped ops q ++ queue_ (run_ops ops q) = queue_ q ++ inserted ops q.
Proof.
  revert q. induction ops as [|op ops IH]; intros q; simpl.
  - now rewrite app_nil_r.
  - unfold run_ops in IH. rewrite <- app_assoc, IH, !app_assoc.
    now rewrite exec_op_conserves.
Qed.

Lemma inserted_all (ops : list queue_op) (q : BoundedFileQueue) :
  forallb (fun op => negb (is_OpSetFinished op)) ops = true ->
  finished_ q = false ->
  length (queue_ q) + length (requested ops) <= maxSize_ q ->
  inserted ops q = requested ops.
Proof.
  revert q. induction ops as [|op ops IH]; intros q Hops Hf Hfit;
    [reflexivity|].
  simpl in Hops. apply andb_true_iff in Hops as [Hop Hops].
  destruct op as [p| |]; [| |discriminate].
  - cbn [inserted requested inserted_by] in *. cbn [exec_op].
    simpl in Hfit.
    destruct (push_cases p q) as [[_ [Hge _]]|[[_ Ht]|[-> _]]];
      [lia | congruence |].
    cbn [queue_]. rewrite skipn_length_app. simpl. f_equal.
    apply IH; simpl; auto. rewrite length_app. simpl. lia.
  - cbn [inserted requested inserted_by app]. apply IH; auto.
    + simpl. unfold pop.
      destruct (negb (empty q) || finished_ q); [|exact Hf].
      destruct (queue_ q); exact Hf.
    + rewrite exec_op_maxSize. simpl. unfold pop.
      destruct (negb (empty q) || finished_ q); [|exact Hfit].
      destruct (queue_ q) as [|x rest] eqn:Hq; simpl in *; [|lia].
      rewrite Hq. exact Hfit.
Qed.

(** X1: the queue neither loses nor duplicates nor reorders paths: after
    any sequence of calls, the paths popped so far followed by the paths
    still queued are the paths queued at the start followed by the paths
    inserted since.  While the queue is not finished and the pushes fit its
    capacity, every pushed path is inserted. *)
Theorem queue_is_fifo_channel
    (ops : list queue_op) (q : BoundedFileQueue) (C : nat) :
  popped ops q ++ queue_ (run_ops ops q) = queue_ q ++ inserted ops q
  /\ (forallb (fun op => negb (is_OpSetFinished op)) ops = true ->
      length (requested ops) <= C ->
      popped ops (new_queue C) ++ queue_ (run_ops ops (new_queue C))
      = requested ops).
Proof.
  split; [apply run_ops_conserves|].
  intros Hops Hfit. rewrite run_ops_conserves. simpl.
  apply inserted_all; auto.
Qed.

Lemma queue_is_fifo_channel_witness :
  let ops := [OpPush (lit "a"); OpPop; OpPush (lit "b"); OpPush (lit "c");
              OpPop; OpPop] in
  length (requested ops) <= 3
  /\ popped ops (new_queue 3) = [lit "a"; lit "b"; lit "c"]
  /\ queue_ (run_ops ops (new_queue 3)) = [].
Proof.
  intros ops.
  destruct (queue_is_fifo_channel ops (new_queue 3) 3) as [_ H].
  assert (Hfit : length (requested ops) <= 3) by (simpl; lia).
  specialize (H eq_refl Hfit).
  split; [exact Hfit|].
  assert (Hq : queue_ (run_ops ops (new_queue 3)) = []) by reflexivity.
  rewrite Hq, app_nil_r in H. split; [exact H | exact Hq].
Defined.

Lemma exec_op_after_finish (q : BoundedFileQueue) (op : queue_op) :
  finished_ q = true ->
  finished_ (exec_op q op) = true
  /\ inserted_by q op = []
  /\ exists k, queue_ (exec_op q op) = skipn k (queue_ q).
Proof.
  intros Hf. destruct op as [p| |]; simpl.
  - unfold push. rewrite Hf, orb_true_r.
    split; [exact Hf|]. split; [apply skipn_all|]. now exists 0.
  - unfold pop. rewrite Hf, orb_true_r.
    destruct (queue_ q) as [|x rest] eqn:Hq; simpl.
    + split; [exact Hf|]. split; [reflexivity|]. exists 0. now rewrite Hq.
    + split; [reflexivity|]. split; [reflexivity|]. now exists 1.
  - split; [reflexivity|]. split; [reflexivity|]. now exists 0.
Qed.

(** X2: [finished_] is never reset, and a finished queue only drains:
    after any further calls it is still finished, nothing was inserted, and
    what it holds is a tail of what it held. *)
Theorem finished_queue_only_drains
    (ops : list queue_op) (q : BoundedFileQueue) :
  finished_ q = true ->
  finished_ (run_ops ops q) = true
  /\ inserted ops q = []
  /\ exists k, queue_ (run_ops ops q) = skipn k (queue_ q).
Proof.
  revert q. induction ops as [|op ops IH]; intros q Hf.
  - split; [exact Hf|]. split; [reflexivity|]. now exists 0.
  - destruct (exec_op_after_finish q op Hf) as [Hf' [Hins [k Hk]]].
    destruct (IH _ Hf') as [Hfin [Hins' [k' Hk']]].
    cbn [run_ops fold_left inserted]. unfold run_ops in *.
    split; [exact Hfin|]. split; [now rewrite Hins, Hins'|].
    exists (k' + k). rewrite Hk', Hk. apply skipn_skipn.
Qed.

Lemma finished_queue_only_drains_witness :
  let q := setFinished {| queue_ := [lit "a"; lit "b"]; maxSize_ := 2;
                          finished_ := false |} in
  let ops := [OpPush (lit "c"); OpPop; OpPush (lit "d")] in
  finished_ q = true
  /\ finished_ (run_ops ops q) = true
  /\ inserted ops q = []
  /\ queue_ (run_ops ops q) = [lit "b"].
Proof.
  intros q ops.
  destruct (finished_queue_only_drains ops q eq_refl) as [Hf [Hi _]].
  split; [reflexivity|]. split; [exact Hf|]. split; [exact Hi|].
  reflexivity.
Defined.

(** ** Escaping, again *)

Lemma escape_spec_length (c : ascii) :
  1 <= length (escape_spec c) <= 4.
Proof.
  unfold escape_spec. destruct (keeps_byte c); simpl; lia.
Qed.

Lemma sanitizeLine_length (line : bytes) :
  length line <= length (sanitizeLine line) <= 4 * length line.
Proof.
  rewrite sanitizeLine_flat_map.
  induction line as [|c line IH]; simpl; [lia|].
  rewrite length_app. pose proof (escape_spec_length c). lia.
Qed.

Lemma sanitizeLine_fixed (line : bytes) :
  forallb keeps_byte line = true -> sanitizeLine line = line.
Proof.
  rewrite sanitizeLine_flat_map.
  induction line as [|c line IH]; simpl; [reflexivity|].
  intros H. apply andb_true_iff in H as [Hc Hl].
  unfold escape_spec. rewrite Hc. simpl. f_equal. apply IH, Hl.
Qed.



(** ** Reading lines, again *)

Lemma read_lines_no_LF (cur : option bytes) (content : bytes) :
  existsb (Ascii.eqb LF) (pending cur) = false ->
  Forall (fun l => existsb (Ascii.eqb LF) l = false) (read_lines cur content).
Proof.
  revert cur. induction content as [|c rest IH]; intros cur Hcur; simpl.
  - destruct cur; constructor; auto.
  - destruct (Ascii.eqb c LF) eqn:Hc.
    + constructor; [exact Hcur | apply IH; reflexivity].
    + apply IH. cbn [pending]. rewrite existsb_app.
      destruct cur as [l|]; cbn [pending] in Hcur; rewrite ?Hcur;
        cbn [existsb orb]; rewrite Ascii.eqb_sym, Hc; reflexivity.
Qed.

Lemma read_lines_join (cur : option bytes) (content : bytes) :
  join_lines (read_lines cur content)
  = pending cur ++ content
      ++ (if ends_open cur content then [LF] else []).
Proof.
  revert cur. induction content as [|c rest IH]; intros cur.
  - destruct cur as [l|]; simpl; [|reflexivity].
    now rewrite app_nil_r.
  - cbn [read_lines ends_open]. destruct (Ascii.eqb c LF) eqn:Hc.
    + apply Ascii.eqb_eq in Hc. subst c.
      unfold join_lines in *. cbn [flat_map]. rewrite IH.
      fold (pending cur). cbn [pending app]. rewrite <- app_assoc.
      reflexivity.
    + fold (pending cur). rewrite IH. cbn [pending].
      rewrite <- app_assoc. reflexivity.
Qed.

Lemma ends_open_closed (cur : option bytes) (content : bytes) :
  ends_open cur (content ++ [LF]) = false.
Proof.
  revert cur. induction content as [|c rest IH]; intros cur; simpl.
  - reflexivity.
  - destruct (Ascii.eqb c LF); apply IH.
Qed.

Lemma ends_open_open (cur : option bytes) (content : bytes) (x : ascii) :
  x <> LF -> ends_open cur (content ++ [x]) = true.
Proof.
  intros Hx. revert cur. induction content as [|c rest IH]; intros cur; simpl.
  - apply Ascii.eqb_neq in Hx. rewrite Hx. reflexivity.
  - destruct (Ascii.eqb c LF); apply IH.
Qed.

(** X4: the lines read from a file hold no line feed, and joined again,
    each followed by a line feed, they give back the file: exactly, when
    the file ends with a line feed, and with one line feed added when its
    last line is not closed.  An empty file has no line. *)
Theorem getlines_round_trip (content : bytes) (x : ascii) :
  Forall (fun l => existsb (Ascii.eqb LF) l = false) (getlines content)
  /\ join_lines (getlines (content ++ [LF])) = content ++ [LF]
  /\ (x <> LF ->
      join_lines (getlines (content ++ [x])) = content ++ [x] ++ [LF])
  /\ getlines [] = [].
Proof.
  split; [apply read_lines_no_LF; reflexivity|].
  split; [|split; [|reflexivity]].
  - unfold getlines. rewrite read_lines_join, ends_open_closed.
    simpl. now rewrite app_nil_r.
  - intros Hx. unfold getlines.
    rewrite read_lines_join, (ends_open_open None content x Hx).
    simpl. now rewrite <- app_assoc.
Qed.

Lemma getlines_round_trip_witness :
  "c"%char <> LF
  /\ getlines (lit "ab" ++ [LF] ++ [LF] ++ lit "c") = [lit "ab"; []; lit "c"]
  /\ join_lines (getlines (lit "ab" ++ [LF] ++ [LF] ++ lit "c"))
     = lit "ab" ++ [LF] ++ [LF] ++ lit "c" ++ [LF].
Proof.
  assert (Hc : "c"%char <> LF) by discriminate.
  destruct (getlines_round_trip (lit "ab" ++ [LF] ++ [LF]) "c"%char)
    as [_ [_ [H _]]].
  split; [exact Hc|]. split; [reflexivity|].
  exact (H Hc).
Defined.

(** ** Snippets, again *)

Lemma insert_length (s t : bytes) (pos : nat) :
  length (insert s pos t) = length s + length t.
Proof.
  unfold insert. rewrite !length_app.
  rewrite <- (firstn_skipn pos s) at 3. rewrite length_app. lia.
Qed.

Lemma insert_markers (L q R t1 t2 : bytes) :
  insert (insert (L ++ q ++ R) (length L + length q) t1) (length L) t2
  = L ++ t2 ++ q ++ t1 ++ R.
Proof.
  unfold insert at 2.
  replace (length L + length q) with (length (L ++ q))
    by (rewrite length_app; reflexivity).
  replace (L ++ q ++ R) with ((L ++ q) ++ R)
    by (rewrite <- app_assoc; reflexivity).
  rewrite firstn_length_app, skipn_length_app.
  unfold insert. rewrite <- !app_assoc.
  rewrite firstn_length_app, skipn_length_app. reflexivity.
Qed.

Lemma window_cut (pre q suf : bytes) (s r : nat) :
  s <= length pre -> r <= length suf ->
  substr (pre ++ q ++ suf) s (length pre + length q + r - s)
  = skipn s pre ++ q ++ firstn r suf.
Proof.
  intros Hs Hr. unfold substr.
  rewrite skipn_app. replace (s - length pre) with 0 by lia.
  cbn [skipn].
  replace (length pre + length q + r - s)
    with (length (skipn s pre) + (length q + r))
    by (rewrite length_skipn; lia).
  rewrite firstn_app_2, firstn_app_2. reflexivity.
Qed.

Lemma highlight_shape (line query : bytes) (pos : nat) :
  find line query = Some pos ->
  truncateAndHighlightMatch line query 180
  = (if 90 <? pos then lit "... " else [])
      ++ substr line (pos - 90) (Nat.min pos 90)
      ++ COLOR_RED ++ query ++ COLOR_RESET
      ++ substr line (pos + length query) 90
      ++ (if pos + length query + 90 <? length line then lit " ..." else []).
Proof.
  intros Hfind.
  destruct (find_split line query pos Hfind) as [pre [suf [Hline Hpre]]].
  unfold truncateAndHighlightMatch. rewrite Hfind.
  change (180 / 2) with 90. cbv zeta.
  assert (Hlen : length line = pos + length query + length suf).
  { rewrite Hline, !length_app. lia. }
  set (s := if 90 <? pos then pos - 90 else 0).
  assert (Hs : s = pos - 90).
  { unfold s. destruct (90 <? pos) eqn:E; [reflexivity|].
    apply Nat.ltb_ge in E. lia. }
  set (r := Nat.min 90 (length suf)).
  set (e := if length line <? pos + length query + 90
            then length line else pos + length query + 90).
  assert (He : e = length pre + length query + r).
  { unfold e, r. destruct (length line <? pos + length query + 90) eqn:E.
    - apply Nat.ltb_lt in E. lia.
    - apply Nat.ltb_ge in E. lia. }
  assert (Hcut : substr line s (e - s)
                 = skipn s pre ++ query ++ firstn r suf).
  { rewrite He, Hline. apply window_cut; unfold r; lia. }
  assert (HL : length (skipn s pre) = pos - s)
    by (rewrite length_skipn; lia).
  rewrite Hcut, <- HL, insert_markers.
  assert (Hleft : substr line (pos - 90) (Nat.min pos 90) = skipn s pre).
  { unfold substr. rewrite <- Hs, Hline, skipn_app.
    replace (s - length pre) with 0 by lia. cbn [skipn].
    replace (Nat.min pos 90) with (length (skipn s pre)) by lia.
    apply firstn_length_app. }
  assert (Hright : substr line (pos + length query) 90 = firstn r suf).
  { unfold substr.
    replace (pos + length query) with (length (pre ++ query))
      by (rewrite length_app; lia).
    rewrite Hline.
    replace (pre ++ query ++ suf) with ((pre ++ query) ++ suf)
      by (rewrite <- app_assoc; reflexivity).
    rewrite skipn_length_app. unfold r.
    destruct (Nat.le_gt_cases 90 (length suf)) as [Hle|Hgt].
    - rewrite Nat.min_l by lia. reflexivity.
    - rewrite Nat.min_r by lia. rewrite !firstn_all2 by lia. reflexivity. }
  rewrite Hleft, Hright.
  assert (Htl : (0 <? s) = (90 <? pos)).
  { rewrite Hs. destruct (90 <? pos) eqn:E.
    - apply Nat.ltb_lt in E. apply Nat.ltb_lt. lia.
    - apply Nat.ltb_ge in E. apply Nat.ltb_ge. lia. }
  assert (Htr : (e <? length line)
                = (pos + length query + 90 <? length line)).
  { unfold e. destruct (length line <? pos + length query + 90) eqn:E.
    - apply Nat.ltb_lt in E. rewrite Nat.ltb_irrefl. symmetry.
      apply Nat.ltb_ge. lia.
    - reflexivity. }
  rewrite Htl, Htr.
  destruct (90 <? pos), (pos + length query + 90 <? length line);
    cbn [app]; rewrite <- ?app_assoc; cbn [app]; rewrite ?app_nil_r;
    reflexivity.
Qed.

Lemma highlight_length (line query : bytes) (maxContext : nat) :
  length (truncateAndHighlightMatch line query maxContext)
  <= maxContext + length query + 17.
Proof.
  unfold truncateAndHighlightMatch.
  destruct (find line query) as [pos|].
  - cbv zeta.
    set (rad := maxContext / 2).
    assert (Hrad : 2 * rad <= maxContext).
    { unfold rad. pose proof (Nat.div_mod_eq maxContext 2). lia. }
    set (s := if rad <? pos then pos - rad else 0).
    set (e := if length line <? pos + length query + rad
              then length line else pos + length query + rad).
    assert (Hs : pos - rad <= s).
    { unfold s. destruct (rad <? pos) eqn:E; [lia|].
      apply Nat.ltb_ge in E. lia. }
    assert (He : e <= pos + length query + rad).
    { unfold e.
      destruct (length line <? pos + length query + rad) eqn:E; [|lia].
      apply Nat.ltb_lt in E. lia. }
    assert (Hsnip : length (substr line s (e - s)) <= 2 * rad + length query).
    { unfold substr. rewrite length_firstn. lia. }
    destruct (0 <? s), (e <? length line);
      rewrite ?length_app, !insert_length; simpl; lia.
  - destruct (maxContext <? length line) eqn:E.
    + unfold substr. rewrite length_app, length_firstn. simpl. lia.
    + apply Nat.ltb_ge in E. lia.
Qed.

(** X5: whenever the query occurs in the line, the formatted text is the
    part of the line from at most 90 characters before the first occurrence
    to at most 90 characters after it, with the colour codes around the
    occurrence, preceded by ["... "] when more than 90 characters come
    before it and followed by [" ..."] when more than 90 come after it.  A
    line with at most 90 characters on each side is kept whole. *)
Theorem highlight_keeps_window_of_line (line query pre suf : bytes) (pos : nat) :
  (find line query = Some pos ->
   truncateAndHighlightMatch line query 180
   = (if 90 <? pos then lit "... " else [])
       ++ substr line (pos - 90) (Nat.min pos 90)
       ++ COLOR_RED ++ query ++ COLOR_RESET
       ++ substr line (pos + length query) 90
       ++ (if pos + length query + 90 <? length line
           then lit " ..." else []))
  /\ (find (pre ++ query ++ suf) query = Some (length pre) ->
      length pre <= 90 -> length suf <= 90 ->
      truncateAndHighlightMatch (pre ++ query ++ suf) query 180
      = pre ++ COLOR_RED ++ query ++ COLOR_RESET ++ suf).
Proof.
  split; [apply highlight_shape|].
  intros Hfind Hpre Hsuf. rewrite (highlight_shape _ _ _ Hfind).
  replace (90 <? length pre) with false by (symmetry; apply Nat.ltb_ge; lia).
  replace (length pre + length query + 90 <? length (pre ++ query ++ suf))
    with false
    by (symmetry; apply Nat.ltb_ge; rewrite !length_app; lia).
  replace (length pre - 90) with 0 by lia.
  rewrite Nat.min_l by lia. unfold substr. cbn [skipn app].
  rewrite firstn_length_app.
  replace (length pre + length query) with (length (pre ++ query))
    by (rewrite length_app; reflexivity).
  replace (pre ++ query ++ suf) with ((pre ++ query) ++ suf)
    by (rewrite <- app_assoc; reflexivity).
  rewrite skipn_length_app, firstn_all2 by lia.
  now rewrite app_nil_r.
Qed.

Lemma highlight_keeps_window_of_line_witness :
  let line := lit "We have a needle here." in
  find line (lit "needle") = Some 10
  /\ truncateAndHighlightMatch line (lit "needle") 180
     = lit "We have a " ++ COLOR_RED ++ lit "needle" ++ COLOR_RESET
         ++ lit " here."
  /\ truncateAndHighlightMatch (repeat "a"%char 100 ++ lit "needle") (lit "needle") 180
     = lit "... " ++ repeat "a"%char 90 ++ COLOR_RED ++ lit "needle"
         ++ COLOR_RESET.
Proof.
  intros line.
  destruct (highlight_keeps_window_of_line
              (repeat "a"%char 100 ++ lit "needle") (lit "needle")
              (lit "We have a ") (lit " here.") 100) as [Hgen Hshort].
  split; [reflexivity|]. split.
  - apply Hshort; [reflexivity | simpl; lia | simpl; lia].
  - rewrite Hgen by reflexivity. reflexivity.
Defined.

(** X6: the formatted text is never longer than the window, the query and
    17 characters of markers, however long the line; the stored snippet is
    at most four times that. *)
Theorem snippet_length_bounded (line query : bytes) (maxContext : nat) :
  length (truncateAndHighlightMatch line query maxContext)
  <= maxContext + length query + 17
  /\ length (reported_snippet line query) <= 4 * (197 + length query).
Proof.
  split; [apply highlight_length|].
  unfold reported_snippet.
  pose proof (sanitizeLine_length (truncateAndHighlightMatch line query 180)).
  pose proof (highlight_length line query 180). lia.
Qed.

(** ** The per-file search, again *)

Lemma find_empty_query (line : bytes) : find line [] = Some 0.
Proof. destruct line; reflexivity. Qed.

Lemma iter_size_incr (k : nat) (n : N) :
  (n < SIZE_MAX_plus_1)%N ->
  Nat.iter k size_incr n = ((n + N.of_nat k) mod SIZE_MAX_plus_1)%N.
Proof.
  intros Hn. induction k as [|k IH].
  - simpl. rewrite N.add_0_r. symmetry. apply N.mod_small, Hn.
  - rewrite Nat.iter_succ, IH. unfold size_incr.
    rewrite N.Div0.add_mod_idemp_l. f_equal. lia.
Qed.

Section CountFacts.

Variable regex : Type.
Variable regex_compile : bool -> bytes -> option regex.
Variable regex_search : regex -> bytes -> bool.
Variable fs : path -> option bytes.

Lemma hit_lines_empty_query (k : N) (lines : list bytes) :
  filter (fun kl => line_found regex_search Substring [] (snd kl))
    (number_from k lines)
  = number_from k lines.
Proof.
  revert k. induction lines as [|l ls IH]; intros k; [reflexivity|].
  cbn [number_from filter snd line_found]. unfold contains.
  rewrite find_empty_query, IH. reflexivity.
Qed.

(** X7: in substring mode an empty query is found in every line, so every
    line of a file is reported; the snippet of a line is the two colour
    codes, escaped, followed by the first 90 characters of the line, with
    [" ..."] when the line is longer. *)
Theorem empty_query_hits_every_line (lines : list bytes) (line : bytes) :
  hit_lines regex_search Substring [] lines = number_from 1 lines
  /\ line_found regex_search Substring [] line = true
  /\ reported_snippet line []
     = lit "\x1b[31m\x1b[0m" ++ sanitizeLine (firstn 90 line)
         ++ (if 90 <? length line then lit " ..." else []).
Proof.
  split; [apply hit_lines_empty_query|].
  split; [unfold line_found, contains; now rewrite find_empty_query|].
  unfold reported_snippet.
  rewrite (highlight_shape line [] 0 (find_empty_query line)).
  change (90 <? 0) with false. change (0 - 90) with 0.
  change (Nat.min 0 90) with 0.
  change (0 + @length ascii [] + 90) with 90.
  change (0 + @length ascii []) with 0.
  unfold substr. change (skipn 0 line) with line.
  change (firstn 0 line) with (@nil ascii). cbn [app].
  rewrite !sanitizeLine_app, sanitize_lit_red, sanitize_lit_reset.
  destruct (90 <? length line); reflexivity.
Qed.

Lemma scan_fold_counts (m : matcher regex) (query : bytes)
    (lines : list bytes) (s : scan_state) :
  let s' := fold_left (scan_line regex_search m query) lines s in
  exists k,
    length (matches s') = length (matches s) + k
    /\ totalHits (scan_status s') = Nat.iter k size_incr (totalHits (scan_status s))
    /\ fileHits (scan_status s') = Nat.iter k size_incr (fileHits (scan_status s))
    /\ lastError (scan_status s') = lastError (scan_status s)
    /\ currentFile (scan_status s') = currentFile (scan_status s).
Proof.
  revert s. induction lines as [|l ls IH]; intros s; cbn zeta.
  - exists 0. simpl. repeat split. lia.
  - cbn [fold_left].
    set (s1 := scan_line regex_search m query s l).
    destruct (IH s1) as [k [Hlen [Htot [Hfile [Herr Hcur]]]]].
    cbn zeta in *.
    assert (Hs1 : (length (matches s1) = S (length (matches s))
                   /\ scan_status s1 = count_hit (scan_status s))
                  \/ (matches s1 = matches s
                      /\ scan_status s1 = scan_status s)).
    { unfold s1, scan_line.
      destruct (line_found regex_search m query l); [left|right];
        cbn [matches scan_status]; split; try reflexivity.
      rewrite length_app. simpl. lia. }
    destruct Hs1 as [[Hm Hst]|[Hm Hst]].
    + exists (S k). rewrite Hm in Hlen. rewrite Hst in Htot, Hfile, Herr, Hcur.
      cbn [count_hit totalHits fileHits lastError currentFile]
        in Htot, Hfile, Herr, Hcur.
      split; [lia|].
      split; [rewrite Nat.iter_succ_r; exact Htot|].
      split; [rewrite Nat.iter_succ_r; exact Hfile|].
      split; assumption.
    + exists k. rewrite Hm in Hlen. rewrite Hst in Htot, Hfile, Herr, Hcur.
      repeat split; assumption.
Qed.

(** X8: a file that opens adds the number of its matched lines (the
    number in the header of its block) to [totalHits] and to [fileHits],
    one to [filesScanned] and to [g_filesProcessed], and its path to the
    opened files; [lastError] and [currentFile] stay as they were.  The
    counters are [size_t] and wrap at [2^64]. *)
Theorem file_search_counts
    (filePath query content : bytes) (use_regex : bool)
    (m : matcher regex) (w : World) :
  fs filePath = Some content ->
  prepare_matcher regex_compile query use_regex = Some m ->
  (N.of_nat (length content) < SIZE_MAX_plus_1)%N ->
  let n := length (hit_lines regex_search m query (getlines content)) in
  let w' := searchInFile regex_compile regex_search fs filePath query
              use_regex w in
  totalHits (g_status w') = Nat.iter n size_incr (totalHits (g_status w))
  /\ fileHits (g_status w') = Nat.iter n size_incr (fileHits (g_status w))
  /\ ((totalHits (g_status w) < SIZE_MAX_plus_1)%N ->
      totalHits (g_status w')
      = ((totalHits (g_status w) + N.of_nat n) mod SIZE_MAX_plus_1)%N)
  /\ filesScanned (g_status w') = size_incr (filesScanned (g_status w))
  /\ g_filesProcessed w' = size_incr (g_filesProcessed w)
  /\ lastError (g_status w') = lastError (g_status w)
  /\ currentFile (g_status w') = currentFile (g_status w)
  /\ opened w' = opened w ++ [filePath].
Proof.
  intros Hfs Hm Hsize n w'.
  pose proof (scan_lines_matches regex regex_search m query content
                (g_status w) Hsize) as Hmatches.
  destruct (scan_fold_counts m query (getlines content)
              {| next_line := 1; matches := [];
                 scan_status := g_status w |})
    as [k [Hlen [Htot [Hfile [Herr Hcur]]]]].
  cbn zeta in *. cbn [matches scan_status length Nat.add] in *.
  fold (scan_lines regex_search m query (getlines content) (g_status w))
    in Hlen, Htot, Hfile, Herr, Hcur.
  rewrite Hmatches, length_map in Hlen. fold n in Hlen. subst k.
  assert (Htot' : totalHits (g_status w')
                  = Nat.iter n size_incr (totalHits (g_status w))).
  { unfold w', searchInFile. rewrite Hfs, Hm. exact Htot. }
  split; [exact Htot'|].
  split; [unfold w', searchInFile; rewrite Hfs, Hm; exact Hfile|].
  split; [intros Hsmall; rewrite Htot'; apply iter_size_incr, Hsmall|].
  unfold w', searchInFile. rewrite Hfs, Hm.
  cbn [g_status g_filesProcessed opened count_file filesScanned lastError
         currentFile log_open].
  unfold scan_lines. rewrite scan_fold_filesScanned.
  repeat split; assumption.
Qed.

End CountFacts.

Lemma file_search_counts_witness :
  let w' := searchInFile Ecma.compile Ecma.regex_search test_fs file1
              (lit "e") false world_init in
  totalHits (g_status w') = 3%N
  /\ filesScanned (g_status w') = 1%N
  /\ opened w' = [file1].
Proof.
  intros w'.
  destruct (file_search_counts Ecma.regex Ecma.compile Ecma.regex_search
              test_fs file1 (lit "e")
              (lit "This is a test." ++ [LF] ++ lit "We have a needle here."
                 ++ [LF] ++ lit "End of file." ++ [LF])
              false Substring world_init eq_refl eq_refl)
    as [_ [_ [Htot [Hscan [_ [_ [_ Hopen]]]]]]].
  - vm_compute. reflexivity.
  - split; [|split; [exact Hscan | exact Hopen]].
    unfold w'. rewrite Htot by (vm_compute; reflexivity).
    vm_compute. reflexivity.
Defined.

(** ** The command line *)

Lemma parse_options_flags (opts : list bytes) (r : bool) (e : option bytes)
    (rest : list bytes) :
  existsb is_ext_flag opts = false ->
  parse_options (opts ++ rest) r e
  = parse_options rest (r || existsb is_regex_flag opts) e.
Proof.
  revert r. induction opts as [|arg opts IH]; intros r Hno.
  - simpl. now rewrite orb_false_r.
  - simpl in Hno. apply orb_false_iff in Hno as [Harg Hno].
    cbn [app parse_options existsb]. fold (is_regex_flag arg).
    fold (is_ext_flag arg). rewrite Harg.
    destruct (is_regex_flag arg).
    + rewrite IH by exact Hno. now rewrite orb_true_r.
    + rewrite IH by exact Hno. reflexivity.
Qed.

Lemma parse_options_no_ext (opts : list bytes) (r : bool)
    (e : option bytes) :
  existsb is_ext_flag opts = false ->
  parse_options opts r e = (r || existsb is_regex_flag opts, e).
Proof.
  intros Hno. rewrite <- (app_nil_r opts) at 1.
  rewrite parse_options_flags by exact Hno. reflexivity.
Qed.

(** X9: [main] needs a query and a directory, and stops when the path is
    no directory; otherwise it calls [searchInDirectory] with what the
    loop over the further arguments leaves.  The loop reads the arguments
    from left to right: up to the next [--ext], [--regex] turns regex mode
    on and any other argument is skipped; the argument after [--ext]
    becomes the filename filter whatever it is, also when it reads
    [--regex] or [--ext], replacing an earlier one, and reading goes on
    after it; a final [--ext] without a value is ignored.  So with one
    [--ext] and a value, regex mode is on exactly when [--regex] stands
    before the [--ext] or after its value. *)
Theorem main_reads_options
    (prog query directory value : bytes) (opts rest : list bytes)
    (is_directory : path -> bool) (use_regex : bool)
    (extensionFilter : option bytes) :
  main [] is_directory = ExitUsage
  /\ main [prog] is_directory = ExitUsage
  /\ main [prog; query] is_directory = ExitUsage
  /\ (is_directory directory = false ->
      main (prog :: query :: directory :: rest) is_directory
      = ExitNotDirectory)
  /\ (is_directory directory = true ->
      main (prog :: query :: directory :: rest) is_directory
      = CallsSearch query directory
          (fst (parse_options rest false None))
          (snd (parse_options rest false None)))
  /\ (existsb is_ext_flag opts = false ->
      parse_options opts use_regex extensionFilter
      = (use_regex || existsb is_regex_flag opts, extensionFilter)
      /\ parse_options (opts ++ [lit "--ext"]) use_regex extensionFilter
         = (use_regex || existsb is_regex_flag opts, extensionFilter)
      /\ parse_options (opts ++ lit "--ext" :: value :: rest)
           use_regex extensionFilter
         = parse_options rest (use_regex || existsb is_regex_flag opts)
             (Some value)
      /\ (existsb is_ext_flag rest = false ->
          is_directory directory = true ->
          main (prog :: query :: directory
                  :: opts ++ lit "--ext" :: value :: rest) is_directory
          = CallsSearch query directory
              (existsb is_regex_flag opts || existsb is_regex_flag rest)
              (Some value))).
Proof.
  repeat (split; [reflexivity|]).
  split; [intros Hd; unfold main; now rewrite Hd|].
  split.
  { intros Hd. unfold main. rewrite Hd. cbn [negb].
    destruct (parse_options rest false None). reflexivity. }
  intros Hno.
  assert (Hext : forall r e,
             parse_options (opts ++ lit "--ext" :: value :: rest) r e
             = parse_options rest (r || existsb is_regex_flag opts)
                 (Some value)).
  { intros r e. rewrite parse_options_flags by exact Hno. reflexivity. }
  split; [|split; [|split]].
  - apply parse_options_no_ext, Hno.
  - rewrite parse_options_flags by exact Hno. reflexivity.
  - apply Hext.
  - intros Hrest Hd. unfold main. rewrite Hd. cbn [negb].
    rewrite Hext, (parse_options_no_ext rest _ _ Hrest). reflexivity.
Qed.

Lemma main_reads_options_witness :
  let is_dir := fun p => bytes_eqb p testDir in
  main [lit "dirscan"; lit "needle"; testDir; lit "--ext"; lit ".txt";
        lit "--regex"] is_dir
  = CallsSearch (lit "needle") testDir true (Some (lit ".txt"))
  /\ main [lit "dirscan"; lit "needle"; testDir; lit "--ext"; lit "--regex"]
       is_dir
     = CallsSearch (lit "needle") testDir false (Some (lit "--regex"))
  /\ main [lit "dirscan"; lit "needle"; testDir; lit "-v"; lit "--regex";
           lit "--ext"] is_dir
     = CallsSearch (lit "needle") testDir true None
  /\ parse_options [lit "--ext"; lit "a"; lit "--ext"; lit "b"] false None
     = (false, Some (lit "b")).
Proof.
  intros is_dir.
  destruct (main_reads_options (lit "dirscan") (lit "needle") testDir
              (lit ".txt") [] [lit "--regex"] is_dir false None)
    as [_ [_ [_ [_ [_ H1]]]]].
  destruct (H1 eq_refl) as [_ [_ [_ H1']]].
  destruct (main_reads_options (lit "dirscan") (lit "needle") testDir
              (lit "--regex") [] [] is_dir false None)
    as [_ [_ [_ [_ [_ H2]]]]].
  destruct (H2 eq_refl) as [_ [_ [_ H2']]].
  destruct (main_reads_options (lit "dirscan") (lit "needle") testDir
              [] [lit "-v"; lit "--regex"] [lit "-v"; lit "--regex";
                                            lit "--ext"] is_dir false None)
    as [_ [_ [_ [_ [H3 H3']]]]].
  destruct (H3' eq_refl) as [_ [H3'' _]].
  destruct (main_reads_options (lit "dirscan") (lit "needle") testDir
              (lit "a") [] [lit "--ext"; lit "b"] is_dir false None)
    as [_ [_ [_ [_ [_ H4]]]]].
  destruct (H4 eq_refl) as [_ [_ [H4' _]]].
  split; [exact (H1' eq_refl eq_refl)|].
  split; [exact (H2' eq_refl eq_refl)|].
  split.
  - etransitivity; [exact (H3 eq_refl)|].
    exact (f_equal
             (fun pr => CallsSearch (lit "needle") testDir (fst pr) (snd pr))
             H3'').
  - exact H4'.
Defined.

(** ** Filters without wildcards *)

Lemma glob_node_literal (c : ascii) :
  is_wildcard c = false -> glob_node c = Ecma.One (Ecma.Char c).
Proof.
  unfold is_wildcard, glob_node. intros H.
  apply orb_false_iff in H as [-> ->]. reflexivity.
Qed.

Lemma literal_nodes_match (pat name : bytes) (bol : bool) :
  existsb is_wildcard pat = false ->
  Ecma.match_here true true (map glob_node pat ++ [Ecma.Eol]) bol name = true
  <-> map Ecma.lower name = map Ecma.lower pat.
Proof.
  revert name bol. induction pat as [|c pat IH]; intros name bol Hpat.
  - destruct name; simpl; split; intros H; try reflexivity; discriminate.
  - simpl in Hpat. apply orb_false_iff in Hpat as [Hc Hpat].
    cbn [map app]. rewrite (glob_node_literal c Hc).
    cbn [Ecma.match_here Ecma.atom_ok].
    destruct name as [|x name]; [split; discriminate|].
    rewrite andb_true_iff, Ascii.eqb_eq, (IH name false Hpat).
    cbn [map]. split.
    + intros [-> ->]. reflexivity.
    + intros [= -> ->]. auto.
Qed.

(** X10: a filter without [*] and [?] accepts a file name only if it is
    the filter text itself, letters compared without case; the producer
    then pushes only files so named.  The usage of [main] gives
    [--ext .txt]: that filter selects the files named [.txt], not the
    files that end in [.txt]. *)
Theorem literal_filter_needs_whole_name
    (pat name : bytes) (directory p : path) (tree : walk) :
  existsb is_wildcard pat = false ->
  exists r,
    compile_filter Ecma.compile (Some pat) = Some (Some r)
    /\ (matchesWildcard Ecma.regex_match name r = true
        <-> map Ecma.lower name = map Ecma.lower pat)
    /\ (In p (pushed (producer Ecma.regex_match (Some r) directory tree)) ->
        map Ecma.lower (filename p) = map Ecma.lower pat).
Proof.
  intros Hpat. eexists.
  split; [apply compile_wildcard_filter|].
  assert (Hiff : forall name,
             matchesWildcard Ecma.regex_match name
               {| Ecma.icase := true;
                  Ecma.nodes := Ecma.Bol :: map glob_node pat
                                  ++ [Ecma.Eol] |} = true
             <-> map Ecma.lower name = map Ecma.lower pat).
  { intros n. unfold matchesWildcard, Ecma.regex_match.
    cbn [Ecma.icase Ecma.nodes Ecma.match_here andb].
    apply literal_nodes_match, Hpat. }
  split; [apply Hiff|].
  intros Hin. apply Hiff. unfold matchesWildcard.
  apply (producer_pushed Ecma.regex Ecma.regex_match _ directory tree p Hin).
Qed.

Lemma literal_filter_needs_whole_name_witness :
  main [lit "dirscan"; lit "needle"; lit "d"; lit "--ext"; lit ".txt"]
    (fun _ => true)
  = CallsSearch (lit "needle") (lit "d") false (Some (lit ".txt"))
  /\ option_map
       (fun wr => pushed (producer Ecma.regex_match wr (lit "d") txt_log_tree))
       (compile_filter Ecma.compile (Some (lit ".txt")))
     = Some []
  /\ map Ecma.lower (lit "a.txt") <> map Ecma.lower (lit ".txt").
Proof.
  destruct (literal_filter_needs_whole_name (lit ".txt") (lit "a.txt")
              (lit "d") (lit "d/a.txt") txt_log_tree eq_refl)
    as [r [Hr [Hiff _]]].
  split; [reflexivity|]. split; [reflexivity|].
  intros Heq. apply Hiff in Heq.
  rewrite compile_wildcard_filter in Hr. injection Hr as <-.
  vm_compute in Heq. discriminate.
Defined.

(** ** The producer, again *)

Section TraversalFacts.

Variable regex : Type.
Variable regex_match : regex -> bytes -> bool.

Lemma reported_app (a b : list producer_action) :
  reported (a ++ b) = reported a ++ reported b.
Proof.
  induction a as [|[p|e|] a IH]; simpl; rewrite ?IH; reflexivity.
Qed.

Lemma entry_step_effect (wr : option regex) (e : directory_entry) :
  pushed (entry_step regex_match wr e)
  = (if passes regex_match wr e then [entry_path e] else [])
  /\ reported (entry_step regex_match wr e) = entry_errors e.
Proof.
  unfold entry_step, entry_body, passes, entry_errors, matchesWildcard.
  destruct (is_regular_file e) as [[|]|what]; [|split; reflexivity ..].
  destruct wr as [r|]; [|split; reflexivity].
  destruct (regex_match r (filename (entry_path e))); split; reflexivity.
Qed.

Lemma walk_body_effect (wr : option regex) (w : walk) :
  pushed (fst (walk_body regex_match wr w))
  = map entry_path (filter (passes regex_match wr) (walk_entries w))
  /\ reported (fst (walk_body regex_match wr w))
     = flat_map entry_errors (walk_entries w)
  /\ snd (walk_body regex_match wr w) = walk_failure w.
Proof.
  induction w as [|what|e rest [IHp [IHr IHf]]]; simpl;
    [repeat split .. |].
  destruct (walk_body regex_match wr rest) as [acts ex]. simpl in *.
  destruct (entry_step_effect wr e) as [Hp Hr].
  rewrite pushed_app, reported_app, Hp, Hr, IHp, IHr.
  split; [|split; [reflexivity | exact IHf]].
  destruct (passes regex_match wr e); reflexivity.
Qed.

Lemma pushed_by_producer (wr : option regex)
    (directory : path) (w : walk) :
  pushed (producer regex_match wr directory w)
  = map entry_path (filter (passes regex_match wr) (walk_entries w)).
Proof.
  rewrite producer_split. unfold producer_body.
  destruct (walk_body_effect wr w) as [Hp [_ Hf]].
  rewrite !pushed_app, Hp, Hf.
  destruct (walk_failure w); simpl; rewrite ?app_nil_r; reflexivity.
Qed.

(** X11: the producer pushes, in the order of the traversal, every entry
    that is a regular file and whose name the filter accepts, and nothing
    else.  An entry whose inspection throws is skipped and reported in
    [lastError], and the traversal goes on; an exception that ends the
    traversal is reported after them, and what was yielded before it is
    still pushed.  The messages hold the two characters [/n], not a line
    feed. *)
Theorem producer_pushes_accepted_files
    (wr : option regex) (directory : path) (w : walk) :
  pushed (producer regex_match wr directory w)
  = map entry_path (filter (passes regex_match wr) (walk_entries w))
  /\ reported (producer regex_match wr directory w)
     = flat_map entry_errors (walk_entries w)
         ++ match walk_failure w with
            | Some what =>
                [lit "Error scanning directory: " ++ directory ++ lit "/n"
                   ++ what]
            | None => []
            end.
Proof.
  rewrite producer_split. unfold producer_body.
  destruct (walk_body_effect wr w) as [Hp [Hr Hf]].
  rewrite !pushed_app, !reported_app, Hp, Hr, Hf.
  destruct (walk_failure w); simpl; rewrite ?app_nil_r; split; reflexivity.
Qed.

End TraversalFacts.

(** ** Progress of a scan *)

Lemma stop_worker_not_nil (i : nat) (ws : list bool) :
  ws <> [] -> stop_worker i ws <> [].
Proof.
  destruct ws as [|b ws]; [congruence|]. destruct i; discriminate.
Qed.

Lemma all_stopped_not_running (ws : list bool) :
  ws <> [] -> forallb negb ws = true -> forallb (fun b => b) ws = false.
Proof.
  destruct ws as [|b ws]; [congruence|]. simpl. intros _ H.
  apply andb_true_iff in H as [Hb _]. destruct b; [discriminate|reflexivity].
Qed.

Section ProgressFacts.

Variable regex : Type.
Variable regex_compile : bool -> bytes -> option regex.
Variable regex_search : regex -> bytes -> bool.
Variable regex_match : regex -> bytes -> bool.
Variable fs : path -> option bytes.
Variable query : bytes.
Variable use_regex : bool.

Local Notation step' := (step regex_compile regex_search fs query use_regex).
Local Notation run' := (run regex_compile regex_search fs query use_regex).
Local Notation pops' := (pops regex_compile regex_search fs query use_regex).

Lemma spawn_inv (wr : option regex) (directory : path) (hw : nat)
    (tree : walk) (w : World) :
  scan_inv (spawn regex_match wr directory hw tree w).
Proof.
  unfold scan_inv, spawn, producer_inv. cbn [fileQueue workers producer_todo].
  split; [simpl; unfold MAX_QUEUE_SIZE; lia|].
  split.
  { destruct (Nat.max 1 hw) eqn:E; [lia | discriminate]. }
  split.
  - left. split; [reflexivity|].
    exists (producer_body regex_match wr directory tree).
    split; [apply producer_split | apply producer_body_no_finish].
  - left. induction (Nat.max 1 hw); simpl; auto.
Qed.

Lemma step_inv (s : system) (t : thread) :
  scan_inv s -> scan_inv (step' s t).
Proof.
  intros [Hcap [Hws [Hprod Hrun]]]. destruct t as [|i]; simpl.
  - unfold producer_step.
    destruct Hprod as [[Hf [body [Htodo Hbody]]]|[Hf Htodo]].
    + rewrite Htodo.
      destruct body as [|a body]; cbn [app].
      * unfold scan_inv, producer_inv. cbn [fileQueue workers producer_todo].
        split; [exact Hcap|]. split; [exact Hws|].
        split; [right; split; reflexivity|].
        destruct Hrun as [Hrun|[_ Hd]]; [left; exact Hrun | congruence].
      * assert (Hbody' : filter is_setFinished body = []
                         /\ is_setFinished a = false).
        { simpl in Hbody. destruct (is_setFinished a); [discriminate|auto]. }
        destruct Hbody' as [Hbody' Ha].
        assert (Hrun' : forallb (fun b => b) (workers s) = true).
        { destruct Hrun as [Hrun|[_ Hd]]; [exact Hrun | congruence]. }
        destruct a as [p|e|]; [| |discriminate].
        -- destruct (push_cases p (fileQueue s))
             as [[-> _]|[[_ Ht]|[-> _]]]; [| congruence |].
           ++ unfold scan_inv, producer_inv. rewrite Htodo.
              split; [exact Hcap|]. split; [exact Hws|].
              split; [|left; exact Hrun'].
              left. split; [exact Hf|]. exists (DoPush p :: body).
              split; [reflexivity | exact Hbody].
           ++ unfold scan_inv, producer_inv.
              cbn [fileQueue workers producer_todo maxSize_ finished_].
              split; [exact Hcap|]. split; [exact Hws|].
              split; [|left; exact Hrun'].
              left. split; [exact Hf|]. exists body. auto.
        -- unfold scan_inv, producer_inv.
           cbn [fileQueue workers producer_todo].
           split; [exact Hcap|]. split; [exact Hws|].
           split; [|left; exact Hrun'].
           left. split; [exact Hf|]. exists body. auto.
    + rewrite Htodo. unfold scan_inv, producer_inv.
      split; [exact Hcap|]. split; [exact Hws|].
      split; [right; auto | exact Hrun].
  - unfold worker_step.
    destruct (nth i (workers s) false) eqn:Hi;
      [|unfold scan_inv; auto].
    unfold pop.
    destruct (negb (empty (fileQueue s)) || finished_ (fileQueue s)) eqn:Hen;
      [|unfold scan_inv; auto].
    destruct (queue_ (fileQueue s)) as [|p rest] eqn:Hq.
    + unfold empty in Hen. rewrite Hq in Hen. simpl in Hen.
      unfold scan_inv, producer_inv. cbn [fileQueue workers producer_todo].
      split; [exact Hcap|]. split; [apply stop_worker_not_nil, Hws|].
      split; [exact Hprod|]. right. split; assumption.
    + unfold scan_inv, producer_inv.
      cbn [fileQueue workers producer_todo maxSize_ finished_].
      split; [exact Hcap|]. split; [exact Hws|].
      split; [exact Hprod|].
      destruct Hrun as [Hrun|[Hd _]]; [left; exact Hrun | congruence].
Qed.

Lemma run_inv (schedule : list thread) (s : system) :
  scan_inv s -> scan_inv (run' schedule s).
Proof.
  revert s. induction schedule as [|t ts IH]; intros s Hs; simpl;
    [exact Hs|].
  apply IH, step_inv, Hs.
Qed.

End ProgressFacts.

Section CompletionFacts.

Variable regex : Type.
Variable regex_compile : bool -> bytes -> option regex.
Variable regex_search : regex -> bytes -> bool.
Variable regex_match : regex -> bytes -> bool.
Variable fs : path -> option bytes.
Variable query : bytes.
Variable use_regex : bool.

Local Notation step' := (step regex_compile regex_search fs query use_regex).
Local Notation run' := (run regex_compile regex_search fs query use_regex).
Local Notation pops' := (pops regex_compile regex_search fs query use_regex).

Lemma step_conserves (s : system) (t : thread) :
  scan_inv s ->
  pop_of s t ++ queue_ (fileQueue (step' s t))
    ++ pushed (producer_todo (step' s t))
  = queue_ (fileQueue s) ++ pushed (producer_todo s).
Proof.
  intros [_ [_ [Hprod _]]]. destruct t as [|i]; simpl.
  - unfold producer_step.
    destruct (producer_todo s) as [|[p|e|] rest] eqn:Htodo.
    + now rewrite Htodo.
    + assert (Hf : finished_ (fileQueue s) = false).
      { destruct Hprod as [[Hf _]|[_ H]]; [exact Hf | congruence]. }
      destruct (push_cases p (fileQueue s)) as [[-> _]|[[_ Ht]|[-> _]]];
        [now rewrite Htodo | congruence |].
      simpl. now rewrite <- app_assoc.
    + reflexivity.
    + reflexivity.
  - unfold worker_step.
    destruct (nth i (workers s) false); [|reflexivity].
    unfold pop.
    destruct (negb (empty (fileQueue s)) || finished_ (fileQueue s));
      [|reflexivity].
    destruct (queue_ (fileQueue s)) as [|p rest] eqn:Hq; simpl.
    + now rewrite Hq.
    + reflexivity.
Qed.

Lemma run_conserves (schedule : list thread) (s : system) :
  scan_inv s ->
  pops' schedule s ++ queue_ (fileQueue (run' schedule s))
    ++ pushed (producer_todo (run' schedule s))
  = queue_ (fileQueue s) ++ pushed (producer_todo s).
Proof.
  revert s. induction schedule as [|t ts IH]; intros s Hs; [reflexivity|].
  cbn [pops run fold_left]. rewrite <- app_assoc.
  unfold run in IH. rewrite (IH _ (step_inv _ _ _ _ _ _ s t Hs)).
  apply step_conserves, Hs.
Qed.

Lemma joined_drained (s : system) :
  scan_inv s -> all_joined s = true ->
  producer_todo s = [] /\ drained (fileQueue s).
Proof.
  intros [_ [Hws [_ Hrun]]] Hj. unfold all_joined in Hj.
  destruct (producer_todo s); [|discriminate].
  split; [reflexivity|].
  destruct Hrun as [Hrun|Hd]; [|exact Hd].
  rewrite (all_stopped_not_running (workers s) Hws Hj) in Hrun.
  discriminate.
Qed.

(** X13: no path is lost or handed out twice.  At every moment of a scan
    the paths popped by the workers, the paths queued and the paths still
    to be pushed are, in this order, the paths the producer pushes.  When
    all threads have returned the queue is empty and finished, and the
    workers have popped every regular file that passed the filter, once,
    in the order of the traversal. *)
Theorem every_pushed_path_is_popped_once
    (wr : option regex) (directory : path) (hardware_concurrency : nat)
    (tree : walk) (w : World) (schedule : list thread) :
  let s0 := spawn regex_match wr directory hardware_concurrency tree w in
  let s := run' schedule s0 in
  pops' schedule s0 ++ queue_ (fileQueue s) ++ pushed (producer_todo s)
  = pushed (producer regex_match wr directory tree)
  /\ (all_joined s = true ->
      queue_ (fileQueue s) = []
      /\ finished_ (fileQueue s) = true
      /\ pops' schedule s0
         = map entry_path
             (filter (passes regex_match wr) (walk_entries tree))).
Proof.
  intros s0 s.
  assert (Hinv0 : scan_inv s0) by apply spawn_inv.
  pose proof (run_conserves schedule s0 Hinv0) as Hcons.
  fold s in Hcons. simpl in Hcons.
  split; [exact Hcons|].
  intros Hj.
  destruct (joined_drained s (run_inv _ _ _ _ _ _ schedule s0 Hinv0) Hj)
    as [Htodo [Hq Hf]].
  split; [exact Hq|]. split; [exact Hf|].
  rewrite Hq, Htodo in Hcons. simpl in Hcons. rewrite app_nil_r in Hcons.
  rewrite Hcons.
  apply (pushed_by_producer regex regex_match).
Qed.

End CompletionFacts.

Lemma every_pushed_path_is_popped_once_witness :
  let s0 := spawn Ecma.regex_match None testDir 2 test_tree world_init in
  let schedule := [Producer; Worker 1; Producer; Producer; Worker 0;
                   Worker 0; Worker 1] in
  let s := run Ecma.compile Ecma.regex_search test_fs (lit "needle") false
             schedule s0 in
  all_joined s = true
  /\ queue_ (fileQueue s) = []
  /\ pops Ecma.compile Ecma.regex_search test_fs (lit "needle") false
       schedule s0 = [file1; file2].
Proof.
  intros s0 schedule s.
  destruct (every_pushed_path_is_popped_once Ecma.regex Ecma.compile
              Ecma.regex_search Ecma.regex_match test_fs (lit "needle") false
              None testDir 2 test_tree world_init schedule) as [_ H].
  assert (Hj : all_joined s = true) by reflexivity.
  destruct (H Hj) as [Hq [_ Hpops]].
  split; [exact Hj|]. split; [exact Hq|]. exact Hpops.
Defined.

(** ** The monitor's test *)

Lemma run_ops_finished (ops : list queue_op) (q : BoundedFileQueue) :
  finished_ q = true -> finished_ (run_ops ops q) = true.
Proof.
  revert q. induction ops as [|op ops IH]; intros q Hf; [exact Hf|].
  apply IH. apply (exec_op_after_finish q op Hf).
Qed.

(** X15: the monitor reads [isFinished] and [isEmpty] in two separate
    calls.  If the first returned true and the second, after whatever
    calls of other threads came between, returns true, the queue is
    drained for good: after any further calls it is still finished and
    empty and [pop] returns false. *)
Theorem monitor_test_is_stable
    (q : BoundedFileQueue) (between later : list queue_op) :
  isFinished q = true ->
  isEmpty (run_ops between q) = true ->
  let q' := run_ops later (run_ops between q) in
  isFinished q' = true /\ isEmpty q' = true /\ pop q' = PopFalse.
Proof.
  intros Hf He q'.
  assert (Hd : drained (run_ops between q)).
  { split; [|apply run_ops_finished, Hf].
    unfold isEmpty, empty in He.
    destruct (queue_ (run_ops between q)); [reflexivity | discriminate]. }
  pose proof (run_ops_drained later _ Hd) as [Hq' Hf'].
  fold q' in Hq', Hf'.
  split; [exact Hf'|]. split; [unfold isEmpty, empty; now rewrite Hq'|].
  apply pop_drained. split; assumption.
Qed.

Lemma monitor_test_is_stable_witness :
  let q := setFinished {| queue_ := [lit "a"]; maxSize_ := 2;
                          finished_ := false |} in
  isFinished q = true
  /\ isEmpty (run_ops [OpPop] q) = true
  /\ pop (run_ops [OpPush (lit "b"); OpPop] (run_ops [OpPop] q)) = PopFalse.
Proof.
  intros q.
  destruct (monitor_test_is_stable q [OpPop] [OpPush (lit "b"); OpPop]
              eq_refl eq_refl) as [_ [_ H]].
  split; [reflexivity|]. split; [reflexivity | exact H].
Defined.

(** ** The size of a translated wildcard *)

Lemma wildcard_char_length (c : ascii) : length (wildcard_char c) <= 2.
Proof.
  unfold wildcard_char.
  destruct (Ascii.eqb c "*"); [simpl; lia|].
  destruct (Ascii.eqb c "?"); [simpl; lia|].
  destruct (regex_special c); simpl; lia.
Qed.

(** X16: the pattern made of a wildcard is never longer than the
    [2 * size + 2] characters that [wildcardToRegex] reserves for it, and
    it starts with [^] and ends with [$]. *)
Theorem wildcardToRegex_fits_reserve (wildcard : bytes) :
  length (wildcardToRegex wildcard) <= length wildcard * 2 + 2
  /\ starts_with (lit "^") (wildcardToRegex wildcard) = true
  /\ ends_with (lit "$") (wildcardToRegex wildcard) = true.
Proof.
  rewrite wildcardToRegex_flat_map. split; [|split].
  - cbn [length]. rewrite length_app. simpl (length (lit "$")).
    induction wildcard as [|c w IH]; simpl; [lia|].
    rewrite length_app. pose proof (wildcard_char_length c). lia.
  - reflexivity.
  - unfold ends_with.
    change ("^"%char :: flat_map wildcard_char wildcard ++ lit "$")
      with (("^"%char :: flat_map wildcard_char wildcard) ++ lit "$").
    rewrite rev_app_distr. reflexivity.
Qed.

(** ** Waiting and waking *)

Lemma set_worker_length (i : nat) (x : worker_state)
    (ws : list worker_state) :
  length (set_worker i x ws) = length ws.
Proof.
  revert i. induction ws as [|w ws IH]; intros [|i]; simpl; auto.
Qed.

Lemma nth_worker_lt (i : nat) (ws : list worker_state) :
  nth i ws Exited <> Exited -> i < length ws.
Proof.
  revert i. induction ws as [|w ws IH]; intros [|i] H; simpl in *;
    try congruence; try lia.
  apply IH in H. lia.
Qed.

Lemma sum_set_worker (f : worker_state -> nat) (i : nat) (x : worker_state)
    (ws : list worker_state) :
  i < length ws ->
  sum_over f (set_worker i x ws) + f (nth i ws Exited) = sum_over f ws + f x.
Proof.
  revert i. induction ws as [|w ws IH]; intros [|i] H; simpl in *;
    try lia.
  assert (Hi : i < length ws) by lia. specialize (IH i Hi).
  unfold sum_over in *. lia.
Qed.

Lemma in_set_worker (i : nat) (x y : worker_state) (ws : list worker_state) :
  In y (set_worker i x ws) -> y = x \/ In y ws.
Proof.
  revert i. induction ws as [|w ws IH]; intros [|i] H; simpl in *; auto.
  - destruct H as [H|H]; auto.
  - destruct H as [H|H]; auto. destruct (IH i H); auto.
Qed.

Lemma existsb_set_worker (f : worker_state -> bool) (i : nat)
    (x : worker_state) (ws : list worker_state) :
  i < length ws -> f x = true -> existsb f (set_worker i x ws) = true.
Proof.
  revert i. induction ws as [|w ws IH]; intros [|i] H Hx; simpl in *;
    try lia.
  - now rewrite Hx.
  - rewrite IH by (auto; lia). apply orb_true_r.
Qed.

Lemma existsb_set_worker_false (f : worker_state -> bool) (i : nat)
    (x : worker_state) (ws : list worker_state) :
  existsb f ws = false -> f x = false ->
  existsb f (set_worker i x ws) = false.
Proof.
  revert i. induction ws as [|w ws IH]; intros [|i] H Hx; simpl in *; auto.
  - apply orb_false_iff in H as [_ H]. now rewrite Hx.
  - apply orb_false_iff in H as [Hw H]. rewrite Hw. now apply IH.
Qed.

Lemma holding_set_worker (i : nat) (x : worker_state)
    (ws : list worker_state) :
  i < length ws ->
  Permutation (held (nth i ws Exited) ++ holding (set_worker i x ws))
    (held x ++ holding ws).
Proof.
  unfold holding.
  revert i. induction ws as [|w ws IH]; intros [|i] H; simpl in *;
    try lia.
  - apply Permutation_app_swap_app.
  - assert (Hi : i < length ws) by lia. specialize (IH i Hi).
    rewrite !app_assoc.
    etransitivity;
      [apply Permutation_app_tail, Permutation_app_comm|].
    rewrite <- !app_assoc.
    etransitivity; [apply Permutation_app_head, IH|].
    rewrite !app_assoc. apply Permutation_app_tail, Permutation_app_comm.
Qed.

Lemma wake_first_length (ws : list worker_state) :
  length (wake_first ws) = length ws.
Proof.
  induction ws as [|[[|]|p acts|] ws IH]; simpl; auto.
Qed.

Lemma wake_first_sum (f : worker_state -> nat) (ws : list worker_state) :
  f (Popping true) = f (Popping false) ->
  sum_over f (wake_first ws) = sum_over f ws.
Proof.
  intros Hf. induction ws as [|[[|]|p acts|] ws IH]; simpl; auto;
    unfold sum_over in *; simpl; lia.
Qed.

Lemma wake_first_holding (ws : list worker_state) :
  holding (wake_first ws) = holding ws.
Proof.
  unfold holding.
  induction ws as [|[[|]|p acts|] ws IH]; simpl; auto.
  now rewrite IH.
Qed.

Lemma wake_first_exited (ws : list worker_state) :
  In Exited (wake_first ws) -> In Exited ws.
Proof.
  induction ws as [|[[|]|p acts|] ws IH]; simpl; auto;
    intros [H|H]; auto; discriminate.
Qed.

Lemma wake_first_awake (ws : list worker_state) :
  existsb worker_awake ws = true \/ existsb worker_waits ws = true ->
  existsb worker_awake (wake_first ws) = true.
Proof.
  induction ws as [|[[|]|p acts|] ws IH]; simpl; auto.
  intros [H|H]; discriminate.
Qed.

Lemma notify_one_length (k : nat) (ws : list worker_state) :
  length (notify_one_consumer k ws) = length ws.
Proof.
  unfold notify_one_consumer.
  destruct (nth k ws Exited) as [[|]|p acts|];
    auto using wake_first_length, set_worker_length.
Qed.

Lemma notify_one_sum (f : worker_state -> nat) (k : nat)
    (ws : list worker_state) :
  f (Popping true) = f (Popping false) ->
  sum_over f (notify_one_consumer k ws) = sum_over f ws.
Proof.
  intros Hf. unfold notify_one_consumer.
  destruct (nth k ws Exited) as [[|]|p acts|] eqn:Hk;
    auto using wake_first_sum.
  assert (Hlt : k < length ws) by (apply nth_worker_lt; congruence).
  pose proof (sum_set_worker f k (Popping false) ws Hlt) as H.
  rewrite Hk in H. lia.
Qed.

Lemma notify_one_holding (k : nat) (ws : list worker_state) :
  Permutation (holding (notify_one_consumer k ws)) (holding ws).
Proof.
  unfold notify_one_consumer.
  destruct (nth k ws Exited) as [[|]|p acts|] eqn:Hk;
    try (rewrite wake_first_holding; apply Permutation_refl).
  assert (Hlt : k < length ws) by (apply nth_worker_lt; congruence).
  pose proof (holding_set_worker k (Popping false) ws Hlt) as H.
  rewrite Hk in H. exact H.
Qed.

Lemma notify_one_exited (k : nat) (ws : list worker_state) :
  In Exited (notify_one_consumer k ws) -> In Exited ws.
Proof.
  unfold notify_one_consumer.
  destruct (nth k ws Exited) as [[|]|p acts|];
    auto using wake_first_exited.
  intros H. apply in_set_worker in H as [H|H]; [discriminate | exact H].
Qed.

Lemma notify_one_awake (k : nat) (ws : list worker_state) :
  existsb worker_awake ws = true \/ existsb worker_waits ws = true ->
  existsb worker_awake (notify_one_consumer k ws) = true.
Proof.
  unfold notify_one_consumer.
  destruct (nth k ws Exited) as [[|]|p acts|] eqn:Hk;
    auto using wake_first_awake.
  intros _. apply existsb_set_worker; [|reflexivity].
  apply nth_worker_lt. congruence.
Qed.

Lemma notify_all_sum (f : worker_state -> nat) (ws : list worker_state) :
  f (Popping true) = f (Popping false) ->
  sum_over f (notify_all_consumers ws) = sum_over f ws.
Proof.
  intros Hf. unfold notify_all_consumers, sum_over.
  induction ws as [|[[|]|p acts|] ws IH]; simpl; auto; lia.
Qed.

Lemma notify_all_holding (ws : list worker_state) :
  holding (notify_all_consumers ws) = holding ws.
Proof.
  unfold notify_all_consumers, holding.
  induction ws as [|[[|]|p acts|] ws IH]; simpl; auto. now rewrite IH.
Qed.

Lemma notify_all_exited (ws : list worker_state) :
  In Exited (notify_all_consumers ws) -> In Exited ws.
Proof.
  unfold notify_all_consumers.
  induction ws as [|[[|]|p acts|] ws IH]; simpl; auto;
    intros [H|H]; auto; discriminate.
Qed.

Lemma notify_all_no_waiter (ws : list worker_state) :
  existsb worker_waits (notify_all_consumers ws) = false.
Proof.
  unfold notify_all_consumers.
  induction ws as [|[[|]|p acts|] ws IH]; simpl; auto.
Qed.

Lemma notify_all_awake (ws : list worker_state) :
  ws <> [] -> ~ In Exited ws ->
  existsb worker_awake (notify_all_consumers ws) = true.
Proof.
  unfold notify_all_consumers.
  destruct ws as [|[[|]|p acts|] ws]; simpl; try congruence; auto;
    try (intros _ H; exfalso; auto).
Qed.

Lemma waits_or_awake (ws : list worker_state) :
  ws <> [] -> ~ In Exited ws ->
  existsb worker_awake ws = true \/ existsb worker_waits ws = true.
Proof.
  destruct ws as [|[[|]|p acts|] ws]; simpl; try congruence; auto;
    try (intros _ H; exfalso; auto).
Qed.

Lemma not_nil_length {A : Type} (l l' : list A) :
  length l' = length l -> l <> [] -> l' <> [].
Proof.
  destruct l, l'; simpl; congruence.
Qed.

Lemma awake_worker_exists (ws : list worker_state) :
  existsb worker_awake ws = true ->
  exists i, worker_awake (nth i ws Exited) = true.
Proof.
  induction ws as [|w ws IH]; simpl; [discriminate|].
  destruct (worker_awake w) eqn:Hw.
  - intros _. now exists 0.
  - simpl. intros H. destruct (IH H) as [i Hi]. now exists (S i).
Qed.

Lemma not_all_exited (ws : list worker_state) :
  forallb is_exited ws = false ->
  exists i, nth i ws Exited <> Exited.
Proof.
  induction ws as [|w ws IH]; simpl; [discriminate|].
  destruct w as [b|p acts|]; simpl.
  - intros _. exists 0. discriminate.
  - intros _. exists 0. discriminate.
  - intros H. destruct (IH H) as [i Hi]. now exists (S i).
Qed.

Lemma nth_in_workers (i : nat) (ws : list worker_state) :
  nth i ws Exited <> Exited -> In (nth i ws Exited) ws.
Proof.
  intros H. apply nth_In, nth_worker_lt, H.
Qed.

Lemma no_waiter_nth (i : nat) (ws : list worker_state) :
  existsb worker_waits ws = false -> nth i ws Exited <> Popping true.
Proof.
  intros Hno Hi.
  assert (Hin : In (Popping true) ws).
  { rewrite <- Hi. apply nth_in_workers. rewrite Hi. discriminate. }
  assert (Hex : existsb worker_waits ws = true).
  { apply existsb_exists. exists (Popping true). auto. }
  congruence.
Qed.

Lemma set_worker_same (i : nat) (ws : list worker_state) :
  set_worker i (nth i ws Exited) ws = ws.
Proof.
  revert i. induction ws as [|w ws IH]; intros [|i]; simpl; auto.
  now rewrite IH.
Qed.

Lemma start_threads_inv (body : list producer_action) (n : nat) (w : World) :
  filter is_setFinished body = [] -> 0 < n ->
  threads_inv (start_threads (body ++ [DoSetFinished]) n w).
Proof.
  intros Hbody Hn. unfold threads_inv, start_threads. simpl.
  split; [unfold MAX_QUEUE_SIZE; lia|].
  split; [destruct n; [lia | discriminate]|].
  split; [left; split; [reflexivity|]; exists body; auto|].
  split; [discriminate|].
  split.
  { intros H. apply repeat_spec in H. discriminate. }
  split; [discriminate|]. congruence.
Qed.

Section WaitFacts.

Variable actions_of : path -> list worker_action.

Local Notation happens' := (happens actions_of).
Local Notation unfold_events' := (unfold_events actions_of).

Lemma producer_acts_inv (k : nat) (s : threads) :
  threads_inv s -> threads_inv (producer_acts k s).
Proof.
  intros Hinv. pose proof Hinv as [H1 [H2 [H3 [H4 [H5 [H6 H7]]]]]].
  unfold producer_acts.
  destruct (t_producer_waiting s) eqn:Hw; [exact Hinv|].
  destruct (t_producer s) as [|a rest] eqn:Htodo; [exact Hinv|].
  destruct H3 as [[Hf [body [Hbody Hnof]]]|[_ Hnil]]; [|discriminate].
  assert (Hnoex : ~ In Exited (t_workers s)).
  { intros Hin. destruct (H5 Hin) as [_ Hd]. congruence. }
  destruct body as [|b body]; cbn [app] in Hbody.
  - (* the last action: setFinished *)
    injection Hbody as -> ->.
    unfold threads_inv. cbn [t_queue t_producer t_producer_waiting t_workers
                               setFinished maxSize_ finished_ queue_].
    split; [exact H1|].
    split; [apply (not_nil_length (t_workers s)); [apply length_map | exact H2]|].
    split; [right; auto|].
    split; [discriminate|].
    split; [intros Hin; apply notify_all_exited in Hin; contradiction|].
    split; [intros _; apply notify_all_no_waiter|].
    intros _. apply notify_all_awake; assumption.
  - injection Hbody as -> ->.
    assert (Hnof' : is_setFinished b = false
                    /\ filter is_setFinished body = []).
    { simpl in Hnof. destruct (is_setFinished b); [discriminate | auto]. }
    destruct Hnof' as [Hb Hnof'].
    assert (Hleft : finished_ (t_queue s) = false
                    /\ exists body0,
                         body ++ [DoSetFinished] = body0 ++ [DoSetFinished]
                         /\ filter is_setFinished body0 = []).
    { split; [exact Hf|]. exists body. auto. }
    destruct b as [p|e|]; [| |discriminate].
    + destruct (push_cases p (t_queue s))
        as [[-> [Hge _]]|[[_ Ht]|[-> _]]]; [| congruence |].
      * unfold threads_inv. cbn [t_queue t_producer t_producer_waiting
                                   t_workers].
        split; [exact H1|]. split; [exact H2|].
        split; [left; split; [exact Hf|];
                exists (DoPush p :: body); split;
                [reflexivity | simpl; exact Hnof']|].
        split; [intros _; auto|].
        split; [exact H5|]. split; [exact H6 | exact H7].
      * rewrite Hf. unfold threads_inv.
        cbn [t_queue t_producer t_producer_waiting t_workers maxSize_
               finished_ queue_].
        split; [exact H1|].
        split; [apply (not_nil_length (t_workers s));
                [apply notify_one_length | exact H2]|].
        split; [left; split; [reflexivity | exact (proj2 Hleft)]|].
        split; [discriminate|].
        split; [intros Hin; apply notify_one_exited in Hin; contradiction|].
        split; [congruence|].
        intros _. apply notify_one_awake, waits_or_awake; assumption.
    + unfold threads_inv. cbn [t_queue t_producer t_producer_waiting
                                 t_workers].
      split; [exact H1|]. split; [exact H2|].
      split; [left; exact Hleft|].
      split; [discriminate|].
      split; [exact H5|]. split; [exact H6 | exact H7].
Qed.

Lemma worker_acts_inv (i : nat) (s : threads) :
  threads_inv s -> threads_inv (worker_acts actions_of i s).
Proof.
  intros Hinv. pose proof Hinv as [H1 [H2 [H3 [H4 [H5 [H6 H7]]]]]].
  unfold worker_acts.
  destruct (nth i (t_workers s) Exited) as [[|]|p acts|] eqn:Hi;
    try exact Hinv.
  - (* in pop, awake *)
    assert (Hlt : i < length (t_workers s))
      by (apply nth_worker_lt; congruence).
    unfold pop.
    destruct (negb (empty (t_queue s)) || finished_ (t_queue s)) eqn:Hen.
    + destruct (queue_ (t_queue s)) as [|p rest] eqn:Hq.
      * unfold empty in Hen. rewrite Hq in Hen. simpl in Hen.
        unfold threads_inv. cbn [t_queue t_producer t_producer_waiting
                                   t_workers].
        unfold drained. rewrite ?Hq.
        split; [exact H1|].
        split; [apply (not_nil_length (t_workers s));
                [apply set_worker_length | exact H2]|].
        split; [exact H3|]. split; [exact H4|].
        split; [intros _; split; auto|].
        split; [intros Hf; apply existsb_set_worker_false; auto|].
        congruence.
      * unfold threads_inv. cbn [t_queue t_producer t_producer_waiting
                                   t_workers maxSize_ finished_ queue_].
        split; [exact H1|].
        split; [apply (not_nil_length (t_workers s));
                [apply set_worker_length | exact H2]|].
        split; [exact H3|]. split; [discriminate|].
        split.
        { intros Hin. apply in_set_worker in Hin as [Hin|Hin];
            [discriminate|].
          destruct (H5 Hin) as [Hd _]. congruence. }
        split; [intros Hf; apply existsb_set_worker_false; auto|].
        intros _. apply existsb_set_worker; auto.
    + apply orb_false_iff in Hen as [Hem Hf].
      unfold threads_inv. cbn [t_queue t_producer t_producer_waiting
                                 t_workers].
      split; [exact H1|].
      split; [apply (not_nil_length (t_workers s));
              [apply set_worker_length | exact H2]|].
      split; [exact H3|]. split; [exact H4|].
      split.
      { intros Hin. apply in_set_worker in Hin as [Hin|Hin];
          [discriminate | auto]. }
      split; [congruence|].
      intros Hq. unfold empty in Hem.
      destruct (queue_ (t_queue s)); [congruence | discriminate].
  - (* searching *)
    assert (Hlt : i < length (t_workers s))
      by (apply nth_worker_lt; congruence).
    assert (Hgen : forall x w',
               worker_awake x = true -> worker_waits x = false ->
               x <> Exited ->
               threads_inv
                 {| t_queue := t_queue s; t_producer := t_producer s;
                    t_producer_waiting := t_producer_waiting s;
                    t_workers := set_worker i x (t_workers s);
                    t_world := w' |}).
    { intros x w' Hx Hx' Hne. unfold threads_inv.
      cbn [t_queue t_producer t_producer_waiting t_workers].
      split; [exact H1|].
      split; [apply (not_nil_length (t_workers s));
              [apply set_worker_length | exact H2]|].
      split; [exact H3|]. split; [exact H4|].
      split.
      { intros Hin. apply in_set_worker in Hin as [Hin|Hin];
          [congruence | auto]. }
      split; [intros Hf; apply existsb_set_worker_false; auto|].
      intros _. apply existsb_set_worker; auto. }
    destruct acts as [|a [|b rest]]; apply Hgen;
      try reflexivity; discriminate.
Qed.

Lemma happens_inv (s : threads) (ev : event) :
  threads_inv s -> threads_inv (happens' s ev).
Proof.
  intros Hinv. destruct ev as [[|i] k|[|i]]; simpl.
  - apply producer_acts_inv, Hinv.
  - apply worker_acts_inv, Hinv.
  - destruct Hinv as [H1 [H2 [H3 [H4 [H5 [H6 H7]]]]]].
    unfold threads_inv. cbn [t_queue t_producer t_producer_waiting t_workers].
    repeat (split; [assumption|]). split; [discriminate|].
    repeat (split; [assumption|]). assumption.
  - destruct (nth i (t_workers s) Exited) as [[|]|p acts|] eqn:Hi;
      cbn [wake];
      try (rewrite <- Hi, set_worker_same; destruct s; exact Hinv).
    destruct Hinv as [H1 [H2 [H3 [H4 [H5 [H6 H7]]]]]].
    assert (Hlt : i < length (t_workers s))
      by (apply nth_worker_lt; congruence).
    unfold threads_inv. cbn [t_queue t_producer t_producer_waiting t_workers].
    split; [exact H1|].
    split; [apply (not_nil_length (t_workers s));
            [apply set_worker_length | exact H2]|].
    split; [exact H3|]. split; [exact H4|].
    split.
    { intros Hin. apply in_set_worker in Hin as [Hin|Hin];
        [discriminate | auto]. }
    split; [intros Hf; apply existsb_set_worker_false; auto|].
    intros _. apply existsb_set_worker; auto.
Qed.

Lemma unfold_events_inv (events : list event) (s : threads) :
  threads_inv s -> threads_inv (unfold_events' events s).
Proof.
  revert s. induction events as [|ev evs IH]; intros s Hs; simpl;
    [exact Hs|].
  apply IH, happens_inv, Hs.
Qed.

(** While some thread has not returned, some thread is awake. *)
Lemma some_thread_awake (s : threads) :
  threads_inv s -> threads_joined s = false ->
  exists t, thread_awake s t = true.
Proof.
  intros [H1 [H2 [H3 [H4 [H5 [H6 H7]]]]]] Hj.
  destruct (t_producer s) as [|a rest] eqn:Htodo.
  - destruct H3 as [[_ [body [Hb _]]]|[Hf _]];
      [destruct body; discriminate|].
    unfold threads_joined in Hj. rewrite Htodo in Hj.
    destruct (not_all_exited _ Hj) as [i Hi].
    exists (Worker i). simpl.
    pose proof (no_waiter_nth i _ (H6 Hf)) as Hnw.
    destruct (nth i (t_workers s) Exited) as [[|]|p acts|];
      try reflexivity; congruence.
  - destruct (t_producer_waiting s) eqn:Hw.
    + destruct (H4 eq_refl) as [_ Hfull].
      assert (Hq : queue_ (t_queue s) <> []).
      { destruct (queue_ (t_queue s)); [simpl in Hfull; lia | discriminate]. }
      destruct (awake_worker_exists _ (H7 Hq)) as [i Hi].
      exists (Worker i). exact Hi.
    + exists Producer. simpl. now rewrite Hw, Htodo.
Qed.

End WaitFacts.

(** ** Every step of a thread that does not wait brings the end nearer *)

Lemma sum_over_app {A : Type} (f : A -> nat) (l l' : list A) :
  sum_over f (l ++ l') = sum_over f l + sum_over f l'.
Proof.
  induction l as [|x l IH]; simpl; [reflexivity|]. rewrite IH. lia.
Qed.

Lemma sum_over_le_length {A : Type} (f : A -> nat) (l : list A) :
  (forall x, f x <= 1) -> sum_over f l <= length l.
Proof.
  intros Hf. induction l as [|x l IH]; simpl; [lia|].
  pose proof (Hf x). lia.
Qed.

Lemma awake_count_bound (s : threads) :
  awake_count s <= 1 + length (t_workers s).
Proof.
  unfold awake_count.
  pose proof (sum_over_le_length
                (fun w => if worker_waits w then 0 else 1) (t_workers s)) as H.
  assert (forall x : worker_state, (if worker_waits x then 0 else 1) <= 1)
    as Hle by (intros x; destruct (worker_waits x); lia).
  specialize (H Hle). destruct (t_producer_waiting s); lia.
Qed.

Section EndFacts.

Variable actions_of : path -> list worker_action.

Lemma happens_workers_length (s : threads) (ev : event) :
  length (t_workers (happens actions_of s ev)) = length (t_workers s).
Proof.
  destruct ev as [[|i] k|[|i]]; simpl; try apply set_worker_length;
    try reflexivity.
  - unfold producer_acts.
    destruct (t_producer_waiting s); [reflexivity|].
    destruct (t_producer s) as [|[p|e|] rest]; try reflexivity.
    + destruct (push p (t_queue s)); [|reflexivity].
      cbn [t_workers]. destruct (finished_ (t_queue s)); [reflexivity|].
      apply notify_one_length.
    + cbn [t_workers]. apply length_map.
  - unfold worker_acts.
    destruct (nth i (t_workers s) Exited) as [[|]|p [|a acts]|];
      try reflexivity; try apply set_worker_length.
    destruct (pop (t_queue s)); apply set_worker_length.
Qed.

Lemma awake_step (s : threads) (t : thread) (k : nat) :
  thread_awake s t = true ->
  steps_left actions_of (happens actions_of s (Acts t k))
    < steps_left actions_of s
  \/ (steps_left actions_of (happens actions_of s (Acts t k))
      = steps_left actions_of s
      /\ awake_count (happens actions_of s (Acts t k)) < awake_count s).
Proof.
  destruct t as [|i]; cbn [thread_awake happens].
  - intros Ha. apply andb_true_iff in Ha as [Hw Hne].
    apply negb_true_iff in Hw.
    unfold producer_acts, steps_left, awake_count. rewrite Hw.
    destruct (t_producer s) as [|a rest] eqn:Htodo; [discriminate|].
    destruct a as [p|e|].
    + destruct (push_cases p (t_queue s))
        as [[-> _]|[[-> Hf]|[-> [_ Hf]]]];
        cbn [t_queue t_producer t_producer_waiting t_workers queue_].
      * right. split; [reflexivity | lia].
      * left. rewrite Hf. simpl. lia.
      * left. rewrite Hf, notify_one_sum by reflexivity.
        rewrite sum_over_app. simpl. lia.
    + left. cbn [t_queue t_producer t_producer_waiting t_workers]. simpl. lia.
    + left. cbn [t_queue t_producer t_producer_waiting t_workers setFinished
                   queue_].
      rewrite notify_all_sum by reflexivity. simpl. lia.
  - intros Ha.
    assert (Hlt : i < length (t_workers s)).
    { apply nth_worker_lt. intros He. rewrite He in Ha. discriminate. }
    pose proof (fun x => sum_set_worker worker_cost i x (t_workers s) Hlt)
      as Hcost.
    pose proof (fun x => sum_set_worker
                           (fun w => if worker_waits w then 0 else 1) i x
                           (t_workers s) Hlt) as Hawake.
    unfold worker_acts, steps_left, awake_count.
    destruct (nth i (t_workers s) Exited) as [[|]|p acts|] eqn:Hi;
      try discriminate.
    + unfold pop.
      destruct (negb (empty (t_queue s)) || finished_ (t_queue s)).
      * destruct (queue_ (t_queue s)) as [|p rest] eqn:Hq;
          cbn [t_queue t_producer t_producer_waiting t_workers queue_].
        -- left. specialize (Hcost Exited). simpl in Hcost. rewrite Hq.
           simpl. lia.
        -- left. specialize (Hcost (Searching p (actions_of p))).
           simpl in Hcost. simpl. lia.
      * cbn [t_queue t_producer t_producer_waiting t_workers].
        right. specialize (Hcost (Popping true)). simpl in Hcost.
        specialize (Hawake (Popping true)). simpl in Hawake.
        split; lia.
    + left. destruct acts as [|a [|b rest]];
        cbn [t_queue t_producer t_producer_waiting t_workers].
      * specialize (Hcost (Popping false)). simpl in Hcost. lia.
      * specialize (Hcost (Popping false)). simpl in Hcost. lia.
      * specialize (Hcost (Searching p (b :: rest))). simpl in Hcost. lia.
Qed.

Lemma rank_decreases (s : threads) (t : thread) (k : nat) :
  thread_awake s t = true ->
  rank actions_of (happens actions_of s (Acts t k)) < rank actions_of s.
Proof.
  intros Ha. unfold rank. rewrite happens_workers_length.
  pose proof (awake_count_bound (happens actions_of s (Acts t k))) as Hb.
  rewrite happens_workers_length in Hb.
  destruct (awake_step s t k Ha) as [Hlt|[-> Hlt]]; [|lia].
  set (n := 2 + length (t_workers s)) in *.
  assert (steps_left actions_of (happens actions_of s (Acts t k)) * n + n
          <= steps_left actions_of s * n).
  { replace (steps_left actions_of (happens actions_of s (Acts t k)) * n + n)
      with (S (steps_left actions_of (happens actions_of s (Acts t k))) * n)
      by (simpl; lia).
    apply Nat.mul_le_mono_r. lia. }
  lia.
Qed.

Lemma threads_complete (n : nat) :
  forall s, rank actions_of s <= n -> threads_inv s ->
  exists more,
    forallb is_act more = true
    /\ length more <= rank actions_of s
    /\ threads_joined (unfold_events actions_of more s) = true.
Proof.
  induction n as [|n IH]; intros s Hn Hinv;
    (destruct (threads_joined s) eqn:Hj;
     [exists []; repeat split; [simpl; lia | exact Hj]|]);
    destruct (some_thread_awake s Hinv Hj) as [t Ht];
    pose proof (rank_decreases s t 0 Ht) as Hlt; [lia|].
  destruct (IH (happens actions_of s (Acts t 0))) as [more [Ha [Hl Hjoin]]];
    [lia | apply happens_inv, Hinv|].
  exists (Acts t 0 :: more). split; [exact Ha|]. split; [simpl; lia|].
  exact Hjoin.
Qed.

End EndFacts.

(** ** What the workers leave in the results file *)

Lemma in_wake_first (p : path) (acts : list worker_action)
    (ws : list worker_state) :
  In (Searching p acts) (wake_first ws) -> In (Searching p acts) ws.
Proof.
  induction ws as [|w ws IH]; simpl; [auto|].
  destruct w as [[|]|q a|]; simpl; intros [H|H]; auto; discriminate.
Qed.

Lemma in_notify_one (k : nat) (p : path) (acts : list worker_action)
    (ws : list worker_state) :
  In (Searching p acts) (notify_one_consumer k ws) ->
  In (Searching p acts) ws.
Proof.
  unfold notify_one_consumer.
  destruct (nth k ws Exited) as [[|]|q a|]; try apply in_wake_first.
  intros H. apply in_set_worker in H as [H|H]; [discriminate | exact H].
Qed.

Lemma in_notify_all (p : path) (acts : list worker_action)
    (ws : list worker_state) :
  In (Searching p acts) (notify_all_consumers ws) ->
  In (Searching p acts) ws.
Proof.
  unfold notify_all_consumers. intros H. apply in_map_iff in H as [w [Hw Hin]].
  destruct w as [[|]|q a|]; simpl in Hw; try discriminate.
  rewrite <- Hw. exact Hin.
Qed.

Lemma apply_action_results (a : worker_action) (w : World) :
  g_resultsFile (apply_action a w) = g_resultsFile w ++ writes [a].
Proof.
  destruct a; simpl; rewrite ?app_nil_r; reflexivity.
Qed.

Lemma apply_action_scanned (a : worker_action) (w : World) :
  filesScanned (g_status (apply_action a w))
  = Nat.iter (scans [a]) size_incr (filesScanned (g_status w)).
Proof.
  destruct a; reflexivity.
Qed.

Lemma writes_last_cons (a b : worker_action) (rest : list worker_action) :
  writes_last (a :: b :: rest) = true ->
  is_write a = false /\ writes_last (b :: rest) = true
  /\ writes (a :: b :: rest) = writes (b :: rest).
Proof.
  cbn [writes_last]. intros H. apply andb_true_iff in H as [Ha Hr].
  apply negb_true_iff in Ha. repeat split; auto.
  destruct a; try discriminate; reflexivity.
Qed.

Section ResultFacts.

Variable actions_of : path -> list worker_action.
Hypothesis writes_at_end : forall p, writes_last (actions_of p) = true.

Lemma start_searching_ok (todo : list producer_action) (n : nat)
    (w : World) :
  searching_ok actions_of (start_threads todo n w).
Proof.
  intros p acts Hin. simpl in Hin. apply repeat_spec in Hin. discriminate.
Qed.

Lemma happens_searching_ok (s : threads) (ev : event) :
  searching_ok actions_of s ->
  searching_ok actions_of (happens actions_of s ev).
Proof.
  intros Hok p acts Hin. destruct ev as [[|i] k|[|i]]; simpl in Hin.
  - unfold producer_acts in Hin.
    destruct (t_producer_waiting s); [auto|].
    destruct (t_producer s) as [|[q|e|] rest]; auto.
    + destruct (push q (t_queue s)); [|auto].
      cbn [t_workers] in Hin. destruct (finished_ (t_queue s)); [auto|].
      apply Hok. apply in_notify_one in Hin. exact Hin.
    + apply Hok, in_notify_all. exact Hin.
  - unfold worker_acts in Hin.
    destruct (nth i (t_workers s) Exited) as [[|]|q todo|] eqn:Hi; auto.
    + destruct (pop (t_queue s)) as [| |q rest]; cbn [t_workers] in Hin;
        apply in_set_worker in Hin as [Hin|Hin]; auto; try discriminate.
      injection Hin as -> ->. auto.
    + assert (Hq : In (Searching q todo) (t_workers s)).
      { rewrite <- Hi. apply nth_in_workers. rewrite Hi. discriminate. }
      destruct todo as [|a [|b rest]]; cbn [t_workers] in Hin;
        apply in_set_worker in Hin as [Hin|Hin]; auto; try discriminate.
      injection Hin as -> ->.
      destruct (Hok _ _ Hq) as [Hl Hw].
      destruct (writes_last_cons _ _ _ Hl) as [_ [Hl' Hw']].
      split; [exact Hl' | congruence].
  - auto.
  - apply in_set_worker in Hin as [Hin|Hin]; auto.
    destruct (nth i (t_workers s) Exited) as [[|]|q todo|] eqn:Hi;
      simpl in Hin; try discriminate.
    apply Hok. rewrite Hin, <- Hi. apply nth_in_workers. rewrite Hi.
    discriminate.
Qed.

Lemma happens_results (s : threads) (ev : event) :
  searching_ok actions_of s ->
  g_resultsFile (t_world (happens actions_of s ev))
  = g_resultsFile (t_world s)
      ++ flat_map (fun p => writes (actions_of p))
           (completed_by s ev).
Proof.
  intros Hok. destruct ev as [[|i] k|[|i]];
    cbn [happens completed_by flat_map]; rewrite ?app_nil_r;
    try reflexivity.
  - unfold producer_acts.
    destruct (t_producer_waiting s); [reflexivity|].
    destruct (t_producer s) as [|[q|e|] rest]; try reflexivity.
    destruct (push q (t_queue s)); reflexivity.
  - unfold worker_acts.
    destruct (nth i (t_workers s) Exited) as [[|]|q todo|] eqn:Hi;
      cbn [flat_map]; rewrite ?app_nil_r; try reflexivity.
    + destruct (pop (t_queue s)); reflexivity.
    + assert (Hq : In (Searching q todo) (t_workers s)).
      { rewrite <- Hi. apply nth_in_workers. rewrite Hi. discriminate. }
      destruct (Hok _ _ Hq) as [Hl Hw].
      destruct todo as [|a [|b rest]]; cbn [t_world flat_map];
        rewrite ?app_nil_r.
      * rewrite <- Hw. simpl. now rewrite app_nil_r.
      * rewrite <- Hw. apply apply_action_results.
      * destruct (writes_last_cons _ _ _ Hl) as [Ha _].
        rewrite apply_action_results.
        destruct a; try discriminate; simpl; now rewrite app_nil_r.
Qed.

Lemma unfold_results (events : list event) (s : threads) :
  searching_ok actions_of s ->
  searching_ok actions_of (unfold_events actions_of events s)
  /\ g_resultsFile (t_world (unfold_events actions_of events s))
     = g_resultsFile (t_world s)
         ++ flat_map (fun p => writes (actions_of p))
              (completed actions_of events s).
Proof.
  revert s. induction events as [|ev evs IH]; intros s Hok.
  - simpl. rewrite app_nil_r. auto.
  - cbn [unfold_events fold_left completed].
    destruct (IH _ (happens_searching_ok s ev Hok)) as [Hok' Hres].
    split; [exact Hok'|].
    unfold unfold_events in Hres. rewrite Hres, happens_results by exact Hok.
    rewrite flat_map_app, app_assoc. reflexivity.
Qed.

End ResultFacts.

(** ** No path is lost between the threads *)

Lemma inv_unfinished_producer (s : threads) (a : producer_action)
    (rest : list producer_action) :
  threads_inv s -> t_producer s = a :: rest ->
  finished_ (t_queue s) = false.
Proof.
  intros [_ [_ [[[Hf _]|[_ Hnil]] _]]] Htodo; [exact Hf | congruence].
Qed.

Lemma scans_cons (a : worker_action) (acts : list worker_action) :
  scans (a :: acts) = scans [a] + scans acts.
Proof.
  unfold scans. simpl. destruct (is_scanned a); reflexivity.
Qed.

Lemma all_exited_nothing_held (ws : list worker_state) :
  forallb is_exited ws = true ->
  holding ws = [] /\ sum_over scans_held ws = 0.
Proof.
  induction ws as [|w ws IH]; simpl; [auto|].
  intros H. apply andb_true_iff in H as [Hw Hws].
  destruct w; try discriminate. simpl. auto.
Qed.

Lemma joined_nothing_left (s : threads) :
  threads_inv s -> threads_joined s = true ->
  t_producer s = [] /\ queue_ (t_queue s) = []
  /\ holding (t_workers s) = [] /\ sum_over scans_held (t_workers s) = 0.
Proof.
  intros [_ [Hne [_ [_ [Hex _]]]]] Hj. unfold threads_joined in Hj.
  destruct (t_producer s); [|discriminate].
  split; [reflexivity|].
  split; [|apply all_exited_nothing_held, Hj].
  apply Hex. destruct (t_workers s) as [|w ws]; [congruence|].
  simpl in Hj. apply andb_true_iff in Hj as [Hw _].
  destruct w; try discriminate. now left.
Qed.

Section ConservationFacts.

Variable actions_of : path -> list worker_action.

Lemma happens_unfinished (s : threads) (ev : event) :
  threads_inv s ->
  Permutation (completed_by s ev ++ unfinished (happens actions_of s ev))
    (unfinished s).
Proof.
  intros Hinv. unfold unfinished.
  destruct ev as [[|i] k|[|i]]; cbn [happens completed_by app].
  - unfold producer_acts.
    destruct (t_producer_waiting s); [reflexivity|].
    destruct (t_producer s) as [|a rest] eqn:Htodo; [rewrite ?Htodo; reflexivity|].
    pose proof (inv_unfinished_producer s a rest Hinv Htodo) as Hf.
    destruct a as [p|e|].
    + destruct (push_cases p (t_queue s))
        as [[-> _]|[[_ Ht]|[-> _]]]; [| congruence |];
        cbn [t_queue t_producer t_workers queue_].
      * rewrite ?Htodo. reflexivity.
      * rewrite Hf. apply Permutation_app; [apply notify_one_holding|].
        rewrite <- app_assoc. reflexivity.
    + cbn [t_queue t_producer t_workers]. reflexivity.
    + cbn [t_queue t_producer t_workers setFinished queue_].
      rewrite notify_all_holding. reflexivity.
  - unfold worker_acts.
    destruct (nth i (t_workers s) Exited) as [[|]|p acts|] eqn:Hi;
      try reflexivity.
    + assert (Hlt : i < length (t_workers s))
        by (apply nth_worker_lt; congruence).
      pose proof (fun x => holding_set_worker i x (t_workers s) Hlt) as Hh.
      rewrite Hi in Hh. cbn [held app] in Hh.
      unfold pop.
      destruct (negb (empty (t_queue s)) || finished_ (t_queue s)).
      * destruct (queue_ (t_queue s)) as [|p rest] eqn:Hq;
          cbn [t_queue t_producer t_workers queue_ app].
        -- rewrite Hq. apply Permutation_app; [exact (Hh Exited) | reflexivity].
        -- etransitivity;
             [apply Permutation_app;
              [exact (Hh (Searching p (actions_of p))) | reflexivity]|].
           cbn [held app]. apply Permutation_middle.
      * cbn [t_queue t_producer t_workers app].
        apply Permutation_app; [exact (Hh (Popping true)) | reflexivity].
    + assert (Hlt : i < length (t_workers s))
        by (apply nth_worker_lt; congruence).
      pose proof (fun x => holding_set_worker i x (t_workers s) Hlt) as Hh.
      rewrite Hi in Hh. cbn [held] in Hh.
      destruct acts as [|a [|b rest]];
        cbn [t_queue t_producer t_workers app].
      * exact (Permutation_app_tail
                 (queue_ (t_queue s) ++ pushed (t_producer s))
                 (Hh (Popping false))).
      * exact (Permutation_app_tail
                 (queue_ (t_queue s) ++ pushed (t_producer s))
                 (Hh (Popping false))).
      * apply Permutation_app; [|reflexivity].
        apply (Permutation_app_inv_l [p]).
        exact (Hh (Searching p (b :: rest))).
  - reflexivity.
  - destruct (nth i (t_workers s) Exited) as [[|]|p acts|] eqn:Hi;
      cbn [wake t_queue t_producer t_workers];
      try (rewrite <- Hi, set_worker_same; reflexivity).
    assert (Hlt : i < length (t_workers s))
      by (apply nth_worker_lt; congruence).
    pose proof (holding_set_worker i (Popping false) (t_workers s) Hlt)
      as Hh.
    rewrite Hi in Hh. apply Permutation_app; [exact Hh | reflexivity].
Qed.

Lemma unfold_unfinished (events : list event) (s : threads) :
  threads_inv s ->
  Permutation
    (completed actions_of events s
       ++ unfinished (unfold_events actions_of events s))
    (unfinished s).
Proof.
  revert s. induction events as [|ev evs IH]; intros s Hinv;
    [reflexivity|].
  cbn [completed unfold_events fold_left]. rewrite <- app_assoc.
  etransitivity;
    [apply Permutation_app_head, IH, happens_inv, Hinv|].
  apply happens_unfinished, Hinv.
Qed.

Lemma happens_scans (s : threads) (ev : event) :
  threads_inv s ->
  exists d,
    filesScanned (g_status (t_world (happens actions_of s ev)))
    = Nat.iter d size_incr (filesScanned (g_status (t_world s)))
    /\ scans_left actions_of (happens actions_of s ev) + d
       = scans_left actions_of s.
Proof.
  intros Hinv. unfold scans_left.
  destruct ev as [[|i] k|[|i]]; cbn [happens].
  - exists 0. unfold producer_acts.
    destruct (t_producer_waiting s); [auto|].
    destruct (t_producer s) as [|a rest] eqn:Htodo;
      [rewrite ?Htodo; auto|].
    pose proof (inv_unfinished_producer s a rest Hinv Htodo) as Hf.
    destruct a as [p|e|].
    + destruct (push_cases p (t_queue s))
        as [[-> _]|[[_ Ht]|[-> _]]]; [| congruence |];
        cbn [t_queue t_producer t_workers t_world queue_].
      * rewrite ?Htodo. auto.
      * rewrite Hf, notify_one_sum by reflexivity.
        rewrite sum_over_app. split; [reflexivity | simpl; lia].
    + cbn [t_queue t_producer t_workers t_world]. split; [reflexivity|].
      simpl. lia.
    + cbn [t_queue t_producer t_workers t_world setFinished queue_].
      rewrite notify_all_sum by reflexivity.
      split; [reflexivity | simpl; lia].
  - unfold worker_acts.
    destruct (nth i (t_workers s) Exited) as [[|]|p acts|] eqn:Hi;
      try (exists 0; split; [reflexivity | lia]).
    + exists 0. assert (Hlt : i < length (t_workers s))
        by (apply nth_worker_lt; congruence).
      pose proof (fun x => sum_set_worker scans_held i x (t_workers s) Hlt)
        as Hh.
      rewrite Hi in Hh. cbn [scans_held] in Hh.
      unfold pop.
      destruct (negb (empty (t_queue s)) || finished_ (t_queue s)).
      * destruct (queue_ (t_queue s)) as [|p rest] eqn:Hq;
          cbn [t_queue t_producer t_workers t_world queue_].
        -- rewrite Hq. specialize (Hh Exited). simpl in Hh.
           split; [reflexivity | simpl; lia].
        -- specialize (Hh (Searching p (actions_of p))). simpl in Hh.
           split; [reflexivity | simpl; lia].
      * cbn [t_queue t_producer t_workers t_world].
        specialize (Hh (Popping true)). simpl in Hh.
        split; [reflexivity | simpl; lia].
    + assert (Hlt : i < length (t_workers s))
        by (apply nth_worker_lt; congruence).
      pose proof (fun x => sum_set_worker scans_held i x (t_workers s) Hlt)
        as Hh.
      rewrite Hi in Hh. cbn [scans_held] in Hh.
      destruct acts as [|a rest].
      * exists 0. cbn [t_queue t_producer t_workers t_world].
        specialize (Hh (Popping false)). change (scans []) with 0 in Hh.
        split; [reflexivity | simpl in *; lia].
      * exists (scans [a]). cbn [t_queue t_producer t_workers t_world].
        split; [apply apply_action_scanned|].
        rewrite (scans_cons a rest) in Hh.
        destruct rest as [|b rest].
        -- specialize (Hh (Popping false)).
           change (scans []) with 0 in Hh. cbn [scans_held] in Hh. lia.
        -- specialize (Hh (Searching p (b :: rest))).
           cbn [scans_held] in Hh. lia.
  - exists 0. auto.
  - exists 0. cbn [t_queue t_producer t_workers t_world].
    split; [reflexivity|].
    destruct (nth i (t_workers s) Exited) as [[|]|p acts|] eqn:Hi;
      cbn [wake]; try (rewrite <- Hi, set_worker_same; lia).
    assert (Hlt : i < length (t_workers s))
      by (apply nth_worker_lt; congruence).
    pose proof (sum_set_worker scans_held i (Popping false) (t_workers s)
                  Hlt) as Hh.
    rewrite Hi in Hh. simpl in Hh. lia.
Qed.

Lemma unfold_scans (events : list event) (s : threads) :
  threads_inv s ->
  Nat.iter (scans_left actions_of (unfold_events actions_of events s))
    size_incr
    (filesScanned
       (g_status (t_world (unfold_events actions_of events s))))
  = Nat.iter (scans_left actions_of s) size_incr
      (filesScanned (g_status (t_world s))).
Proof.
  revert s. induction events as [|ev evs IH]; intros s Hinv;
    [reflexivity|].
  cbn [unfold_events fold_left].
  unfold unfold_events in IH. rewrite IH by (apply happens_inv, Hinv).
  destruct (happens_scans s ev Hinv) as [d [-> <-]].
  now rewrite Nat.iter_add.
Qed.

End ConservationFacts.

(** ** The updates a worker makes for one path *)

Section UpdateFacts.

Variable regex : Type.
Variable regex_compile : bool -> bytes -> option regex.
Variable regex_search : regex -> bytes -> bool.
Variable fs : path -> option bytes.
Variable query : bytes.
Variable use_regex : bool.

Local Notation file_actions' :=
  (file_actions regex_compile regex_search fs query use_regex).
Local Notation file_block' :=
  (file_block regex_compile regex_search fs query use_regex).
Local Notation is_read' := (is_read regex_compile fs query use_regex).

Lemma scan_fold_status_free (m : matcher regex) (lines : list bytes) :
  forall s s',
    next_line s = next_line s' -> matches s = matches s' ->
    matches (fold_left (scan_line regex_search m query) lines s)
    = matches (fold_left (scan_line regex_search m query) lines s').
Proof.
  induction lines as [|l ls IH]; intros s s' Hn Hm; [exact Hm|].
  cbn [fold_left]. apply IH; unfold scan_line;
    destruct (line_found regex_search m query l);
    cbn [next_line matches]; congruence.
Qed.

Lemma scan_fold_hits (m : matcher regex) (lines : list bytes)
    (st : StatusData) :
  forall s,
    scan_status s = Nat.iter (length (matches s)) count_hit st ->
    scan_status (fold_left (scan_line regex_search m query) lines s)
    = Nat.iter
        (length
           (matches (fold_left (scan_line regex_search m query) lines s)))
        count_hit st.
Proof.
  induction lines as [|l ls IH]; intros s Hs; [exact Hs|].
  cbn [fold_left]. apply IH. unfold scan_line.
  destruct (line_found regex_search m query l);
    cbn [scan_status matches]; [|exact Hs].
  rewrite length_app, Nat.add_1_r, Hs. reflexivity.
Qed.

Lemma apply_hits (n : nat) (w : World) :
  fold_left (fun w a => apply_action a w) (repeat AHit n) w
  = with_status (Nat.iter n count_hit) w.
Proof.
  revert w. induction n as [|n IH]; intros w.
  - destruct w. reflexivity.
  - cbn [repeat fold_left apply_action]. rewrite IH.
    unfold with_status. cbn [g_status g_resultsFile g_filesProcessed opened].
    now rewrite Nat.iter_succ_r.
Qed.

(** Taken without another thread in between, the updates for a path are
    the status reset of the worker loop followed by [searchInFile]. *)
Lemma file_actions_refine (p : path) (w : World) :
  fold_left (fun w a => apply_action a w) (file_actions' p) w
  = searchInFile regex_compile regex_search fs p query use_regex
      (with_status (claim_file p) w).
Proof.
  unfold file_actions, searchInFile. cbn [fold_left apply_action].
  destruct (fs p) as [content|]; [|reflexivity].
  cbn [fold_left apply_action].
  destruct (prepare_matcher regex_compile query use_regex) as [m|];
    [|reflexivity].
  set (w1 := log_open p (with_status (claim_file p) w)).
  cbv zeta.
  assert (Hm : matches (scan_lines regex_search m query (getlines content)
                          status_init)
               = matches (scan_lines regex_search m query
                            (getlines content) (g_status w1))).
  { apply scan_fold_status_free; reflexivity. }
  assert (Hs : scan_status (scan_lines regex_search m query
                              (getlines content) (g_status w1))
               = Nat.iter
                   (length (matches (scan_lines regex_search m query
                                       (getlines content) (g_status w1))))
                   count_hit (g_status w1)).
  { apply scan_fold_hits. reflexivity. }
  rewrite Hm, Hs, fold_left_app, apply_hits.
  destruct (matches (scan_lines regex_search m query (getlines content)
                       (g_status w1))); reflexivity.
Qed.

Lemma writes_hits (n : nat) (acts : list worker_action) :
  writes (repeat AHit n ++ acts) = writes acts
  /\ scans (repeat AHit n ++ acts) = scans acts
  /\ (writes_last acts = true -> writes_last (repeat AHit n ++ acts) = true).
Proof.
  induction n as [|n [IHw [IHs IHl]]]; [auto|].
  cbn [repeat app]. repeat split; auto.
  intros Hl. specialize (IHl Hl). cbn [writes_last].
  destruct (repeat AHit n ++ acts); [reflexivity | exact IHl].
Qed.

Lemma file_actions_writes_last (p : path) :
  writes_last (file_actions' p) = true.
Proof.
  unfold file_actions.
  destruct (fs p) as [content|]; [|reflexivity].
  destruct (prepare_matcher regex_compile query use_regex) as [m|];
    [|reflexivity].
  cbv zeta.
  set (found := matches (scan_lines regex_search m query (getlines content)
                           status_init)).
  assert (H : writes_last
                (repeat AHit (length found)
                   ++ [AProcessed; AScanned]
                   ++ match found with
                      | [] => []
                      | _ :: _ => [AWrite (format_block p found)]
                      end) = true).
  { apply writes_hits. destruct found; reflexivity. }
  cbn [writes_last].
  destruct (repeat AHit (length found)
              ++ [AProcessed; AScanned]
              ++ match found with
                 | [] => []
                 | _ :: _ => [AWrite (format_block p found)]
                 end); [reflexivity | exact H].
Qed.

Lemma file_actions_writes (p : path) :
  writes (file_actions' p) = file_block' p.
Proof.
  unfold file_block, file_actions, searchInFile.
  destruct (fs p) as [content|]; [|reflexivity].
  destruct (prepare_matcher regex_compile query use_regex) as [m|];
    [|reflexivity].
  cbv zeta.
  assert (Hm : matches (scan_lines regex_search m query (getlines content)
                          status_init)
               = matches (scan_lines regex_search m query
                            (getlines content)
                            (g_status (log_open p world_init)))).
  { apply scan_fold_status_free; reflexivity. }
  rewrite <- Hm.
  change (writes (ASetCurrent p :: AOpen p :: ?l)) with (writes l).
  destruct (writes_hits
              (length (matches (scan_lines regex_search m query
                                  (getlines content) status_init)))
              ([AProcessed; AScanned]
                 ++ match matches (scan_lines regex_search m query
                                     (getlines content) status_init) with
                    | [] => []
                    | _ :: _ =>
                        [AWrite
                           (format_block p
                              (matches (scan_lines regex_search m query
                                          (getlines content) status_init)))]
                    end)) as [-> _].
  destruct (matches (scan_lines regex_search m query (getlines content)
                       status_init)); cbn [g_resultsFile];
    [reflexivity|].
  simpl. now rewrite app_nil_r.
Qed.

Lemma file_actions_scans (p : path) :
  scans (file_actions' p) = if is_read' p then 1 else 0.
Proof.
  unfold is_read, file_actions.
  destruct (fs p) as [content|]; [|reflexivity].
  destruct (prepare_matcher regex_compile query use_regex) as [m|];
    [|reflexivity].
  cbv zeta.
  change (scans (ASetCurrent p :: AOpen p :: ?l)) with (scans l).
  destruct (writes_hits
              (length (matches (scan_lines regex_search m query
                                  (getlines content) status_init)))
              ([AProcessed; AScanned]
                 ++ match matches (scan_lines regex_search m query
                                     (getlines content) status_init) with
                    | [] => []
                    | _ :: _ =>
                        [AWrite
                           (format_block p
                              (matches (scan_lines regex_search m query
                                          (getlines content) status_init)))]
                    end)) as [_ [-> _]].
  destruct (matches (scan_lines regex_search m query (getlines content)
                       status_init)); reflexivity.
Qed.

Lemma sum_scans (files : list path) :
  sum_over (fun p => scans (file_actions' p)) files
  = length (filter is_read' files).
Proof.
  induction files as [|p files IH]; [reflexivity|].
  cbn [sum_over fold_right filter]. fold (sum_over (fun p => scans (file_actions' p)) files).
  rewrite IH, file_actions_scans.
  destruct (is_read' p); reflexivity.
Qed.

Lemma flat_map_blocks (files : list path) :
  flat_map (fun p => writes (file_actions' p)) files
  = flat_map file_block' files.
Proof.
  induction files as [|p files IH]; [reflexivity|].
  cbn [flat_map]. now rewrite IH, file_actions_writes.
Qed.

End UpdateFacts.

(** ** The threads of a scan *)

Lemma asleep_step (actions_of : path -> list worker_action) (s : threads)
    (t : thread) (k : nat) :
  thread_awake s t = false -> happens actions_of s (Acts t k) = s.
Proof.
  destruct t as [|i]; cbn [thread_awake happens].
  - unfold producer_acts.
    destruct (t_producer_waiting s); [reflexivity|].
    destruct (t_producer s); [reflexivity | discriminate].
  - unfold worker_acts.
    destruct (nth i (t_workers s) Exited) as [[|]|p acts|];
      try reflexivity; discriminate.
Qed.

Lemma start_nothing_held (n : nat) :
  holding (repeat (Popping false) n) = []
  /\ sum_over scans_held (repeat (Popping false) n) = 0.
Proof.
  induction n as [|n [IH IH']]; [auto|]. simpl. auto.
Qed.

Section ThreadFacts.

Variable regex : Type.
Variable regex_compile : bool -> bytes -> option regex.
Variable regex_search : regex -> bytes -> bool.
Variable regex_match : regex -> bytes -> bool.
Variable fs : path -> option bytes.
Variable query : bytes.
Variable use_regex : bool.

Local Notation file_actions' :=
  (file_actions regex_compile regex_search fs query use_regex).
Local Notation file_block' :=
  (file_block regex_compile regex_search fs query use_regex).
Local Notation is_read' := (is_read regex_compile fs query use_regex).

Lemma start_inv (wr : option regex) (directory : path)
    (hardware_concurrency : nat) (tree : walk) (w : World) :
  threads_inv
    (start_threads (producer regex_match wr directory tree)
       (Nat.max 1 hardware_concurrency) w).
Proof.
  rewrite producer_split.
  apply start_threads_inv; [apply producer_body_no_finish | lia].
Qed.

(** X12: the threads of a scan cannot get stuck, and it is the
    notifications that keep them going.  A thread that waits on its
    condition variable, or has returned, does nothing until it is woken.
    Yet at every moment at which some thread has not returned, some thread
    does not wait; each critical section of such a thread brings the end
    nearer; and from every moment the threads can run to their return
    without any unprompted wake-up. *)
Theorem notifications_keep_threads_going
    (wr : option regex) (directory : path) (hardware_concurrency : nat)
    (tree : walk) (w : World) (events : list event) :
  let s0 := start_threads (producer regex_match wr directory tree)
              (Nat.max 1 hardware_concurrency) w in
  let s := unfold_events file_actions' events s0 in
  (forall t k,
     thread_awake s t = false -> happens file_actions' s (Acts t k) = s)
  /\ (threads_joined s = false -> exists t, thread_awake s t = true)
  /\ (forall t k,
        thread_awake s t = true ->
        rank file_actions' (happens file_actions' s (Acts t k))
          < rank file_actions' s)
  /\ exists more,
       forallb is_act more = true
       /\ length more <= rank file_actions' s
       /\ threads_joined (unfold_events file_actions' (events ++ more) s0)
          = true.
Proof.
  intros s0 s.
  assert (Hinv : threads_inv s)
    by (apply unfold_events_inv, start_inv).
  split; [intros t k; apply asleep_step|].
  split; [apply some_thread_awake, Hinv|].
  split; [intros t k; apply rank_decreases|].
  destruct (threads_complete file_actions' (rank file_actions' s) s
              (le_n _) Hinv) as [more [Ha [Hl Hj]]].
  exists more. split; [exact Ha|]. split; [exact Hl|].
  unfold unfold_events. rewrite fold_left_app. exact Hj.
Qed.

(** X14: however the critical sections of the threads interleave, the
    results file holds at every moment the whole blocks of the files
    whose search has ended, in the order in which the searches ended, and
    nothing else; those files together with the ones held by a worker,
    queued or still to be pushed are exactly the regular files that
    passed the filter, each once.  When all threads have returned, every
    such file has been searched, and [filesScanned] has grown by the
    number of them that could be opened and read, wrapping at [2^64].
    Taken alone, the updates made for a file are those of the worker loop
    and [searchInFile]. *)
Theorem results_hold_whole_blocks
    (directory : path) (filePattern : option bytes) (wr : option regex)
    (hardware_concurrency : nat) (tree : walk) (events : list event)
    (w : World) (s : threads) :
  scan_threads regex_compile regex_search regex_match fs query directory
    use_regex filePattern true hardware_concurrency tree events w = Some s ->
  compile_filter regex_compile filePattern = Some wr ->
  let s0 := start_threads (producer regex_match wr directory tree)
              (Nat.max 1 hardware_concurrency) (truncate_results w) in
  let finished := completed file_actions' events s0 in
  let files := map entry_path
                 (filter (passes regex_match wr) (walk_entries tree)) in
  (forall p w',
     fold_left (fun w a => apply_action a w) (file_actions' p) w'
     = searchInFile regex_compile regex_search fs p query use_regex
         (with_status (claim_file p) w'))
  /\ g_resultsFile (t_world s) = flat_map file_block' finished
  /\ Permutation (finished ++ unfinished s) files
  /\ (threads_joined s = true ->
      Permutation finished files
      /\ filesScanned (g_status (t_world s))
         = Nat.iter (length (filter is_read' files)) size_incr
             (filesScanned (g_status w))).
Proof.
  intros Hscan Hfilter s0 finished files.
  assert (Hs : unfold_events file_actions' events s0 = s).
  { unfold scan_threads in Hscan. rewrite Hfilter in Hscan.
    injection Hscan as Hs. exact Hs. }
  clear Hscan.
  assert (Hinv0 : threads_inv s0) by apply start_inv.
  assert (Hinv : threads_inv s)
    by (rewrite <- Hs; apply unfold_events_inv, Hinv0).
  assert (Hun0 : unfinished s0 = files).
  { unfold unfinished, s0, start_threads.
    cbn [t_workers t_queue t_producer new_queue queue_].
    rewrite (proj1 (start_nothing_held _)). cbn [app].
    apply pushed_by_producer. }
  assert (Hperm : Permutation (finished ++ unfinished s) files).
  { rewrite <- Hs, <- Hun0. apply unfold_unfinished, Hinv0. }
  split; [apply file_actions_refine|].
  split.
  { destruct (unfold_results file_actions'
                (file_actions_writes_last regex regex_compile regex_search fs
                   query use_regex)
                events s0 (start_searching_ok file_actions' _ _ _))
      as [_ Hres].
    rewrite <- Hs, Hres. unfold s0 at 1. cbn [start_threads t_world
      truncate_results g_resultsFile app].
    apply flat_map_blocks. }
  split; [exact Hperm|].
  intros Hj.
  destruct (joined_nothing_left s Hinv Hj) as [Hp [Hq [Hh Hsc]]].
  split.
  { unfold unfinished in Hperm. rewrite Hp, Hq, Hh in Hperm.
    cbn [pushed app] in Hperm. now rewrite app_nil_r in Hperm. }
  pose proof (unfold_scans file_actions' events s0 Hinv0) as Hscans.
  rewrite Hs in Hscans.
  assert (Hleft : scans_left file_actions' s = 0).
  { unfold scans_left. rewrite Hp, Hq, Hsc. reflexivity. }
  assert (Hleft0 : scans_left file_actions' s0
                   = length (filter is_read' files)).
  { unfold scans_left, s0, start_threads.
    cbn [t_workers t_queue t_producer new_queue queue_].
    rewrite (proj2 (start_nothing_held _)), pushed_by_producer.
    cbn [sum_over fold_right Nat.add]. apply sum_scans. }
  rewrite Hleft, Hleft0 in Hscans. cbn [Nat.iter nat_rect] in Hscans.
  exact Hscans.
Qed.

End ThreadFacts.

Lemma notifications_keep_threads_going_witness :
  let acts := file_actions Ecma.compile Ecma.regex_search test_fs
                (lit "needle") false in
  let s0 := start_threads (producer Ecma.regex_match None testDir test_tree)
              (Nat.max 1 2) world_init in
  let s := unfold_events acts [Acts (Worker 0) 0; Acts (Worker 1) 0] s0 in
  t_workers s = [Popping true; Popping true]
  /\ happens acts s (Acts (Worker 0) 0) = s
  /\ (exists t, thread_awake s t = true)
  /\ t_workers (happens acts s (Acts Producer 1))
     = [Popping true; Popping false]
  /\ rank acts (happens acts s (Acts Producer 1)) < rank acts s
  /\ exists more,
       forallb is_act more = true
       /\ threads_joined
            (unfold_events acts
               ([Acts (Worker 0) 0; Acts (Worker 1) 0] ++ more) s0) = true.
Proof.
  intros acts s0 s.
  destruct (notifications_keep_threads_going Ecma.regex Ecma.compile
              Ecma.regex_search Ecma.regex_match test_fs (lit "needle") false
              None testDir 2 test_tree world_init
              [Acts (Worker 0) 0; Acts (Worker 1) 0])
    as [Hasleep [Hawake [Hrank [more [Hacts [_ Hjoin]]]]]].
  split; [reflexivity|].
  split; [apply Hasleep; reflexivity|].
  split; [apply Hawake; reflexivity|].
  split; [reflexivity|].
  split; [apply Hrank; reflexivity|].
  exists more. split; [exact Hacts | exact Hjoin].
Defined.

Lemma results_hold_whole_blocks_witness :
  let events := [Acts Producer 0; Acts Producer 0; Acts Producer 0;
                 Acts (Worker 0) 0; Acts (Worker 1) 0] ++ take_turns 10 in
  let acts := file_actions Ecma.compile Ecma.regex_search test_fs (lit "e")
                false in
  let s0 := start_threads (producer Ecma.regex_match None testDir test_tree)
              (Nat.max 1 2) (truncate_results world_init) in
  let s := unfold_events acts events s0 in
  completed acts events s0 = [file2; file1]
  /\ g_resultsFile (t_world s)
     = file_block Ecma.compile Ecma.regex_search test_fs (lit "e") false
         file2
         ++ file_block Ecma.compile Ecma.regex_search test_fs (lit "e") false
              file1
  /\ Permutation [file2; file1] [file1; file2]
  /\ filesScanned (g_status (t_world s)) = 2%N.
Proof.
  intros events acts s0 s.
  assert (Hdone : completed acts events s0 = [file2; file1])
    by (vm_compute; reflexivity).
  destruct (results_hold_whole_blocks Ecma.regex Ecma.compile
              Ecma.regex_search Ecma.regex_match test_fs (lit "e") false
              testDir None None 2 test_tree events world_init s
              eq_refl eq_refl) as [_ [Hres [_ Hjoined]]].
  destruct (Hjoined ltac:(vm_compute; reflexivity)) as [Hperm Hcount].
  fold acts s0 in Hres, Hperm. rewrite Hdone in Hres, Hperm.
  split; [exact Hdone|].
  split; [rewrite Hres; cbn [flat_map]; now rewrite app_nil_r|].
  split; [exact Hperm|].
  rewrite Hcount. reflexivity.
Defined.
